(** * GoHTTPProbe: the probe engine of [internal/probe]

    A shallow embedding of the Go package [probe] (method catalog, safe-mode
    filter, HTTP client factory, [testMethod] and the goroutine dispatch of
    [runSingleProbe]) together with the properties its specification states.

    Conventions of the embedding
    - a Go [string] is a byte string: Rocq's [string] (a list of [ascii]),
      read as UTF-8 where the library does;
    - a Go [int] is the 64-bit integer of the usual targets, kept in [Z];
      the one place where arithmetic can leave the range
      ([time.Duration(timeout) * time.Second]) writes the wrap-around out;
    - a Go [map[string]T] is a [gmap string T]; reading a missing key gives
      the zero value of [T];
    - a nil slice and an empty slice are both [[]]; a nil [error] is [None];
    - the operating system, the URL parser and the network are a record of
      oracles ([World]); logging is a writer effect over the calls made to
      the [Logger]. *)

From Stdlib Require Import ZArith NArith Lia Ascii String.
From stdpp Require Import base tactics option list strings gmap sorting.

Local Open Scope Z_scope.
Set Warnings "-clear-no-such-hyp".

(** ** Go's [strings], [unicode] and [unicode/utf8], on byte strings

    A Go string is a sequence of bytes; [TrimSpace] and [ToUpper] read it as
    UTF-8, an invalid byte counting as the rune U+FFFD of width 1.  White
    space is the Unicode property [White_Space]; upper case above U+007F
    comes from the case tables of the Go release, which are a collaborator
    (see [World]).  The other functions used by the engine compare bytes. *)

Module GoStrings.

(** The bytes of a string. *)
Definition byte (c : ascii) : N := N_of_ascii c.
Definition bytes (s : string) : list ascii := list_ascii_of_string s.
Definition ofBytes (l : list ascii) : string := string_of_list_ascii l.

(** *** [unicode/utf8] *)

Definition RuneError : N := 0xFFFD%N.
Definition RuneSelf : N := 0x80%N.

(** The table [first] with [acceptRanges]: what a first byte announces. *)
Inductive First :=
| ASCII
| Invalid
| Lead (size : nat) (lo hi : N).   (* size and the range of the second byte *)

Definition first (b : N) : First :=
  if (b <? 0x80)%N then ASCII
  else if (b <? 0xC2)%N then Invalid
  else if (b <? 0xE0)%N then Lead 2 0x80 0xBF
  else if (b =? 0xE0)%N then Lead 3 0xA0 0xBF
  else if (b <? 0xED)%N then Lead 3 0x80 0xBF
  else if (b =? 0xED)%N then Lead 3 0x80 0x9F
  else if (b <? 0xF0)%N then Lead 3 0x80 0xBF
  else if (b =? 0xF0)%N then Lead 4 0x90 0xBF
  else if (b <? 0xF4)%N then Lead 4 0x80 0xBF
  else if (b =? 0xF4)%N then Lead 4 0x80 0x8F
  else Invalid.

(** A continuation byte: [locb <= b && b <= hicb]. *)
Definition isCont (b : N) : bool := (0x80 <=? b)%N && (b <=? 0xBF)%N.

(** [utf8.DecodeRuneInString]: the first rune and its width; an invalid or
    short encoding is [(RuneError, 1)], the empty string [(RuneError, 0)]. *)
Definition DecodeRuneInString (s : list ascii) : N * nat :=
  match s with
  | [] => (RuneError, 0%nat)
  | c0 :: s =>
      let s0 := byte c0 in
      match first s0 with
      | ASCII => (s0, 1%nat)
      | Invalid => (RuneError, 1%nat)
      | Lead sz lo hi =>
          match s with
          | [] => (RuneError, 1%nat)
          | c1 :: s =>
              let s1 := byte c1 in
              if (s1 <? lo)%N || (hi <? s1)%N then (RuneError, 1%nat)
              else if (sz <=? 2)%nat then
                (N.lor (N.shiftl (N.land s0 0x1F) 6) (N.land s1 0x3F), 2%nat)
              else
                match s with
                | [] => (RuneError, 1%nat)
                | c2 :: s =>
                    let s2 := byte c2 in
                    if negb (isCont s2) then (RuneError, 1%nat)
                    else if (sz <=? 3)%nat then
                      (N.lor (N.shiftl (N.land s0 0x0F) 12)
                         (N.lor (N.shiftl (N.land s1 0x3F) 6) (N.land s2 0x3F)),
                       3%nat)
                    else
                      match s with
                      | [] => (RuneError, 1%nat)
                      | c3 :: _ =>
                          let s3 := byte c3 in
                          if negb (isCont s3) then (RuneError, 1%nat)
                          else
                            (N.lor (N.shiftl (N.land s0 0x07) 18)
                               (N.lor (N.shiftl (N.land s1 0x3F) 12)
                                  (N.lor (N.shiftl (N.land s2 0x3F) 6)
                                     (N.land s3 0x3F))),
                             4%nat)
                      end
                end
          end
      end
  end.

(** [utf8.RuneStart] *)
Definition RuneStart (b : N) : bool := negb (N.land b 0xC0 =? 0x80)%N.

(** The loop of [utf8.DecodeLastRuneInString] that backs up to the start of
    the last rune: at most three bytes before the last one are looked at;
    without a start among them the decoding begins one byte earlier still
    (at 0 in a string of up to four bytes). *)
Definition lastRuneStart (s : list ascii) : nat :=
  let n := length s in
  let startAt (k : nat) : bool :=
    (k <=? n)%nat &&
    match s !! (n - k)%nat with
    | Some c => RuneStart (byte c)
    | None => false
    end in
  if startAt 2%nat then (n - 2)%nat
  else if startAt 3%nat then (n - 3)%nat
  else if startAt 4%nat then (n - 4)%nat
  else (n - 5)%nat.

(** [utf8.DecodeLastRuneInString] *)
Definition DecodeLastRuneInString (s : list ascii) : N * nat :=
  match last s with
  | None => (RuneError, 0%nat)
  | Some c =>
      if (byte c <? RuneSelf)%N then (byte c, 1%nat)
      else
        let start := lastRuneStart s in
        let '(r, size) := DecodeRuneInString (drop start s) in
        if (start + size =? length s)%nat then (r, size) else (RuneError, 1%nat)
  end.

(** [utf8.AppendRune]: surrogates and values above U+10FFFF are written as
    U+FFFD. *)
Definition AppendRune (r : N) : list ascii :=
  let b (n : N) : ascii := ascii_of_N n in
  if (r <=? 0x7F)%N then [b r]
  else if (r <=? 0x7FF)%N then
    [b (N.lor 0xC0 (N.shiftr r 6)); b (N.lor 0x80 (N.land r 0x3F))]
  else if (0x10FFFF <? r)%N || ((0xD800 <=? r)%N && (r <=? 0xDFFF)%N) then
    [b 0xEF%N; b 0xBF%N; b 0xBD%N]
  else if (r <=? 0xFFFF)%N then
    [b (N.lor 0xE0 (N.shiftr r 12));
     b (N.lor 0x80 (N.land (N.shiftr r 6) 0x3F));
     b (N.lor 0x80 (N.land r 0x3F))]
  else
    [b (N.lor 0xF0 (N.shiftr r 18));
     b (N.lor 0x80 (N.land (N.shiftr r 12) 0x3F));
     b (N.lor 0x80 (N.land (N.shiftr r 6) 0x3F));
     b (N.lor 0x80 (N.land r 0x3F))].

(** The runes a [range] loop over the string yields: an invalid byte counts
    as U+FFFD of width 1.  [skip] is the number of bytes still belonging to
    the rune decoded last. *)
Fixpoint runesFrom (skip : nat) (s : list ascii) : list N :=
  match s with
  | [] => []
  | _ :: rest =>
      match skip with
      | S skip => runesFrom skip rest
      | O =>
          let '(r, size) := DecodeRuneInString s in
          r :: runesFrom (size - 1) rest
      end
  end.

(** *** [unicode] *)

(** [unicode.IsSpace]: the Latin-1 cases and the property [White_Space]. *)
Definition IsSpace (r : N) : bool :=
  if (r <=? 0xFF)%N then
    ((0x09 <=? r)%N && (r <=? 0x0D)%N) || (r =? 0x20)%N
    || (r =? 0x85)%N || (r =? 0xA0)%N
  else
    (r =? 0x1680)%N || ((0x2000 <=? r)%N && (r <=? 0x200A)%N)
    || (r =? 0x2028)%N || (r =? 0x2029)%N || (r =? 0x202F)%N
    || (r =? 0x205F)%N || (r =? 0x3000)%N.

(** [unicode.ToUpper]: the ASCII letters are mapped in place; above U+007F
    the answer comes from the case tables of the Go release at hand
    ([To(UpperCase, r)]), a collaborator here. *)
Definition unicode_ToUpper (to_UpperCase : N → N) (r : N) : N :=
  if (r <=? 0x7F)%N then
    if (0x61 <=? r)%N && (r <=? 0x7A)%N then (r - 0x20)%N else r
  else to_UpperCase r.

(** *** [strings] *)

(** The table [asciiSpace]. *)
Definition isSpace (c : ascii) : bool :=
  let n := Ascii.nat_of_ascii c in
  ((9 <=? n)%nat && (n <=? 13)%nat) || (n =? 32)%nat.

(** ['a' <= c && c <= 'z']: [c -= 'a' - 'A']. *)
Definition upperByte (c : ascii) : ascii :=
  let n := Ascii.nat_of_ascii c in
  if ((97 <=? n)%nat && (n <=? 122)%nat)
  then Ascii.ascii_of_nat (n - 32) else c.

(** [strings.Map]: every rune of the string is mapped and written again; an
    invalid byte reaches the mapping as U+FFFD. *)
Definition Map (mapping : N → N) (s : list ascii) : list ascii :=
  mjoin ((λ r, AppendRune (mapping r)) <$> runesFrom 0 s).

(** [strings.ToUpper]: bytes are mapped in place when the string is ASCII,
    runes with [unicode.ToUpper] otherwise. *)
Definition isASCII (s : list ascii) : bool :=
  forallb (λ c, (byte c <? RuneSelf)%N) s.

Definition ToUpper (to_UpperCase : N → N) (s : string) : string :=
  if isASCII (bytes s) then ofBytes (upperByte <$> bytes s)
  else ofBytes (Map (unicode_ToUpper to_UpperCase) (bytes s)).

(** The first loop of [strings.TrimSpace]: leading ASCII white space. *)
Fixpoint TrimLeft (s : string) : string :=
  match s with
  | EmptyString => EmptyString
  | String c r => if isSpace c then TrimLeft r else s
  end.

(** Its second loop: trailing ASCII white space. *)
Fixpoint TrimRight (s : string) : string :=
  match s with
  | EmptyString => EmptyString
  | String c r =>
      match TrimRight r with
      | EmptyString => if isSpace c then EmptyString else String c EmptyString
      | r' => String c r'
      end
  end.

(** [strings.TrimLeftFunc(s, unicode.IsSpace)]: the string from its first
    rune that is not white space on. *)
Fixpoint trimLeftFrom (skip : nat) (s : list ascii) : list ascii :=
  match s with
  | [] => []
  | _ :: rest =>
      match skip with
      | S skip => trimLeftFrom skip rest
      | O =>
          let '(r, size) := DecodeRuneInString s in
          if IsSpace r then trimLeftFrom (size - 1) rest else s
      end
  end.

Definition TrimLeftFunc (s : list ascii) : list ascii := trimLeftFrom 0 s.

(** [lastIndexFunc(s, unicode.IsSpace, false)]: where the last rune that is
    not white space starts, decoding backwards from [i]; [None] is Go's -1. *)
Fixpoint lastIndexFrom (skip : nat) (s : list ascii) (i : nat) : option nat :=
  match i with
  | O => None
  | S i' =>
      match skip with
      | S skip => lastIndexFrom skip s i'
      | O =>
          let '(r, size) := DecodeLastRuneInString (take i s) in
          if IsSpace r then lastIndexFrom (size - 1) s i'
          else Some (i - size)%nat
      end
  end.

(** [strings.TrimRightFunc(s, unicode.IsSpace)] *)
Definition TrimRightFunc (s : list ascii) : list ascii :=
  match lastIndexFrom 0 s (length s) with
  | Some i =>
      match s !! i with
      | Some c =>
          if (RuneSelf <=? byte c)%N
          then take (i + (DecodeRuneInString (drop i s)).2) s
          else take (i + 1) s
      | None => take (i + 1) s
      end
  | None => []
  end.

(** [strings.TrimFunc(s, unicode.IsSpace)] *)
Definition TrimFunc (s : list ascii) : list ascii :=
  TrimRightFunc (TrimLeftFunc s).

(** [strings.TrimSpace]: the two ASCII loops, each of which hands the rest
    to the rune-wise functions at the first byte above 0x7F it meets. *)
Definition TrimSpace (s : string) : string :=
  let s := TrimLeft s in
  match s with
  | EmptyString => EmptyString
  | String c _ =>
      if (RuneSelf <=? byte c)%N then ofBytes (TrimFunc (bytes s))
      else
        let s := TrimRight s in
        match last (bytes s) with
        | Some c =>
            if (RuneSelf <=? byte c)%N then ofBytes (TrimRightFunc (bytes s))
            else s
        | None => s
        end
  end.

Definition HasPrefix (s p : string) : bool := String.prefix p s.

(** [strings.Split s sep] for a one-byte separator: the pieces between
    the separators, [n + 1] of them for [n] separators. *)
Fixpoint splitByte (sep : ascii) (s : string) : string * list string :=
  match s with
  | EmptyString => (EmptyString, [])
  | String c r =>
      let '(hd, tl) := splitByte sep r in
      if Ascii.eqb c sep then (EmptyString, hd :: tl)
      else (String c hd, tl)
  end.

Definition Split (s : string) (sep : ascii) : list string :=
  let '(hd, tl) := splitByte sep s in hd :: tl.

(** [strings.Contains] *)
Fixpoint Contains (s substr : string) : bool :=
  String.prefix substr s ||
  match s with
  | EmptyString => false
  | String _ r => Contains r substr
  end.

(** [strings.Cut] for a one-byte separator: the text before and after the
    first separator, if there is one. *)
Fixpoint Cut (s : string) (sep : ascii) : option (string * string) :=
  match s with
  | EmptyString => None
  | String c r =>
      if Ascii.eqb c sep then Some (EmptyString, r)
      else match Cut r sep with
           | Some (before, after) => Some (String c before, after)
           | None => None
           end
  end.

(** [strings.SplitN s sep 2] for a one-byte separator: at most two pieces,
    the second one unsplit. *)
Definition SplitN2 (s : string) (sep : ascii) : list string :=
  match Cut s sep with
  | Some (before, after) => [before; after]
  | None => [s]
  end.

End GoStrings.

(** [sort.Strings]: ascending in Go's [<] on strings, which is the bytewise
    lexicographic order [String.le].  Whatever algorithm the library runs,
    the ascending permutation of a list is unique ([sort_Strings_unique]
    below), so a merge sort stands for it. *)
Definition sort_Strings (l : list string) : list string :=
  merge_sort String.le l.

(** ** Data model *)

(** [type Config struct] *)
Record Config := {
  URL : string;
  Verbose : bool;
  Quiet : bool;
  Insecure : bool;
  FollowRedir : bool;
  SafeOnly : bool;
  Wordlist : string;
  Threads : Z;
  JSONFile : string;
  Proxy : string;
  Cookies : string;
  Headers : list string;
  InputFile : string;
  CookieJar : string;
  Timeout : Z   (* in seconds *)
}.

(** [type Result struct] *)
Record Result := {
  StatusCode : Z;
  Length : Z;
  Reason : string
}.

#[global] Instance Result_eq_dec : EqDecision Result.
Proof. solve_decision. Defined.

(** An [error] value is represented by its message. *)
Definition error := string.

(** [fmt.Errorf("<prefix>: %w", err)] *)
Definition Errorf_w (prefix : string) (err : error) : error :=
  String.app prefix (String.app ": " err).

(** [var DefaultMethods] *)
Definition DefaultMethods : list string :=
  [ "CHECKIN"; "CHECKOUT"; "CONNECT"; "COPY"; "DELETE"; "GET"; "HEAD"; "INDEX";
    "LINK"; "LOCK"; "MKCOL"; "MOVE"; "NOEXISTE"; "OPTIONS"; "ORDERPATCH";
    "PATCH"; "POST"; "PROPFIND"; "PROPPATCH"; "PUT"; "REPORT"; "SEARCH";
    "SHOWMETHOD"; "SPACEJUMP"; "TEXTSEARCH"; "TRACE"; "TRACK"; "UNCHECKOUT";
    "UNLINK"; "UNLOCK"; "VERSION-CONTROL"; "BAMBOOZLE" ].

(** [var DangerousMethods] *)
Definition DangerousMethods : gmap string bool :=
  <["DELETE" := true]> (<["COPY" := true]> (<["PUT" := true]>
    (<["PATCH" := true]> (<["UNCHECKOUT" := true]> ∅)))).

(** Indexing a [map[string]bool]: a missing key reads as [false]. *)
Definition index_bool (m : gmap string bool) (k : string) : bool :=
  default false (m !! k).

(** ** The logger ([Logger], [LogLevel]) and the effects of the engine *)

Inductive LogLevel :=
  LevelDebug | LevelInfo | LevelSuccess | LevelWarning | LevelError.

#[global] Instance LogLevel_eq_dec : EqDecision LogLevel.
Proof. solve_decision. Defined.

(** An argument handed to a format string ([args ...any]). *)
Inductive LogArg :=
| ArgInt (n : Z)
| ArgStr (s : string)
| ArgErr (e : error).

(** [type Logger struct] *)
Record Logger := {
  LoggerVerbose : bool;
  LoggerQuiet : bool
}.

(** [func (l *Logger) log]: whether a call at [level] reaches [fmt.Printf]. *)
Definition Logger_log (l : Logger) (level : LogLevel) : bool :=
  if bool_decide (level = LevelDebug) && negb (LoggerVerbose l) then false
  else if negb (bool_decide (level = LevelDebug)) && LoggerQuiet l then false
  else true.

(** [http.Header]: a name carries a list of values; [Get] reads the first. *)
Definition Header_Get (h : gmap string (list string)) (key : string) : string :=
  match h !! key with
  | Some (v :: _) => v
  | _ => ""
  end.

(** [http.Request] as far as the engine fills it in: the method, the URL,
    the headers it adds with [Header.Add] and the cookies it hands to
    [AddCookie] (which [net/http] folds into the [Cookie] header). *)
Record Request := {
  ReqMethod : string;
  ReqURL : string;
  ReqHeader : gmap string (list string);
  ReqCookies : list (string * string)
}.

(** [http.Response] as far as the engine reads it.  The body is the number
    of bytes the stream delivers and the error, if any, that ends it. *)
Record Response := {
  RespStatusCode : Z;
  RespStatus : string;
  RespHeader : gmap string (list string);
  RespBodyBytes : Z;
  RespBodyErr : option error
}.

(** [http.Client] as configured by [buildHTTPClient]; [ClientTimeout] is a
    [time.Duration], a signed 64-bit count of nanoseconds. *)
Record Client := {
  ClientTimeout : Z;
  InsecureSkipVerify : bool;
  ClientProxy : option string;
  UseLastResponse : bool
}.

(** What [os.Open] followed by a [bufio.Scanner] loop yields for a path. *)
Inductive FileRead :=
| OpenFails (err : error)
| Scanned (lines : list string) (scanErr : option error).

(** The collaborators outside the package.  [client_Do] is the outcome of
    one call of [client.Do]: the exchanges [net/http] makes inside the call
    (redirects it follows, requests it sends again) are not told apart, and
    the answer is a function of the request, so a target whose answers
    depend on what it was sent before is outside the model.
    [unicode_To_UpperCase] is [unicode.To(unicode.UpperCase, r)] for a rune
    above U+007F. *)
Record World := {
  os_Open : string → FileRead;
  url_Parse : string → option error;
  http_NewRequest : string → string → option error;
  client_Do : Client → Request → error + Response;
  os_WriteFile : string → gmap string Result → option error;
  unicode_To_UpperCase : N → N
}.

(** Observable effects, in program order. *)
Inductive Event :=
| EvLog (level : LogLevel) (format : string) (args : list LogArg)
| EvDo (client : Client) (req : Request)
| EvLock
| EvUnlock.

(** A writer over the events. *)
Definition Eff (A : Type) : Type := list Event * A.

Definition ret {A} (a : A) : Eff A := ([], a).

Definition bind {A B} (c : Eff A) (k : A → Eff B) : Eff B :=
  let '(t1, a) := c in
  let '(t2, b) := k a in
  (t1 ++ t2, b).

Definition emit (e : Event) : Eff unit := ([e], tt).

Notation "x <~ c ;; k" := (bind c (λ x, k))
  (at level 100, c at next level, right associativity).
Notation "c ;;; k" := (bind c (λ _, k))
  (at level 100, right associativity).

Definition trace {A} (c : Eff A) : list Event := c.1.
Definition value {A} (c : Eff A) : A := c.2.

Definition Debug (format : string) (args : list LogArg) : Eff unit :=
  emit (EvLog LevelDebug format args).
Definition Info (format : string) (args : list LogArg) : Eff unit :=
  emit (EvLog LevelInfo format args).
Definition Success (format : string) (args : list LogArg) : Eff unit :=
  emit (EvLog LevelSuccess format args).
Definition Warning (format : string) (args : list LogArg) : Eff unit :=
  emit (EvLog LevelWarning format args).

(** The lines a logger prints out of a trace. *)
Definition isPrinted (l : Logger) (e : Event) : bool :=
  match e with
  | EvLog level _ _ => Logger_log l level
  | _ => false
  end.

Definition printed (l : Logger) (t : list Event) : list Event :=
  filter (λ e, isPrinted l e = true) t.

(** The warnings asked of the logger, and the requests sent. *)
Definition isWarning (e : Event) : bool :=
  match e with
  | EvLog LevelWarning _ _ => true
  | _ => false
  end.

Definition warnings (t : list Event) : list Event :=
  filter (λ e, isWarning e = true) t.

Definition requests (t : list Event) : list Request :=
  omap (λ e, match e with EvDo _ r => Some r | _ => None end) t.

(** ** HTTP client factory *)

(** Two's-complement wrap-around of a 64-bit signed integer. *)
Definition wrap64 (z : Z) : Z := (z + 2 ^ 63) mod 2 ^ 64 - 2 ^ 63.

(** [time.Second] *)
Definition Second : Z := 1000000000.

(** [func buildHTTPClient] *)
Definition buildHTTPClient (w : World) (config : Config) : error + Client :=
  let timeout := 10 in
  let timeout := if 0 <? Timeout config then Timeout config else timeout in
  let client_timeout := wrap64 (timeout * Second) in
  if bool_decide (Proxy config ≠ "") then
    match url_Parse w (Proxy config) with
    | Some err => inl (Errorf_w "invalid proxy URL" err)
    | None =>
        inr {| ClientTimeout := client_timeout;
               InsecureSkipVerify := Insecure config;
               ClientProxy := Some (Proxy config);
               UseLastResponse := negb (FollowRedir config) |}
    end
  else
    inr {| ClientTimeout := client_timeout;
           InsecureSkipVerify := Insecure config;
           ClientProxy := None;
           UseLastResponse := negb (FollowRedir config) |}.

(** ** Method catalog *)

(** [func readLinesFromFile] *)
Definition readLinesFromFile (w : World) (filename : string)
  : list string * option error :=
  match os_Open w filename with
  | OpenFails err => ([], Some err)
  | Scanned scanned scanErr =>
      let lines :=
        fold_left (λ lines text,
                     let line := GoStrings.TrimSpace text in
                     if bool_decide (line ≠ "") && negb (GoStrings.HasPrefix line "#")
                     then lines ++ [line] else lines)
                  scanned [] in
      match scanErr with
      | Some err => ([], Some err)
      | None => (lines, None)
      end
  end.

(** [func getMethodsFromOptions] *)
Definition getMethodsFromOptions (w : World) (config : Config)
  : Eff (list string * option error) :=
  if bool_decide (URL config = "") then
    ret ([], Some "no URL provided for OPTIONS request")
  else
    match buildHTTPClient w config with
    | inl err => ret ([], Some err)
    | inr client =>
        match http_NewRequest w "OPTIONS" (URL config) with
        | Some err => ret ([], Some err)
        | None =>
            let req := {| ReqMethod := "OPTIONS"; ReqURL := URL config;
                          ReqHeader := ∅; ReqCookies := [] |} in
            Debug "Sending OPTIONS request with timeout of %d seconds"
                  [ArgInt (Timeout config)] ;;;
            emit (EvDo client req) ;;;
            match client_Do w client req with
            | inl err => ret ([], Some err)
            | inr resp =>
                let err : option error := None in
                if bool_decide (RespStatusCode resp ≠ 200) then
                  Debug "OPTIONS request returned status code %d"
                        [ArgInt (RespStatusCode resp)] ;;;
                  ret ([], err)
                else
                  let allow := Header_Get (RespHeader resp) "Allow" in
                  if bool_decide (allow = "") then
                    Debug "OPTIONS request did not return Allow header" [] ;;;
                    ret ([], err)
                  else
                    Info "Server supports the following methods: %s"
                         [ArgStr allow] ;;;
                    let methods :=
                      fold_left (λ methods method,
                                   methods ++ [GoStrings.TrimSpace method])
                                (GoStrings.Split allow ",") [] in
                    ret (methods, err)
            end
        end
    end.

(** The normalisation loop of [getMethods]: the methods kept so far and
    the [seen] map. *)
Definition normalizeStep (w : World) (st : list string * gmap string bool)
    (method : string) : list string * gmap string bool :=
  let '(normalizedMethods, seen) := st in
  let uppercase :=
    GoStrings.ToUpper (unicode_To_UpperCase w) (GoStrings.TrimSpace method) in
  if bool_decide (uppercase ≠ "") && negb (index_bool seen uppercase)
  then (normalizedMethods ++ [uppercase], <[uppercase := true]> seen)
  else (normalizedMethods, seen).

Definition normalizeMethods (w : World) (methods : list string) : list string :=
  (fold_left (normalizeStep w) methods ([], ∅)).1.

(** [func getMethods], lines 324-346: discovery, normalisation, sort. *)
Definition getMethods_discover (w : World) (config : Config)
    (methods : list string) : Eff (list string * option error) :=
  Debug "Sending OPTIONS request to discover supported methods" [] ;;;
  r <~ getMethodsFromOptions w config ;;
  let '(optionsMethods, err) := r in
  methods <~ match err with
             | Some err =>
                 Warning "Failed to get methods from OPTIONS request: %v"
                         [ArgErr err] ;;;
                 ret methods
             | None =>
                 if (0 <? length optionsMethods)%nat then
                   Info "Added %d methods from OPTIONS response"
                        [ArgInt (Z.of_nat (length optionsMethods))] ;;;
                   ret (methods ++ optionsMethods)
                 else ret methods
             end ;;
  let normalizedMethods := normalizeMethods w methods in
  ret (sort_Strings normalizedMethods, None).

(** [func getMethods] *)
Definition getMethods (w : World) (config : Config)
  : Eff (list string * option error) :=
  Debug "Using %d default HTTP methods"
        [ArgInt (Z.of_nat (length DefaultMethods))] ;;;
  let methods := DefaultMethods in
  if bool_decide (Wordlist config ≠ "") then
    match readLinesFromFile w (Wordlist config) with
    | (_, Some err) => ret ([], Some (Errorf_w "failed to read wordlist" err))
    | (wordlistMethods, None) =>
        Info "Added %d methods from wordlist: %s"
             [ArgInt (Z.of_nat (length wordlistMethods));
              ArgStr (Wordlist config)] ;;;
        getMethods_discover w config (methods ++ wordlistMethods)
    end
  else getMethods_discover w config methods.

(** ** Safe-mode filter (the [config.SafeOnly] block of [runSingleProbe]) *)

(** The loop that builds [safeMethods]. *)
Definition safeMethods (methods : list string) : list string :=
  fold_left (λ safeMethods method,
               if negb (index_bool DangerousMethods method)
               then safeMethods ++ [method] else safeMethods)
            methods [].

(** The whole block: the methods handed to the dispatch loop. *)
Definition filterMethods (config : Config) (methods : list string)
  : Eff (list string) :=
  if SafeOnly config then
    Info "Safe mode enabled, testing only non-dangerous methods" [] ;;;
    ret (safeMethods methods)
  else
    Warning "Testing includes potentially dangerous HTTP methods (PUT, DELETE, etc.)" [] ;;;
    Warning "Use --safe-only to exclude them" [] ;;;
    ret methods.

(** ** One probe: [testMethod] *)

(** [io.ReadAll(io.LimitReader(resp.Body, 1024*1024))]: the number of bytes
    obtained and the error [ReadAll] reports.  The limit reader answers EOF
    once the limit is reached, so an error of the stream shows only when it
    strikes before that. *)
Definition bodyLimit : Z := 1024 * 1024.

Definition readLimited (resp : Response) : Z * option error :=
  if RespBodyBytes resp <? bodyLimit
  then (RespBodyBytes resp, RespBodyErr resp)
  else (bodyLimit, None).

(** The request [testMethod] builds: the method, the target, every value
    of every header (a name without values adds nothing; the names are the
    canonical ones [parseHeaders] produced) and every cookie.  Go ranges
    over the cookie map in an unspecified order; [map_to_list] fixes one. *)
Definition buildRequest (targetURL method : string)
    (headers : gmap string (list string)) (cookies : gmap string string)
  : Request :=
  {| ReqMethod := method; ReqURL := targetURL;
     ReqHeader := filter (λ kv, kv.2 ≠ []) headers;
     ReqCookies := map_to_list cookies |}.

(** [func testMethod].  The mutex and the shared map are arguments of the Go
    function; here the map is threaded through and the lock operations are
    events. *)
Definition testMethod (w : World) (client : Client) (targetURL method : string)
    (headers : gmap string (list string)) (cookies : gmap string string)
    (results : gmap string Result) : Eff (gmap string Result) :=
  match http_NewRequest w method targetURL with
  | Some err =>
      Debug "Failed to create request for method %s: %v"
            [ArgStr method; ArgErr err] ;;;
      ret results
  | None =>
      let req := buildRequest targetURL method headers cookies in
      Debug "Testing method: %s" [ArgStr method] ;;;
      emit (EvDo client req) ;;;
      match client_Do w client req with
      | inl err =>
          Debug "Request failed for method %s: %v" [ArgStr method; ArgErr err] ;;;
          emit EvLock ;;;
          let results :=
            <[method := {| StatusCode := 0; Length := 0; Reason := err |}]> results in
          emit EvUnlock ;;;
          ret results
      | inr resp =>
          let '(body, err) := readLimited resp in
          match err with
          | Some err =>
              Debug "Failed to read response body for method %s: %v"
                    [ArgStr method; ArgErr err]
          | None => ret tt
          end ;;;
          emit EvLock ;;;
          let results :=
            <[method := {| StatusCode := RespStatusCode resp;
                           Length := body;
                           Reason := RespStatus resp |}]> results in
          emit EvUnlock ;;;
          ret results
      end
  end.

(** What one call of [testMethod] stores under its method: nothing when the
    request cannot be constructed. *)
Definition probeOutcome (w : World) (client : Client) (targetURL method : string)
    (headers : gmap string (list string)) (cookies : gmap string string)
  : option Result :=
  match http_NewRequest w method targetURL with
  | Some _ => None
  | None =>
      match client_Do w client (buildRequest targetURL method headers cookies) with
      | inl err => Some {| StatusCode := 0; Length := 0; Reason := err |}
      | inr resp =>
          Some {| StatusCode := RespStatusCode resp;
                  Length := (readLimited resp).1;
                  Reason := RespStatus resp |}
      end
  end.

(** ** After the dispatch: the tail of [runSingleProbe] *)

(** [func exportToJSON]: marshalling a [map[string]Result] cannot fail, the
    write can. *)
Definition exportToJSON (w : World) (filename : string)
    (results : gmap string Result) : option error :=
  os_WriteFile w filename results.

(** Lines 158-178 of [runSingleProbe]: sort the keys, print, export; the
    value is the error [runSingleProbe] returns. *)
Definition reportResults (w : World) (config : Config)
    (results : gmap string Result) : Eff (list string * option error) :=
  let sortedMethods := sort_Strings (elements (dom results)) in
  if bool_decide (JSONFile config ≠ "") then
    match exportToJSON w (JSONFile config) results with
    | Some err =>
        ret (sortedMethods, Some (Errorf_w "failed to export results to JSON" err))
    | None =>
        Success "Results exported to %s" [ArgStr (JSONFile config)] ;;;
        ret (sortedMethods, None)
    end
  else ret (sortedMethods, None).

(** ** The dispatch loop of [runSingleProbe] (lines 143-156)

    The main goroutine ranges over the methods; for each it increments the
    wait group and starts a goroutine that sends on the semaphore channel,
    runs [testMethod], receives from the channel (deferred) and calls
    [wg.Done] (deferred); then the main goroutine blocks in [wg.Wait].  The
    goroutines interleave: a state of the loop and the atomic actions of its
    goroutines are given below, one action per synchronisation or
    shared-memory operation. *)

Module Dispatch.

(** Where a worker goroutine stands. *)
Inductive Pc :=
| Spawned                 (* next: semaphore <- struct{}{} *)
| InFlight                (* in testMethod: NewRequest, client.Do, ReadAll *)
| WantLock (r : Result)   (* in testMethod: next mutex.Lock() *)
| Locked (r : Result)     (* in testMethod: next results[method] = r *)
| Stored                  (* in testMethod: next mutex.Unlock() *)
| Returned                (* testMethod returned; next: <-semaphore *)
| Released                (* next: wg.Done() *)
| Done.

Record Worker := {
  method : string;
  pc : Pc
}.

(** Where the main goroutine stands: in the [for] loop with these methods
    still to start (then in [wg.Wait]), or past [wg.Wait]. *)
Inductive MainPc :=
| Spawning (rest : list string)
| Joined.

Record State := {
  main : MainPc;
  wg : nat;                       (* counter of the sync.WaitGroup *)
  semaphore : nat;                (* elements buffered in the channel *)
  mutex : bool;                   (* resultsMutex is locked *)
  workers : list Worker;          (* the goroutines, in spawn order *)
  results : gmap string Result;   (* the shared map *)
  stores : list string            (* history: keys assigned, oldest first *)
}.

Inductive WorkerAction :=
  Acquire | Probe | Lock | Store | Unlock | Release | WgDone.

Inductive Action :=
| ASpawn                              (* wg.Add(1); go func(method) *)
| AWait                               (* wg.Wait() returns *)
| AHandOff (i j : nat)                (* unbuffered channel: i sends, j receives *)
| AWorker (i : nat) (a : WorkerAction).

(** [make(chan struct{}, config.Threads)] panics for a negative size. *)
Definition makeSemaphore (threads : Z) : option nat :=
  if threads <? 0 then None else Some (Z.to_nat threads).

Section Loop.

Variable w : World.
Variable client : Client.
Variable targetURL : string.
Variable headers : gmap string (list string).
Variable cookies : gmap string string.
Variable capacity : nat.          (* cap(semaphore) *)

Definition initial (methods : list string) : State :=
  {| main := Spawning methods; wg := 0; semaphore := 0; mutex := false;
     workers := []; results := ∅; stores := [] |}.

Definition moveTo (s : State) (i : nat) (wk : Worker) (pc' : Pc) : list Worker :=
  <[i := {| method := method wk; pc := pc' |}]> (workers s).

Definition workerStep (s : State) (i : nat) (wk : Worker) (a : WorkerAction)
  : option State :=
  match pc wk, a with
  | Spawned, Acquire =>
      (* a send on a buffered channel proceeds while the buffer has room *)
      if (semaphore s <? capacity)%nat then
        Some {| main := main s; wg := wg s; semaphore := S (semaphore s);
                mutex := mutex s; workers := moveTo s i wk InFlight;
                results := results s; stores := stores s |}
      else None
  | InFlight, Probe =>
      let pc' := match probeOutcome w client targetURL (method wk) headers cookies with
                 | None => Returned
                 | Some r => WantLock r
                 end in
      Some {| main := main s; wg := wg s; semaphore := semaphore s;
              mutex := mutex s; workers := moveTo s i wk pc';
              results := results s; stores := stores s |}
  | WantLock r, Lock =>
      if mutex s then None
      else Some {| main := main s; wg := wg s; semaphore := semaphore s;
                   mutex := true; workers := moveTo s i wk (Locked r);
                   results := results s; stores := stores s |}
  | Locked r, Store =>
      Some {| main := main s; wg := wg s; semaphore := semaphore s;
              mutex := mutex s; workers := moveTo s i wk Stored;
              results := <[method wk := r]> (results s);
              stores := stores s ++ [method wk] |}
  | Stored, Unlock =>
      Some {| main := main s; wg := wg s; semaphore := semaphore s;
              mutex := false; workers := moveTo s i wk Returned;
              results := results s; stores := stores s |}
  | Returned, Release =>
      (* a receive takes a buffered element *)
      match semaphore s with
      | O => None
      | S n =>
          Some {| main := main s; wg := wg s; semaphore := n;
                  mutex := mutex s; workers := moveTo s i wk Released;
                  results := results s; stores := stores s |}
      end
  | Released, WgDone =>
      (* wg.Done() panics on a counter that is already zero *)
      match wg s with
      | O => None
      | S n =>
          Some {| main := main s; wg := n; semaphore := semaphore s;
                  mutex := mutex s; workers := moveTo s i wk Done;
                  results := results s; stores := stores s |}
      end
  | _, _ => None
  end.

Definition step (s : State) (a : Action) : option State :=
  match a with
  | ASpawn =>
      match main s with
      | Spawning (m :: rest) =>
          Some {| main := Spawning rest; wg := S (wg s);
                  semaphore := semaphore s; mutex := mutex s;
                  workers := workers s ++ [{| method := m; pc := Spawned |}];
                  results := results s; stores := stores s |}
      | _ => None
      end
  | AWait =>
      match main s, wg s with
      | Spawning [], O =>
          Some {| main := Joined; wg := wg s; semaphore := semaphore s;
                  mutex := mutex s; workers := workers s;
                  results := results s; stores := stores s |}
      | _, _ => None
      end
  | AHandOff i j =>
      (* with no buffer, a send completes only together with a receive *)
      match capacity, workers s !! i, workers s !! j with
      | O, Some wi, Some wj =>
          match pc wi, pc wj with
          | Spawned, Returned =>
              Some {| main := main s; wg := wg s; semaphore := semaphore s;
                      mutex := mutex s;
                      workers := <[j := {| method := method wj; pc := Released |}]>
                                   (moveTo s i wi InFlight);
                      results := results s; stores := stores s |}
          | _, _ => None
          end
      | _, _, _ => None
      end
  | AWorker i a =>
      match workers s !! i with
      | Some wk => workerStep s i wk a
      | None => None
      end
  end.

(** Running a schedule. *)
Fixpoint run (s : State) (schedule : list Action) : option State :=
  match schedule with
  | [] => Some s
  | a :: schedule =>
      match step s a with
      | Some s' => run s' schedule
      | None => None
      end
  end.

Definition reachable (methods : list string) (s : State) : Prop :=
  ∃ schedule, run (initial methods) schedule = Some s.

(** Observations on a state. *)
Definition count (p : Pc → bool) (l : list Worker) : nat :=
  length (List.filter (λ wk, p (pc wk)) l).

(** A worker inside its call of [testMethod]. *)
Definition inTestMethod (p : Pc) : bool :=
  match p with
  | InFlight | WantLock _ | Locked _ | Stored => true
  | _ => false
  end.

(** A worker between its send and its receive on the channel. *)
Definition holdsSlot (p : Pc) : bool :=
  match p with
  | InFlight | WantLock _ | Locked _ | Stored | Returned => true
  | _ => false
  end.

Definition holdsMutex (p : Pc) : bool :=
  match p with
  | Locked _ | Stored => true
  | _ => false
  end.

Definition notDone (p : Pc) : bool :=
  match p with
  | Done => false
  | _ => true
  end.

Definition inFlight (s : State) : nat := count inTestMethod (workers s).

(** Whether [http.NewRequest] accepts the method against the target. *)
Definition constructs (m : string) : bool :=
  match http_NewRequest w m targetURL with
  | None => true
  | Some _ => false
  end.

End Loop.

End Dispatch.

(** ** Request customisation: [parseHeaders], [parseCookies]

    Two collaborators more: [os.Stat], and the canonical form [http.Header]
    gives a header name ([textproto.CanonicalMIMEHeaderKey]); and the
    interleaving the Go runtime picks for the goroutines of one probe, given
    the target and the methods. *)

Record Runtime := {
  os_Stat : string → option error;
  CanonicalMIMEHeaderKey : string → string;
  schedule : string → list string → list Dispatch.Action
}.

(** [http.Header.Add] *)
Definition Header_Add (rt : Runtime) (h : gmap string (list string))
    (key value : string) : gmap string (list string) :=
  let key := CanonicalMIMEHeaderKey rt key in
  <[key := default [] (h !! key) ++ [value]]> h.

(** [func addHeader] *)
Definition addHeader (rt : Runtime) (headers : gmap string (list string))
    (headerLine : string) : gmap string (list string) :=
  match GoStrings.SplitN2 headerLine ":" with
  | [name; value] =>
      Header_Add rt headers (GoStrings.TrimSpace name) (GoStrings.TrimSpace value)
  | _ => headers
  end.

(** The three ways [parseHeaders] takes one flag. *)
Definition addHeaderLines (rt : Runtime) (headers : gmap string (list string))
    (headerLines : list string) : gmap string (list string) :=
  fold_left (λ headers line,
               if bool_decide (line = "") || GoStrings.HasPrefix line "#"
               then headers else addHeader rt headers line)
            headerLines headers.

Definition addHeaderParts (rt : Runtime) (headers : gmap string (list string))
    (h : string) : gmap string (list string) :=
  fold_left (λ headers part, addHeader rt headers (GoStrings.TrimSpace part))
            (GoStrings.Split h ",") headers.

(** [func parseHeaders]: the loop over the flags, leaving at the first file
    that cannot be read. *)
Fixpoint parseHeaders_from (rt : Runtime) (w : World)
    (headers : gmap string (list string)) (headerFlags : list string)
  : gmap string (list string) * option error :=
  match headerFlags with
  | [] => (headers, None)
  | h :: headerFlags =>
      match os_Stat rt h with
      | None =>
          match readLinesFromFile w h with
          | (_, Some err) =>
              (∅, Some (Errorf_w "failed to read headers from file" err))
          | (headerLines, None) =>
              parseHeaders_from rt w (addHeaderLines rt headers headerLines) headerFlags
          end
      | Some _ =>
          if GoStrings.Contains h ","
          then parseHeaders_from rt w (addHeaderParts rt headers h) headerFlags
          else parseHeaders_from rt w (addHeader rt headers h) headerFlags
      end
  end.

Definition parseHeaders (rt : Runtime) (w : World) (headerFlags : list string)
  : gmap string (list string) * option error :=
  parseHeaders_from rt w ∅ headerFlags.

(** [func addCookie] *)
Definition addCookie (cookies : gmap string string) (cookiePair : string)
  : gmap string string :=
  match GoStrings.SplitN2 cookiePair "=" with
  | [name; value] =>
      <[GoStrings.TrimSpace name := GoStrings.TrimSpace value]> cookies
  | _ => cookies
  end.

(** [func parseCookies] *)
Definition parseCookies (rt : Runtime) (w : World) (cookieStr : string)
  : gmap string string * option error :=
  if bool_decide (cookieStr = "") then (∅, None)
  else
    match os_Stat rt cookieStr with
    | None =>
        match readLinesFromFile w cookieStr with
        | (_, Some err) =>
            (∅, Some (Errorf_w "failed to read cookies from file" err))
        | (cookieLines, None) =>
            (fold_left (λ cookies line,
                          if bool_decide (line = "") || GoStrings.HasPrefix line "#"
                          then cookies else addCookie cookies line)
                       cookieLines ∅, None)
        end
    | Some _ =>
        (fold_left (λ cookies part, addCookie cookies (GoStrings.TrimSpace part))
                   (GoStrings.Split cookieStr ";") ∅, None)
    end.

(** [func normalizeHeaderFlags] (package [app]) *)
Definition normalizeHeaderFlags (headers : list string) : list string :=
  fold_left (λ normalized h,
               if GoStrings.Contains h "," then
                 fold_left (λ normalized part,
                              let trimmed := GoStrings.TrimSpace part in
                              if bool_decide (trimmed ≠ "")
                              then normalized ++ [trimmed] else normalized)
                           (GoStrings.Split h ",") normalized
               else normalized ++ [h])
            headers [].

(** ** The whole probe: [runSingleProbe] and [Run] *)

(** How a call ends: it returns its error value, it panics, or it has not
    returned under the schedule at hand (the main goroutine is still in the
    loop or in [wg.Wait], or the schedule asks for an action that is not
    enabled). *)
Inductive Outcome :=
| Returns (err : option error)
| Panics
| Blocked.

Definition LoggerError (format : string) (args : list LogArg) : Eff unit :=
  emit (EvLog LevelError format args).

(** [configCopy.URL = targetURL] *)
Definition withURL (config : Config) (url : string) : Config :=
  {| URL := url; Verbose := Verbose config; Quiet := Quiet config;
     Insecure := Insecure config; FollowRedir := FollowRedir config;
     SafeOnly := SafeOnly config; Wordlist := Wordlist config;
     Threads := Threads config; JSONFile := JSONFile config;
     Proxy := Proxy config; Cookies := Cookies config;
     Headers := Headers config; InputFile := InputFile config;
     CookieJar := CookieJar config; Timeout := Timeout config |}.

(** The URL lines 96-100 of [runSingleProbe] leave in the configuration: a
    target without a scheme gets [https://]. *)
Definition ensureScheme (url : string) : string :=
  if bool_decide (url ≠ "") && negb (GoStrings.Contains url "://")
  then String.app "https://" url else url.

(** Lines 96-100 of [runSingleProbe], with the debug line. *)
Definition withScheme (config : Config) : Eff Config :=
  if bool_decide (URL config ≠ "") && negb (GoStrings.Contains (URL config) "://")
  then
    let config := withURL config (String.app "https://" (URL config)) in
    Debug "Added https:// prefix to URL: %s" [ArgStr (URL config)] ;;;
    ret config
  else ret config.

(** What lines 96-140 of [runSingleProbe] prepare for the dispatch loop. *)
Record Probe := {
  probeConfig : Config;
  probeClient : Client;
  probeHeaders : gmap string (list string);
  probeCookies : gmap string string;
  probeMethods : list string
}.

(** Lines 96-140 of [runSingleProbe]: the scheme, the client, the headers,
    the cookies, the catalog and the safe-mode filter; the error is the one
    [runSingleProbe] returns. *)
Definition probeSetup (rt : Runtime) (w : World) (config : Config)
  : Eff (error + Probe) :=
  config <~ withScheme config ;;
  match buildHTTPClient w config with
  | inl err => ret (inl (Errorf_w "failed to build HTTP client" err))
  | inr client =>
      match parseHeaders rt w (Headers config) with
      | (_, Some err) => ret (inl (Errorf_w "failed to parse headers" err))
      | (headers, None) =>
          match parseCookies rt w (Cookies config) with
          | (_, Some err) => ret (inl (Errorf_w "failed to parse cookies" err))
          | (cookies, None) =>
              r <~ getMethods w config ;;
              match r with
              | (_, Some err) => ret (inl (Errorf_w "failed to get methods" err))
              | (methods, None) =>
                  methods <~ filterMethods config methods ;;
                  ret (inr {| probeConfig := config; probeClient := client;
                              probeHeaders := headers; probeCookies := cookies;
                              probeMethods := methods |})
              end
          end
      end
  end.

(** Lines 142-178 of [runSingleProbe]: the channel, the goroutines under
    the interleaving the runtime picks, [wg.Wait], and the report. *)
Definition probeDispatch (rt : Runtime) (w : World) (p : Probe) : Eff Outcome :=
  let config := probeConfig p in
  match Dispatch.makeSemaphore (Threads config) with
  | None => ret Panics
  | Some capacity =>
      match Dispatch.run w (probeClient p) (URL config) (probeHeaders p)
              (probeCookies p) capacity (Dispatch.initial (probeMethods p))
              (schedule rt (URL config) (probeMethods p)) with
      | Some s =>
          match Dispatch.main s with
          | Dispatch.Joined =>
              r <~ reportResults w config (Dispatch.results s) ;;
              ret (Returns r.2)
          | Dispatch.Spawning _ => ret Blocked
          end
      | None => ret Blocked
      end
  end.

(** [func runSingleProbe].  The trace holds the events of the main
    goroutine; the debug lines of the workers and the table [printResults]
    writes are not part of it. *)
Definition runSingleProbe (rt : Runtime) (w : World) (config : Config)
  : Eff Outcome :=
  r <~ probeSetup rt w config ;;
  match r with
  | inl err => ret (Returns (Some err))
  | inr p => probeDispatch rt w p
  end.

(** [func Run], the loop over the URLs of the input file: an error of one
    probe is logged and the loop goes on. *)
Fixpoint Run_urls (rt : Runtime) (w : World) (config : Config)
    (urls : list string) : Eff Outcome :=
  match urls with
  | [] => ret (Returns None)
  | targetURL :: urls =>
      if bool_decide (targetURL ≠ "") then
        Info "Testing URL: %s" [ArgStr targetURL] ;;;
        let configCopy := withURL config targetURL in
        r <~ runSingleProbe rt w configCopy ;;
        match r with
        | Returns (Some err) =>
            LoggerError "Error processing %s: %v" [ArgStr targetURL; ArgErr err] ;;;
            Run_urls rt w config urls
        | Returns None => Run_urls rt w config urls
        | Panics => ret Panics
        | Blocked => ret Blocked
        end
      else Run_urls rt w config urls
  end.

(** [func Run] *)
Definition Run (rt : Runtime) (w : World) (config : Config) : Eff Outcome :=
  Info "Starting HTTP verb enumerating and tampering" [] ;;;
  if bool_decide (InputFile config ≠ "") then
    match readLinesFromFile w (InputFile config) with
    | (_, Some err) =>
        ret (Returns (Some (Errorf_w "failed to read URLs from file" err)))
    | (urls, None) => Run_urls rt w config urls
    end
  else runSingleProbe rt w config.

(** ** Auxiliary notions used in the statements *)

(** White space at the two ends of a byte string, as [TrimSpace] sees it:
    the first rune decoded forwards, the last one decoded backwards. *)
Definition leadSpace (s : list ascii) : bool :=
  GoStrings.IsSpace (GoStrings.DecodeRuneInString s).1.

Definition trailSpace (s : list ascii) : bool :=
  GoStrings.IsSpace (GoStrings.DecodeLastRuneInString s).1.

Definition trimmed (s : list ascii) : Prop :=
  leadSpace s = false ∧ trailSpace s = false.

(** Where [TrimRightFunc] cuts, given the start of the last rune kept. *)
Definition endOf (s : list ascii) (i : nat) : nat :=
  match s !! i with
  | Some c =>
      if (GoStrings.RuneSelf <=? GoStrings.byte c)%N
      then (i + (GoStrings.DecodeRuneInString (drop i s)).2)%nat
      else (i + 1)%nat
  | None => (i + 1)%nat
  end.

(** The byte at position [i], if there is one, does not continue a rune. *)
Definition boundary (s : list ascii) (i : nat) : Prop :=
  ∀ d, s !! i = Some d → GoStrings.isCont (GoStrings.byte d) = false.

(** The normal form of a candidate. *)
Definition normalized (w : World) (method : string) : string :=
  GoStrings.ToUpper (unicode_To_UpperCase w) (GoStrings.TrimSpace method).

(** What the loop maintains: [seen] is exactly the set of kept methods, no
    method is kept twice and the empty string is never kept. *)
Record normalizeInv (st : list string * gmap string bool) : Prop := {
  inv_seen : ∀ u, index_bool st.2 u = true ↔ u ∈ st.1;
  inv_nodup : NoDup st.1;
  inv_nonempty : "" ∉ st.1
}.

(** The wordlist loop of [readLinesFromFile] as a filter. *)
Definition keptLine (text : string) : bool :=
  bool_decide (GoStrings.TrimSpace text ≠ "")
  && negb (GoStrings.HasPrefix (GoStrings.TrimSpace text) "#").

(** The lines of the configured wordlist and the tokens discovery adds. *)
Definition wordlistMethods (w : World) (config : Config) : list string :=
  if bool_decide (Wordlist config ≠ "")
  then (readLinesFromFile w (Wordlist config)).1 else [].

Definition discoveredMethods (w : World) (config : Config) : list string :=
  let r := value (getMethodsFromOptions w config) in
  match r.2 with
  | Some _ => []
  | None => r.1
  end.

Definition wordlistError (w : World) (config : Config) : option error :=
  if bool_decide (Wordlist config ≠ "")
  then (readLinesFromFile w (Wordlist config)).2 else None.

(** The request [getMethodsFromOptions] sends. *)
Definition optionsRequest (config : Config) : Request :=
  {| ReqMethod := "OPTIONS"; ReqURL := URL config;
     ReqHeader := ∅; ReqCookies := [] |}.

(** How the discovery step can end, read off the collaborators. *)
Inductive Discovery :=
| NoURL                          (* the target URL is empty *)
| ClientError (err : error)      (* buildHTTPClient fails *)
| RequestError (err : error)     (* http.NewRequest fails *)
| TransportError (err : error)   (* client.Do fails *)
| NotOK (status : Z)             (* a response with a status other than 200 *)
| NoAllow                        (* status 200, Allow absent or empty *)
| Allowed (allow : string).      (* status 200 with an Allow value *)

Definition discovery (w : World) (config : Config) : Discovery :=
  if bool_decide (URL config = "") then NoURL
  else match buildHTTPClient w config with
       | inl err => ClientError err
       | inr client =>
           match http_NewRequest w "OPTIONS" (URL config) with
           | Some err => RequestError err
           | None =>
               match client_Do w client (optionsRequest config) with
               | inl err => TransportError err
               | inr resp =>
                   if bool_decide (RespStatusCode resp = 200) then
                     if bool_decide (Header_Get (RespHeader resp) "Allow" = "")
                     then NoAllow
                     else Allowed (Header_Get (RespHeader resp) "Allow")
                   else NotOK (RespStatusCode resp)
               end
           end
       end.

(** The error, the tokens and the warning each ending stands for. *)
Definition discoveryError (d : Discovery) : option error :=
  match d with
  | NoURL => Some "no URL provided for OPTIONS request"
  | ClientError err | RequestError err | TransportError err => Some err
  | NotOK _ | NoAllow | Allowed _ => None
  end.

Definition discoveryTokens (d : Discovery) : list string :=
  match d with
  | Allowed allow => GoStrings.TrimSpace <$> GoStrings.Split allow ","
  | _ => []
  end.

Definition discoveryWarning (d : Discovery) : list Event :=
  match discoveryError d with
  | Some err =>
      [EvLog LevelWarning "Failed to get methods from OPTIONS request: %v"
             [ArgErr err]]
  | None => []
  end.

(** The calls made to the logger, at whatever level. *)
Definition isLog (e : Event) : bool :=
  match e with
  | EvLog _ _ _ => true
  | _ => false
  end.

Definition logged (t : list Event) : list Event :=
  filter (λ e, isLog e = true) t.

(** What [getMethods] logs before the discovery: the size of the built-in
    list and, with a wordlist, the number of its lines. *)
Definition catalogLog (w : World) (config : Config) : list Event :=
  EvLog LevelDebug "Using %d default HTTP methods"
        [ArgInt (Z.of_nat (length DefaultMethods))] ::
  if bool_decide (Wordlist config ≠ "")
  then [EvLog LevelInfo "Added %d methods from wordlist: %s"
              [ArgInt (Z.of_nat (length (wordlistMethods w config)));
               ArgStr (Wordlist config)]]
  else [].

(** What the discovery logs: the announcement in [getMethods], the line
    before [client.Do] once the request exists, and the line for the way it
    ended; the warning of [getMethods] is [discoveryWarning]. *)
Definition discoveryLog (config : Config) (d : Discovery) : list Event :=
  let timeout :=
    EvLog LevelDebug "Sending OPTIONS request with timeout of %d seconds"
          [ArgInt (Timeout config)] in
  EvLog LevelDebug "Sending OPTIONS request to discover supported methods" [] ::
  match d with
  | NoURL | ClientError _ | RequestError _ => []
  | TransportError _ => [timeout]
  | NotOK status =>
      [timeout;
       EvLog LevelDebug "OPTIONS request returned status code %d" [ArgInt status]]
  | NoAllow =>
      [timeout;
       EvLog LevelDebug "OPTIONS request did not return Allow header" []]
  | Allowed allow =>
      [timeout;
       EvLog LevelInfo "Server supports the following methods: %s" [ArgStr allow]]
  end.

(** The catalog built from a list of candidates. *)
Definition catalogOf (w : World) (methods : list string) : list string :=
  sort_Strings (normalizeMethods w methods).

(** The five methods [DangerousMethods] lists. *)
Definition dangerous : list string :=
  ["DELETE"; "COPY"; "PUT"; "PATCH"; "UNCHECKOUT"].

(** How often a method occurs in a list. *)
Definition occurrences (m : string) (l : list string) : nat :=
  length (List.filter (λ x, bool_decide (x = m)) l).

(** ** Invariants of the dispatch loop *)

Module DispatchInv.
Import Dispatch.

Section Inv.

Variable w : World.
Variable client : Client.
Variable targetURL : string.
Variable headers : gmap string (list string).
Variable cookies : gmap string string.
Variable capacity : nat.
Variable methods : list string.   (* the list the loop ranges over *)

(** What the probe of a method stores. *)
Definition outcome (m : string) : option Result :=
  probeOutcome w client targetURL m headers cookies.

(** A worker past the assignment to the shared map. *)
Definition afterStore (p : Pc) : bool :=
  match p with
  | Stored | Returned | Released | Done => true
  | _ => false
  end.

Definition hasStored (wk : Worker) : bool :=
  afterStore (pc wk) && constructs w targetURL (method wk).

(** The result a worker carries is the outcome of its own method. *)
Definition pcConsistent (wk : Worker) : Prop :=
  match pc wk with
  | WantLock r | Locked r => outcome (method wk) = Some r
  | Stored => constructs w targetURL (method wk) = true
  | _ => True
  end.

Record Inv (s : State) : Prop := {
  inv_sem : semaphore s = count holdsSlot (workers s);
  inv_cap : (semaphore s ≤ capacity)%nat;
  inv_wg : wg s = count notDone (workers s);
  inv_mutex : (if mutex s then 1%nat else 0%nat) = count holdsMutex (workers s);
  inv_main :
    match main s with
    | Spawning rest => (method <$> workers s) ++ rest = methods
    | Joined => method <$> workers s = methods ∧
                Forall (λ wk, pc wk = Done) (workers s)
    end;
  inv_pc : Forall pcConsistent (workers s);
  inv_stores : stores s ≡ₚ method <$> List.filter hasStored (workers s);
  inv_results :
    ∀ m, results s !! m = if bool_decide (m ∈ stores s) then outcome m else None
}.

(** The schedule that lets one goroutine after the other run to its
    end: worker [i] with the given method, then the rest. *)
Definition workerSchedule (i : nat) (m : string) : list Action :=
  [ASpawn; AWorker i Acquire; AWorker i Probe] ++
  (if constructs w targetURL m
   then [AWorker i Lock; AWorker i Store; AWorker i Unlock] else []) ++
  [AWorker i Release; AWorker i WgDone].

Fixpoint sequentialFrom (i : nat) (ms : list string) : list Action :=
  match ms with
  | [] => [AWait]
  | m :: ms => workerSchedule i m ++ sequentialFrom (S i) ms
  end.

Definition sequential (ms : list string) : list Action := sequentialFrom 0 ms.

End Inv.

End DispatchInv.

(** ** Further notions used in the statements *)

(** The map a single goroutine would build by calling [testMethod] for one
    method after the other. *)
Definition sequentialResults (w : World) (client : Client) (targetURL : string)
    (headers : gmap string (list string)) (cookies : gmap string string)
    (methods : list string) : gmap string Result :=
  fold_left (λ results method,
               value (testMethod w client targetURL method headers cookies results))
            methods ∅.

(** The number of atomic actions a worker still has before it. *)
Definition rank (p : Dispatch.Pc) : nat :=
  match p with
  | Dispatch.Spawned => 7
  | Dispatch.InFlight => 6
  | Dispatch.WantLock _ => 5
  | Dispatch.Locked _ => 4
  | Dispatch.Stored => 3
  | Dispatch.Returned => 2
  | Dispatch.Released => 1
  | Dispatch.Done => 0
  end.

(** A bound on the actions the whole loop still has before it. *)
Definition potential (s : Dispatch.State) : nat :=
  match Dispatch.main s with
  | Dispatch.Spawning rest => 1 + 8 * length rest
  | Dispatch.Joined => 0
  end + sum_list_with (λ wk, rank (Dispatch.pc wk)) (Dispatch.workers s).

(** A worker that can move whatever the others do. *)
Definition ready (p : Dispatch.Pc) : bool :=
  match p with
  | Dispatch.InFlight | Dispatch.Locked _ | Dispatch.Stored
  | Dispatch.Returned | Dispatch.Released => true
  | _ => false
  end.

Definition wantsLock (p : Dispatch.Pc) : bool :=
  match p with
  | Dispatch.WantLock _ => true
  | _ => false
  end.

(** Whether a byte occurs in a string. *)
Fixpoint occurs (c : ascii) (s : string) : bool :=
  match s with
  | EmptyString => false
  | String a r => Ascii.eqb a c || occurs c r
  end.

(** A string all of whose bytes are below 0x80. *)
Definition isASCIIString (s : string) : bool :=
  GoStrings.isASCII (GoStrings.bytes s).

(** A line as [readLinesFromFile] returns it: trimmed, not empty, not a
    comment. *)
Definition cleanLine (line : string) : Prop :=
  GoStrings.TrimSpace line = line ∧ line ≠ "" ∧
  GoStrings.HasPrefix line "#" = false.

(** Whether discovery gets as far as sending its request. *)
Definition discoverySends (d : Discovery) : bool :=
  match d with
  | NoURL | ClientError _ | RequestError _ => false
  | _ => true
  end.

(** What [normalizeHeaderFlags] makes of one flag. *)
Definition headerPieces (h : string) : list string :=
  if GoStrings.Contains h ","
  then List.filter (λ p, bool_decide (p ≠ ""))
                   (GoStrings.TrimSpace <$> GoStrings.Split h ",")
  else [h].

(** What [parseHeaders] does with a flag that is not a file. *)
Definition addHeaderFlag (rt : Runtime) (headers : gmap string (list string))
    (h : string) : gmap string (list string) :=
  if GoStrings.Contains h "," then addHeaderParts rt headers h
  else addHeader rt headers h.

(** A header map as [parseHeaders] builds it: no name without a value, and
    every value trimmed. *)
Definition headersClean (headers : gmap string (list string)) : Prop :=
  ∀ name values, headers !! name = Some values →
    values ≠ [] ∧ Forall (λ v, GoStrings.TrimSpace v = v) values.

(** The cookie string for a list of pairs, in the format [parseCookies]
    documents: [name1=value1; name2=value2]. *)
Fixpoint renderCookies (pairs : list (string * string)) : string :=
  match pairs with
  | [] => EmptyString
  | p :: pairs =>
      String.app p.1
        (String "=" (String.app p.2
           match pairs with
           | [] => EmptyString
           | _ :: _ => String ";" (String " " (renderCookies pairs))
           end))
  end.

(** A pair that survives rendering: ASCII, trimmed, no [;] in either part
    and no [=] in the name. *)
Definition cleanCookie (p : string * string) : Prop :=
  isASCIIString p.1 = true ∧ isASCIIString p.2 = true ∧
  GoStrings.TrimSpace p.1 = p.1 ∧ GoStrings.TrimSpace p.2 = p.2 ∧
  occurs "=" p.1 = false ∧ occurs ";" p.1 = false ∧ occurs ";" p.2 = false.


(** A cookie map as [parseCookies] builds it: names and values trimmed, no
    [=] in a name. *)
Definition cookiesClean (cookies : gmap string string) : Prop :=
  ∀ name value, cookies !! name = Some value →
    GoStrings.TrimSpace name = name ∧ GoStrings.TrimSpace value = value ∧
    occurs "=" name = false.

(** The configuration [runSingleProbe] works with from line 101 on. *)
Definition schemed (config : Config) : Config :=
  withURL config (ensureScheme (URL config)).

(** The ways the setup of [runSingleProbe] (lines 102-124) can fail: the
    proxy URL is rejected, a header file or the cookie file cannot be read,
    the wordlist cannot be read. *)
Definition setupFails (rt : Runtime) (w : World) (config : Config) : Prop :=
  (∃ err, buildHTTPClient w config = inl err) ∨
  (parseHeaders rt w (Headers config)).2 ≠ None ∨
  (parseCookies rt w (Cookies config)).2 ≠ None ∨
  wordlistError w config ≠ None.

(** The error [runSingleProbe] returns from its setup: that of the first
    step that fails, wrapped with the name of the step. *)
Definition setupError (rt : Runtime) (w : World) (config : Config)
  : option error :=
  match buildHTTPClient w config with
  | inl err => Some (Errorf_w "failed to build HTTP client" err)
  | inr _ =>
      match (parseHeaders rt w (Headers config)).2 with
      | Some err => Some (Errorf_w "failed to parse headers" err)
      | None =>
          match (parseCookies rt w (Cookies config)).2 with
          | Some err => Some (Errorf_w "failed to parse cookies" err)
          | None =>
              match wordlistError w config with
              | Some err =>
                  Some (Errorf_w "failed to get methods"
                          (Errorf_w "failed to read wordlist" err))
              | None => None
              end
          end
      end
  end.
(** ** Concrete collaborators used to run the definitions *)

Module Examples.

(** A target that answers 200 to GET, POST, OPTIONS and HEAD and 405 to
    everything else, announcing the four in [Allow]; one wordlist file. *)
Definition allowed : list string := ["GET"; "POST"; "OPTIONS"; "HEAD"].

Definition respond (req : Request) : Response :=
  if bool_decide (ReqMethod req ∈ allowed) then
    {| RespStatusCode := 200; RespStatus := "200 OK";
       RespHeader := if bool_decide (ReqMethod req = "OPTIONS")
                     then {[ "Allow" := ["GET, POST, OPTIONS, HEAD"] ]} else ∅;
       RespBodyBytes := 18; RespBodyErr := None |}
  else
    {| RespStatusCode := 405; RespStatus := "405 Method Not Allowed";
       RespHeader := ∅; RespBodyBytes := 22; RespBodyErr := None |}.

(** A case table for the examples: the Latin-1 letters as Go's tables have
    them; every other rune is left alone. *)
Definition latin1Upper (r : N) : N :=
  if ((0xE0 <=? r) && (r <=? 0xFE) && negb (r =? 0xF7))%N then (r - 0x20)%N
  else if (r =? 0xFF)%N then 0x178%N
  else if (r =? 0xB5)%N then 0x39C%N
  else r.

Definition wordlistFile : FileRead :=
  Scanned ["GET"; "POST"; "CUSTOM"; "# This is a comment"; "  another "] None.

Definition mockServer : World :=
  {| os_Open := λ path, if bool_decide (path = "methods.txt") then wordlistFile
                        else OpenFails "open: no such file or directory";
     url_Parse := λ _, None;
     http_NewRequest := λ method _,
       if bool_decide (method = "BAD METHOD")
       then Some "net/http: invalid method" else None;
     client_Do := λ _ req, inr (respond req);
     os_WriteFile := λ _ _, None;
     unicode_To_UpperCase := latin1Upper |}.

(** The same files, but nothing listens at the target. *)
Definition unreachable : World :=
  {| os_Open := os_Open mockServer;
     url_Parse := λ _, None;
     http_NewRequest := http_NewRequest mockServer;
     client_Do := λ _ _, inl "dial tcp: connection refused";
     os_WriteFile := λ _ _, None;
     unicode_To_UpperCase := latin1Upper |}.

(** A target that answers OPTIONS with 404. *)
Definition notFound : World :=
  {| os_Open := os_Open mockServer;
     url_Parse := λ _, None;
     http_NewRequest := http_NewRequest mockServer;
     client_Do := λ _ _, inr {| RespStatusCode := 404; RespStatus := "404 Not Found";
                                RespHeader := ∅; RespBodyBytes := 0;
                                RespBodyErr := None |};
     os_WriteFile := λ _ _, None;
     unicode_To_UpperCase := latin1Upper |}.

(** A target that answers 200 to everything without an [Allow] header. *)
Definition noAllow : World :=
  {| os_Open := os_Open mockServer;
     url_Parse := λ _, None;
     http_NewRequest := http_NewRequest mockServer;
     client_Do := λ _ _, inr {| RespStatusCode := 200; RespStatus := "200 OK";
                                RespHeader := ∅; RespBodyBytes := 0;
                                RespBodyErr := None |};
     os_WriteFile := λ _ _, None;
     unicode_To_UpperCase := latin1Upper |}.

Definition config : Config :=
  {| URL := "http://127.0.0.1:8080"; Verbose := false; Quiet := false;
     Insecure := false; FollowRedir := true; SafeOnly := false;
     Wordlist := ""; Threads := 2; JSONFile := ""; Proxy := "";
     Cookies := ""; Headers := []; InputFile := ""; CookieJar := "";
     Timeout := 10 |}.

Definition withWordlist (c : Config) (path : string) : Config :=
  {| URL := URL c; Verbose := Verbose c; Quiet := Quiet c;
     Insecure := Insecure c; FollowRedir := FollowRedir c;
     SafeOnly := SafeOnly c; Wordlist := path; Threads := Threads c;
     JSONFile := JSONFile c; Proxy := Proxy c; Cookies := Cookies c;
     Headers := Headers c; InputFile := InputFile c;
     CookieJar := CookieJar c; Timeout := Timeout c |}.

Definition withTimeout (c : Config) (t : Z) : Config :=
  {| URL := URL c; Verbose := Verbose c; Quiet := Quiet c;
     Insecure := Insecure c; FollowRedir := FollowRedir c;
     SafeOnly := SafeOnly c; Wordlist := Wordlist c; Threads := Threads c;
     JSONFile := JSONFile c; Proxy := Proxy c; Cookies := Cookies c;
     Headers := Headers c; InputFile := InputFile c;
     CookieJar := CookieJar c; Timeout := t |}.

Definition withSafeOnly (c : Config) (b : bool) : Config :=
  {| URL := URL c; Verbose := Verbose c; Quiet := Quiet c;
     Insecure := Insecure c; FollowRedir := FollowRedir c;
     SafeOnly := b; Wordlist := Wordlist c; Threads := Threads c;
     JSONFile := JSONFile c; Proxy := Proxy c; Cookies := Cookies c;
     Headers := Headers c; InputFile := InputFile c;
     CookieJar := CookieJar c; Timeout := Timeout c |}.

Definition target : string := "http://127.0.0.1:8080".

Definition client : Client :=
  {| ClientTimeout := 10 * Second; InsecureSkipVerify := false;
     ClientProxy := None; UseLastResponse := false |}.

(** A schedule for three methods and two slots in which the first two
    probes overlap and the third waits for a slot. *)
Definition interleaved : list Dispatch.Action :=
  let W := Dispatch.AWorker in
  [ Dispatch.ASpawn; Dispatch.ASpawn;
    W 0%nat Dispatch.Acquire; W 1%nat Dispatch.Acquire; Dispatch.ASpawn;
    W 1%nat Dispatch.Probe; W 0%nat Dispatch.Probe;
    W 1%nat Dispatch.Lock; W 1%nat Dispatch.Store; W 1%nat Dispatch.Unlock;
    W 0%nat Dispatch.Lock; W 0%nat Dispatch.Store; W 0%nat Dispatch.Unlock;
    W 0%nat Dispatch.Release;
    W 2%nat Dispatch.Acquire; W 2%nat Dispatch.Probe;
    W 2%nat Dispatch.Lock; W 2%nat Dispatch.Store; W 2%nat Dispatch.Unlock;
    W 1%nat Dispatch.Release; W 2%nat Dispatch.Release;
    W 0%nat Dispatch.WgDone; W 1%nat Dispatch.WgDone; W 2%nat Dispatch.WgDone;
    Dispatch.AWait ].

End Examples.

(** ** More collaborators *)

Module MoreExamples.

(** No path names a file; header names are taken as they are; goroutines
    run one after the other. *)
Definition noFiles : Runtime :=
  {| os_Stat := λ _, Some "stat: no such file or directory";
     CanonicalMIMEHeaderKey := λ name, name;
     schedule := λ url methods,
       DispatchInv.sequential Examples.mockServer url methods |}.

(** The same, but the path [methods.txt] exists. *)
Definition oneFile : Runtime :=
  {| os_Stat := λ path, if bool_decide (path = "methods.txt") then None
                        else Some "stat: no such file or directory";
     CanonicalMIMEHeaderKey := λ name, name;
     schedule := λ url methods,
       DispatchInv.sequential Examples.mockServer url methods |}.

(** As [noFiles], but every goroutine is started before the first one
    runs. *)
Definition spawnFirst : Runtime :=
  {| os_Stat := os_Stat noFiles;
     CanonicalMIMEHeaderKey := CanonicalMIMEHeaderKey noFiles;
     schedule := λ url methods,
       replicate (length methods) Dispatch.ASpawn ++
       mjoin (imap (λ i m, drop 1 (DispatchInv.workerSchedule
                                     Examples.mockServer url i m)) methods) ++
       [Dispatch.AWait] |}.

Definition withThreads (c : Config) (n : Z) : Config :=
  {| URL := URL c; Verbose := Verbose c; Quiet := Quiet c;
     Insecure := Insecure c; FollowRedir := FollowRedir c;
     SafeOnly := SafeOnly c; Wordlist := Wordlist c; Threads := n;
     JSONFile := JSONFile c; Proxy := Proxy c; Cookies := Cookies c;
     Headers := Headers c; InputFile := InputFile c;
     CookieJar := CookieJar c; Timeout := Timeout c |}.

Definition withInputFile (c : Config) (path : string) : Config :=
  {| URL := URL c; Verbose := Verbose c; Quiet := Quiet c;
     Insecure := Insecure c; FollowRedir := FollowRedir c;
     SafeOnly := SafeOnly c; Wordlist := Wordlist c; Threads := Threads c;
     JSONFile := JSONFile c; Proxy := Proxy c; Cookies := Cookies c;
     Headers := Headers c; InputFile := path;
     CookieJar := CookieJar c; Timeout := Timeout c |}.

Definition withProxy (c : Config) (proxy : string) : Config :=
  {| URL := URL c; Verbose := Verbose c; Quiet := Quiet c;
     Insecure := Insecure c; FollowRedir := FollowRedir c;
     SafeOnly := SafeOnly c; Wordlist := Wordlist c; Threads := Threads c;
     JSONFile := JSONFile c; Proxy := proxy; Cookies := Cookies c;
     Headers := Headers c; InputFile := InputFile c;
     CookieJar := CookieJar c; Timeout := Timeout c |}.

(** A world whose URL parser rejects a URL that begins with a colon, as
    [url.Parse] does (missing protocol scheme). *)
Definition badProxy : World :=
  {| os_Open := os_Open Examples.mockServer;
     url_Parse := λ u, if GoStrings.HasPrefix u ":"
                       then Some "parse: missing protocol scheme" else None;
     http_NewRequest := http_NewRequest Examples.mockServer;
     client_Do := client_Do Examples.mockServer;
     os_WriteFile := λ _ _, None;
     unicode_To_UpperCase := unicode_To_UpperCase Examples.mockServer |}.

(** Byte strings given by their bytes. *)
Definition ofCodes (codes : list N) : string :=
  GoStrings.ofBytes (ascii_of_N <$> codes).

(** A wordlist with white space and letters outside ASCII: a comment behind
    a no-break space, a line that is one next-line character (U+0085), the
    word [GET] between ideographic spaces (U+3000), and [café] behind a
    no-break space. *)
Definition unicodeLines : list string :=
  [ ofCodes [0xC2; 0xA0; 0x23; 0x20; 0x63]%N;
    ofCodes [0xC2; 0x85]%N;
    ofCodes [0xE3; 0x80; 0x80; 0x47; 0x45; 0x54; 0xE3; 0x80; 0x80]%N;
    ofCodes [0xC2; 0xA0; 0x63; 0x61; 0x66; 0xC3; 0xA9]%N ].

Definition unicodeWordlist : World :=
  {| os_Open := λ _, Scanned unicodeLines None;
     url_Parse := url_Parse Examples.mockServer;
     http_NewRequest := http_NewRequest Examples.mockServer;
     client_Do := client_Do Examples.unreachable;
     os_WriteFile := λ _ _, None;
     unicode_To_UpperCase := unicode_To_UpperCase Examples.mockServer |}.

End MoreExamples.


(** ** UTF-8 and white space *)

Section UTF8Facts.
Import GoStrings.

Local Ltac nbool :=
  repeat match goal with
  | H : (_ <? _)%N = true |- _ => apply N.ltb_lt in H
  | H : (_ <? _)%N = false |- _ => apply N.ltb_ge in H
  | H : (_ <=? _)%N = true |- _ => apply N.leb_le in H
  | H : (_ <=? _)%N = false |- _ => apply N.leb_gt in H
  | H : (_ =? _)%N = true |- _ => apply N.eqb_eq in H
  | H : (_ =? _)%N = false |- _ => apply N.eqb_neq in H
  | H : (_ <=? _)%nat = true |- _ => apply Nat.leb_le in H
  | H : (_ <=? _)%nat = false |- _ => apply Nat.leb_gt in H
  | H : _ && _ = true |- _ => apply andb_true_iff in H as [? ?]
  | H : _ || _ = false |- _ => apply orb_false_iff in H as [? ?]
  | H : negb _ = true |- _ => apply negb_true_iff in H
  | H : negb _ = false |- _ => apply negb_false_iff in H
  end.

Lemma IsSpace_RuneError : IsSpace RuneError = false.
Proof. reflexivity. Qed.

Lemma first_spec b :
  match first b with
  | ASCII => (b < 0x80)%N
  | Invalid => (0x80 ≤ b)%N
  | Lead sz lo hi =>
      (0xC2 ≤ b)%N ∧ (0x80 ≤ lo)%N ∧ (hi ≤ 0xBF)%N ∧ (2 ≤ sz ≤ 4)%nat
  end.
Proof.
  unfold first.
  repeat match goal with
         | |- context [if ?c then _ else _] => destruct c eqn:?
         end; nbool; simpl; lia.
Qed.

Lemma first_cont b : isCont b = true → first b = Invalid.
Proof.
  unfold isCont, first. intros H. nbool.
  repeat match goal with
         | |- context [if ?c then _ else _] => destruct c eqn:?
         end; nbool; (done || lia).
Qed.

Lemma DecodeRune_nil : DecodeRuneInString [] = (RuneError, 0%nat).
Proof. done. Qed.

Lemma DecodeRune_size s r size :
  DecodeRuneInString s = (r, size) → s ≠ [] → (1 ≤ size ≤ length s)%nat.
Proof.
  intros H Hne. destruct s as [|c0 s]; [done|]. clear Hne.
  unfold DecodeRuneInString in H.
  repeat (case_match; simplify_eq; simpl; try lia).
Qed.

(** A decoding of width two or more does not look beyond its bytes. *)
Lemma DecodeRune_wide s r size q :
  DecodeRuneInString s = (r, size) → (2 ≤ size)%nat →
  DecodeRuneInString (take size s ++ q) = (r, size).
Proof.
  intros H Hsz. unfold DecodeRuneInString in H.
  repeat (case_match; simplify_eq; try lia);
    simpl; unfold DecodeRuneInString;
    repeat match goal with H : _ = _ |- _ => rewrite H end; done.
Qed.

Lemma DecodeRune_ASCII c q :
  (byte c < 0x80)%N → DecodeRuneInString (c :: q) = (byte c, 1%nat).
Proof.
  intros H. unfold DecodeRuneInString.
  pose proof (first_spec (byte c)) as Hf.
  destruct (first (byte c)); [done|lia|lia].
Qed.

(** A byte above 0x7F that is not followed by a continuation byte is a
    rune of its own. *)
Lemma DecodeRune_alone c q :
  (0x80 ≤ byte c)%N →
  (∀ d, head q = Some d → isCont (byte d) = false) →
  DecodeRuneInString (c :: q) = (RuneError, 1%nat).
Proof.
  intros Hc Hq. unfold DecodeRuneInString.
  pose proof (first_spec (byte c)) as Hf.
  destruct (first (byte c)) as [| |sz lo hi]; [lia|done|].
  destruct q as [|d q]; [done|].
  specialize (Hq d eq_refl). unfold isCont in Hq.
  destruct Hf as (_ & Hlo & Hhi & _).
  destruct ((byte d <? lo)%N || (hi <? byte d)%N) eqn:Hr; [done|].
  nbool. apply andb_false_iff in Hq as [Hq|Hq]; nbool; lia.
Qed.

(** A white-space rune is a valid one: it begins with no continuation byte
    and is either one ASCII byte or two bytes or more. *)
Lemma DecodeRune_space c q r size :
  DecodeRuneInString (c :: q) = (r, size) → IsSpace r = true →
  isCont (byte c) = false ∧
  (((byte c < 0x80)%N ∧ size = 1%nat ∧ r = byte c) ∨ (2 ≤ size)%nat).
Proof.
  intros H Hsp.
  assert (Hnc : isCont (byte c) = false).
  { destruct (isCont (byte c)) eqn:Hc; [|done].
    unfold DecodeRuneInString in H. rewrite (first_cont _ Hc) in H.
    simplify_eq. }
  split; [done|].
  pose proof (first_spec (byte c)) as Hf.
  unfold DecodeRuneInString in H.
  destruct (first (byte c)) as [| |sz lo hi].
  - left. by simplify_eq.
  - simplify_eq.
  - right. repeat (case_match; simplify_eq; try lia).
Qed.

Lemma DecodeRune_space_prefix s r size q :
  DecodeRuneInString s = (r, size) → IsSpace r = true →
  DecodeRuneInString (take size s ++ q) = (r, size).
Proof.
  intros H Hsp. destruct s as [|c s].
  { simpl in H. by simplify_eq. }
  destruct (DecodeRune_space _ _ _ _ H Hsp) as [_ [(Hc & -> & ->)|Hw]].
  - simpl. by apply DecodeRune_ASCII.
  - by apply DecodeRune_wide.
Qed.

Lemma leadSpace_prefix e t : leadSpace (take e t) = true → leadSpace t = true.
Proof.
  unfold leadSpace. destruct (DecodeRuneInString (take e t)) as [r size] eqn:H.
  simpl. intros Hsp.
  destruct (decide (take e t = [])) as [Hnil|Hne].
  { rewrite Hnil in H. simpl in H. by simplify_eq. }
  pose proof (DecodeRune_size _ _ _ H Hne) as Hsize.
  rewrite length_take in Hsize.
  pose proof (DecodeRune_space_prefix _ _ _ (drop size t) H Hsp) as H'.
  rewrite take_take in H'. replace (size `min` e)%nat with size in H' by lia.
  rewrite take_drop in H'. by rewrite H'.
Qed.

(** *** [TrimLeftFunc] *)

Lemma trimLeftFrom_drop s : ∀ k, trimLeftFrom k s = trimLeftFrom 0 (drop k s).
Proof.
  induction s as [|c s IH]; intros k; [by destruct k|].
  destruct k as [|k]; [done|]. simpl. apply IH.
Qed.

Lemma TrimLeftFunc_unfold s :
  TrimLeftFunc s =
  if leadSpace s then TrimLeftFunc (drop (DecodeRuneInString s).2 s) else s.
Proof.
  unfold TrimLeftFunc, leadSpace. destruct s as [|c s]; [done|].
  cbn [trimLeftFrom].
  destruct (DecodeRuneInString (c :: s)) as [r size] eqn:H. cbn [fst snd].
  destruct (IsSpace r); [|done].
  pose proof (DecodeRune_size _ _ _ H ltac:(done)) as Hsize.
  rewrite trimLeftFrom_drop. destruct size as [|size]; [lia|].
  simpl. by rewrite Nat.sub_0_r.
Qed.

Lemma TrimLeftFunc_spec s :
  leadSpace (TrimLeftFunc s) = false ∧ ∃ k, TrimLeftFunc s = drop k s.
Proof.
  remember (length s) as n eqn:Hn. revert s Hn.
  induction (lt_wf n) as [n _ IH]. intros s ->.
  rewrite TrimLeftFunc_unfold. destruct (leadSpace s) eqn:Hsp.
  - unfold leadSpace in Hsp.
    destruct (DecodeRuneInString s) as [r size] eqn:H. cbn [fst snd] in *.
    assert (Hne : s ≠ []).
    { intros ->. simpl in H. by simplify_eq. }
    pose proof (DecodeRune_size _ _ _ H Hne) as Hsize.
    destruct (IH (length (drop size s)) ltac:(rewrite length_drop; lia)
                 (drop size s) eq_refl) as [Hl [k Hk]].
    split; [done|]. exists (size + k)%nat. by rewrite Hk, drop_drop.
  - split; [done|]. by exists 0%nat.
Qed.

Lemma TrimLeftFunc_fixed s : leadSpace s = false → TrimLeftFunc s = s.
Proof. intros H. by rewrite TrimLeftFunc_unfold, H. Qed.

(** *** [DecodeLastRuneInString] and [TrimRightFunc] *)

Lemma DecodeLast_cases s r size :
  DecodeLastRuneInString s = (r, size) → s ≠ [] →
  ∃ c, last s = Some c ∧
    (((byte c < 0x80)%N ∧ r = byte c ∧ size = 1%nat) ∨
     ((0x80 ≤ byte c)%N ∧
      ((∃ start, (start < length s)%nat ∧ (start + size)%nat = length s ∧
                 DecodeRuneInString (drop start s) = (r, size)) ∨
       (r = RuneError ∧ size = 1%nat)))).
Proof.
  intros H Hne. unfold DecodeLastRuneInString in H.
  destruct (last s) as [c|] eqn:Hlast.
  2:{ apply last_None in Hlast. done. }
  exists c. split; [done|]. unfold RuneSelf in H.
  destruct (byte c <? 0x80)%N eqn:Hc; nbool.
  - left. by simplify_eq.
  - right. split; [done|].
    destruct (DecodeRuneInString (drop (lastRuneStart s) s)) as [r' size'] eqn:Hd.
    destruct (lastRuneStart s + size' =? length s)%nat eqn:Hs.
    + left. simplify_eq. apply Nat.eqb_eq in Hs. exists (lastRuneStart s).
      split; [|done].
      assert (0 < length s)%nat by (destruct s; [done|simpl; lia]).
      unfold lastRuneStart. repeat case_match; lia.
    + right. by simplify_eq.
Qed.

Lemma DecodeLast_size s r size :
  DecodeLastRuneInString s = (r, size) → s ≠ [] → (1 ≤ size ≤ length s)%nat.
Proof.
  intros H Hne.
  assert (0 < length s)%nat by (destruct s; [done|simpl; lia]).
  destruct (DecodeLast_cases _ _ _ H Hne)
    as (c & Hl & [(_ & _ & ->)|(_ & [(start & Hlt & Hs & Hd)|(_ & ->)])]);
    [lia| |lia].
  assert (drop start s ≠ []).
  { intros Hnil. apply (f_equal length) in Hnil.
    rewrite length_drop in Hnil. simpl in Hnil. lia. }
  pose proof (DecodeRune_size _ _ _ Hd ltac:(done)). lia.
Qed.

Lemma lastIndexFrom_skip s : ∀ i k,
  lastIndexFrom k s i = lastIndexFrom 0 s (i - k).
Proof.
  induction i as [|i IH]; intros k; [by destruct k|].
  destruct k as [|k]; [done|]. simpl. apply IH.
Qed.

Lemma lastIndexFrom_unfold s i :
  (0 < i)%nat →
  lastIndexFrom 0 s i =
  let '(r, size) := DecodeLastRuneInString (take i s) in
  if IsSpace r then lastIndexFrom 0 s (i - size) else Some (i - size)%nat.
Proof.
  intros Hi. destruct i as [|i]; [lia|]. cbn [lastIndexFrom].
  destruct (DecodeLastRuneInString (take (S i) s)) as [r size] eqn:H.
  destruct (IsSpace r) eqn:Hsp; [|done].
  rewrite lastIndexFrom_skip. f_equal.
  destruct (decide (take (S i) s = [])) as [Hnil|Hne].
  - rewrite Hnil in H. unfold DecodeLastRuneInString in H. simpl in H.
    by simplify_eq.
  - pose proof (DecodeLast_size _ _ _ H Hne). lia.
Qed.

Lemma TrimRightFunc_endOf s :
  TrimRightFunc s =
  match lastIndexFrom 0 s (length s) with
  | Some i => take (endOf s i) s
  | None => []
  end.
Proof.
  unfold TrimRightFunc, endOf.
  destruct (lastIndexFrom 0 s (length s)) as [i|]; [|done].
  destruct (s !! i) as [c|]; [|done]. by destruct (RuneSelf <=? byte c)%N.
Qed.

(** Decoding forwards from the start of the last rune of [s[:i]] ends at
    [i] again. *)
Lemma endOf_last s i r size :
  (0 < i ≤ length s)%nat → boundary s i →
  DecodeLastRuneInString (take i s) = (r, size) →
  endOf s (i - size) = i.
Proof.
  intros Hi Hb H.
  assert (Hlen : length (take i s) = i) by (rewrite length_take; lia).
  assert (Hne : take i s ≠ []) by (intros Hnil; rewrite Hnil in Hlen; simpl in *; lia).
  pose proof (DecodeLast_size _ _ _ H Hne) as Hsize. rewrite Hlen in Hsize.
  assert (Hq : ∀ d, head (drop i s) = Some d → isCont (byte d) = false).
  { intros d Hd. apply Hb. rewrite <- Hd, head_lookup, lookup_drop.
    f_equal. lia. }
  assert (Hsplit : ∀ j, (j ≤ i)%nat → drop j s = drop j (take i s) ++ drop i s).
  { intros j Hj. rewrite <- (take_drop i s) at 1.
    rewrite drop_app_le by (rewrite length_take; lia). done. }
  destruct (DecodeLast_cases _ _ _ H Hne)
    as (c & Hl & [(Hc & -> & ->)|(Hc & [(start & _ & Hs & Hd)|(-> & ->)])]).
  - unfold endOf.
    assert (Hc' : s !! (i - 1)%nat = Some c).
    { rewrite last_lookup, Hlen in Hl.
      rewrite lookup_take_lt in Hl by lia.
      replace (i - 1)%nat with (Init.Nat.pred i) by lia. done. }
    rewrite Hc'. unfold RuneSelf.
    destruct (0x80 <=? byte c)%N eqn:Hge; nbool; lia.
  - rewrite Hlen in Hs. replace (i - size)%nat with start by lia.
    unfold endOf.
    destruct (s !! start) as [c0|] eqn:Hc0.
    2:{ apply lookup_ge_None in Hc0. lia. }
    assert (Hp : drop start (take i s) = c0 :: drop (S start) (take i s)).
    { apply drop_S. rewrite lookup_take_lt by lia. done. }
    unfold RuneSelf. destruct (0x80 <=? byte c0)%N eqn:Hge; nbool.
    + rewrite (Hsplit start) by lia.
      destruct (decide (2 ≤ size)%nat) as [Hw|Hw].
      * pose proof (DecodeRune_wide _ _ _ (drop i s) Hd Hw) as Hd'.
        rewrite take_ge in Hd' by (rewrite length_drop, Hlen; lia).
        rewrite Hd'. simpl. lia.
      * assert (size = 1%nat) as -> by lia.
        rewrite Hp.
        assert (drop (S start) (take i s) = []) as ->.
        { apply nil_length_inv. rewrite length_drop, Hlen. lia. }
        change ([c0] ++ drop i s) with (c0 :: drop i s).
        rewrite (DecodeRune_alone c0 (drop i s)); [simpl; lia|lia|done].
    + rewrite Hp in Hd. rewrite (DecodeRune_ASCII c0) in Hd by lia.
      simplify_eq. lia.
  - unfold endOf.
    assert (Hc' : s !! (i - 1)%nat = Some c).
    { rewrite last_lookup, Hlen in Hl.
      rewrite lookup_take_lt in Hl by lia.
      replace (i - 1)%nat with (Init.Nat.pred i) by lia. done. }
    rewrite Hc'. unfold RuneSelf.
    destruct (0x80 <=? byte c)%N eqn:Hge; nbool; [|lia].
    assert (Hdrop : drop (i - 1) s = c :: drop i s).
    { replace i with (S (i - 1)) at 2 by lia. by apply drop_S. }
    rewrite Hdrop, (DecodeRune_alone c (drop i s)); [simpl; lia|lia|done].
Qed.

Lemma lastIndexFrom_spec s : ∀ i,
  (i ≤ length s)%nat → boundary s i →
  match lastIndexFrom 0 s i with
  | Some j => ∃ e, (0 < e ≤ i)%nat ∧ endOf s j = e ∧ trailSpace (take e s) = false
  | None => True
  end.
Proof.
  intros i. induction (lt_wf i) as [i _ IH]. intros Hi Hb.
  destruct (decide (i = 0%nat)) as [->|Hpos]; [done|].
  rewrite lastIndexFrom_unfold by lia.
  destruct (DecodeLastRuneInString (take i s)) as [r size] eqn:H.
  assert (Hlen : length (take i s) = i) by (rewrite length_take; lia).
  assert (Hne : take i s ≠ []) by (intros Hnil; rewrite Hnil in Hlen; simpl in *; lia).
  pose proof (DecodeLast_size _ _ _ H Hne) as Hsize. rewrite Hlen in Hsize.
  destruct (IsSpace r) eqn:Hsp.
  - assert (Hb' : boundary s (i - size)).
    { intros d Hd.
      destruct (DecodeLast_cases _ _ _ H Hne)
        as (c & Hl & [(Hc & -> & ->)|(Hc & [(start & _ & Hs & Hdec)|(-> & ->)])]).
      - rewrite last_lookup, Hlen, lookup_take_lt in Hl by lia.
        replace (Init.Nat.pred i) with (i - 1)%nat in Hl by lia.
        simplify_eq. unfold isCont.
        destruct (0x80 <=? byte d)%N eqn:Hge; nbool; [lia|done].
      - rewrite Hlen in Hs. replace (i - size)%nat with start in Hd by lia.
        assert (Hp : drop start (take i s) = d :: drop (S start) (take i s)).
        { apply drop_S. rewrite lookup_take_lt by lia. done. }
        rewrite Hp in Hdec. by destruct (DecodeRune_space _ _ _ _ Hdec Hsp).
      - by rewrite IsSpace_RuneError in Hsp. }
    specialize (IH (i - size)%nat ltac:(lia) ltac:(lia) Hb').
    destruct (lastIndexFrom 0 s (i - size)) as [j|]; [|done].
    destruct IH as (e & He & Hend & Htr). exists e. split_and!; (lia || done).
  - exists i. split; [lia|]. split.
    + apply (endOf_last s i r size); [lia|done|done].
    + unfold trailSpace. by rewrite H.
Qed.

Lemma boundary_end s : boundary s (length s).
Proof. intros d Hd. apply lookup_lt_Some in Hd. lia. Qed.

Lemma TrimRightFunc_spec s :
  trailSpace (TrimRightFunc s) = false ∧ ∃ e, TrimRightFunc s = take e s.
Proof.
  rewrite TrimRightFunc_endOf.
  pose proof (lastIndexFrom_spec s (length s) ltac:(lia) (boundary_end s)) as H.
  destruct (lastIndexFrom 0 s (length s)) as [j|].
  - destruct H as (e & _ & -> & Htr). split; [done|]. by exists e.
  - split; [done|]. exists 0%nat. by rewrite take_0.
Qed.

Lemma TrimRightFunc_fixed s : trailSpace s = false → TrimRightFunc s = s.
Proof.
  intros Htr. rewrite TrimRightFunc_endOf.
  destruct (decide (s = [])) as [->|Hne]; [done|].
  assert (Hpos : (0 < length s)%nat) by (destruct s; [done|simpl; lia]).
  rewrite lastIndexFrom_unfold by lia. rewrite firstn_all.
  unfold trailSpace in Htr.
  destruct (DecodeLastRuneInString s) as [r size] eqn:H. simpl in Htr.
  rewrite Htr.
  rewrite (endOf_last s (length s) r size); [by rewrite firstn_all|lia| |].
  - apply boundary_end.
  - by rewrite firstn_all.
Qed.

(** *** [TrimSpace] *)

Lemma TrimFunc_trimmed s : trimmed (TrimFunc s).
Proof.
  unfold TrimFunc.
  destruct (TrimLeftFunc_spec s) as [Hl _].
  destruct (TrimRightFunc_spec (TrimLeftFunc s)) as [Hr [e He]].
  split; [|done]. rewrite He.
  destruct (leadSpace (take e (TrimLeftFunc s))) eqn:Hsp; [|done].
  apply leadSpace_prefix in Hsp. congruence.
Qed.

Lemma TrimFunc_fixed s : trimmed s → TrimFunc s = s.
Proof.
  intros [Hl Hr]. unfold TrimFunc.
  by rewrite (TrimLeftFunc_fixed _ Hl), (TrimRightFunc_fixed _ Hr).
Qed.

End UTF8Facts.

Section TrimSpaceFacts.
Import GoStrings.

Lemma bytes_ofBytes l : bytes (ofBytes l) = l.
Proof. apply list_ascii_of_string_of_list_ascii. Qed.

Lemma ofBytes_bytes s : ofBytes (bytes s) = s.
Proof. apply string_of_list_ascii_of_string. Qed.

Lemma bytes_nil s : bytes s = [] ↔ s = "".
Proof. by destruct s. Qed.

Lemma IsSpace_byte c : (byte c < 0x80)%N → IsSpace (byte c) = isSpace c.
Proof.
  intros H.
  destruct c as [[] [] [] [] [] [] [] []];
    (reflexivity || (vm_compute in H; discriminate)).
Qed.

Lemma isSpace_ASCII c : isSpace c = true → (byte c < 0x80)%N.
Proof.
  destruct c as [[] [] [] [] [] [] [] []]; intros H;
    (reflexivity || (vm_compute in H; discriminate)).
Qed.

Lemma leadSpace_cons c s :
  (byte c < 0x80)%N → leadSpace (c :: s) = isSpace c.
Proof.
  intros H. unfold leadSpace. rewrite (DecodeRune_ASCII c s H). simpl.
  by apply IsSpace_byte.
Qed.

Lemma trailSpace_last s c :
  last s = Some c → (byte c < 0x80)%N → trailSpace s = isSpace c.
Proof.
  intros Hl H. unfold trailSpace, DecodeLastRuneInString. rewrite Hl.
  unfold RuneSelf. rewrite (proj2 (N.ltb_lt _ _) H). simpl.
  by apply IsSpace_byte.
Qed.

(** The two ASCII loops, on the bytes. *)
Lemma TrimLeft_suffix s : ∃ k, bytes (TrimLeft s) = drop k (bytes s).
Proof.
  induction s as [|c r [k IH]]; [by exists 0%nat|]. simpl.
  destruct (isSpace c); [by exists (S k)|by exists 0%nat].
Qed.

Lemma TrimRight_prefix s : ∃ e, bytes (TrimRight s) = take e (bytes s).
Proof.
  induction s as [|c r [e IH]]; [by exists 0%nat|]. simpl.
  destruct (TrimRight r) as [|c' r'] eqn:Hr.
  - destruct (isSpace c); [by exists 0%nat|exists 1%nat; simpl; by rewrite take_0].
  - exists (S e). simpl. by rewrite <- IH.
Qed.

Lemma TrimRight_last s c :
  last (bytes (TrimRight s)) = Some c → isSpace c = false.
Proof.
  revert c. induction s as [|d r IH]; intros c; [done|]. simpl.
  destruct (TrimRight r) as [|c' r'] eqn:Hr.
  - destruct (isSpace d) eqn:Hd; [done|]. simpl. by intros [= <-].
  - intros Hl. apply IH. by rewrite <- Hl.
Qed.

Lemma TrimRight_fixed s c :
  last (bytes s) = Some c → isSpace c = false → TrimRight s = s.
Proof.
  revert c. induction s as [|d r IH]; intros c; [done|].
  simpl. destruct r as [|d' r'].
  - simpl. intros [= ->] ->. done.
  - intros Hl Hc. rewrite (IH c); [done| |done].
    by rewrite <- Hl.
Qed.

Lemma TrimRight_head c r :
  isSpace c = false → ∃ r', TrimRight (String c r) = String c r'.
Proof. intros Hc. simpl. rewrite Hc. destruct (TrimRight r); by eexists. Qed.

Lemma TrimLeft_head_nonspace s c r :
  TrimLeft s = String c r → isSpace c = false.
Proof.
  induction s as [|d s IH]; [done|]. simpl.
  destruct (isSpace d) eqn:Hd; [done|]. by intros [= <- <-].
Qed.

(** What [TrimSpace] returns neither begins nor ends with white space. *)
Lemma TrimSpace_trimmed s : trimmed (bytes (TrimSpace s)).
Proof.
  unfold TrimSpace.
  destruct (TrimLeft s) as [|c r] eqn:Ht; [done|].
  pose proof (TrimLeft_head_nonspace _ _ _ Ht) as Hc.
  unfold RuneSelf. destruct (0x80 <=? byte c)%N eqn:Hge.
  { rewrite bytes_ofBytes. apply TrimFunc_trimmed. }
  apply N.leb_gt in Hge.
  destruct (TrimRight_head c r Hc) as [r' Hu]. rewrite Hu.
  assert (Hlead : leadSpace (bytes (String c r')) = false).
  { simpl. by rewrite leadSpace_cons. }
  destruct (last (bytes (String c r'))) as [d|] eqn:Hl.
  2:{ by apply last_None in Hl. }
  assert (Hd : isSpace d = false).
  { apply (TrimRight_last (String c r)). by rewrite Hu. }
  destruct (0x80 <=? byte d)%N eqn:Hge'.
  - rewrite bytes_ofBytes.
    destruct (TrimRightFunc_spec (bytes (String c r'))) as [Htr [e He]].
    split; [|done]. rewrite He.
    destruct (leadSpace (take e (bytes (String c r')))) eqn:Hsp; [|done].
    apply leadSpace_prefix in Hsp. congruence.
  - apply N.leb_gt in Hge'. split; [done|].
    by rewrite (trailSpace_last _ d Hl Hge').
Qed.

(** A string that neither begins nor ends with white space is returned
    as it is. *)
Lemma TrimSpace_fixed_trimmed s : trimmed (bytes s) → TrimSpace s = s.
Proof.
  intros [Hlead Htrail]. destruct s as [|c r]; [done|].
  assert (Hc : isSpace c = false).
  { destruct (isSpace c) eqn:Hc; [|done].
    simpl in Hlead. by rewrite (leadSpace_cons _ _ (isSpace_ASCII _ Hc)), Hc in Hlead. }
  unfold TrimSpace. cbn [TrimLeft]. rewrite Hc.
  unfold RuneSelf. destruct (0x80 <=? byte c)%N eqn:Hge.
  { rewrite TrimFunc_fixed by done. apply ofBytes_bytes. }
  destruct (last (bytes (String c r))) as [d|] eqn:Hl.
  2:{ by apply last_None in Hl. }
  assert (Hd : isSpace d = false).
  { destruct (isSpace d) eqn:Hd; [|done].
    by rewrite (trailSpace_last _ d Hl (isSpace_ASCII _ Hd)), Hd in Htrail. }
  rewrite (TrimRight_fixed _ d Hl Hd), Hl.
  destruct (0x80 <=? byte d)%N; [|done].
  rewrite TrimRightFunc_fixed by done. apply ofBytes_bytes.
Qed.

Lemma TrimSpace_idemp s : TrimSpace (TrimSpace s) = TrimSpace s.
Proof. apply TrimSpace_fixed_trimmed, TrimSpace_trimmed. Qed.

Lemma TrimSpace_empty : TrimSpace "" = "".
Proof. done. Qed.

(** [TrimSpace] returns a piece of its argument. *)
Lemma TrimSpace_infix s : ∃ k e, bytes (TrimSpace s) = take e (drop k (bytes s)).
Proof.
  unfold TrimSpace. destruct (TrimLeft_suffix s) as [k Hk].
  destruct (TrimLeft s) as [|c r] eqn:Ht.
  { exists 0%nat, 0%nat. by rewrite take_0. }
  destruct (RuneSelf <=? byte c)%N.
  - rewrite bytes_ofBytes. unfold TrimFunc.
    destruct (TrimLeftFunc_spec (bytes (String c r))) as [_ [k' Hk']].
    destruct (TrimRightFunc_spec (TrimLeftFunc (bytes (String c r)))) as [_ [e He]].
    exists (k + k')%nat, e. by rewrite He, Hk', Hk, drop_drop.
  - destruct (TrimRight_prefix (String c r)) as [e He].
    destruct (last (bytes (TrimRight (String c r)))) as [d|].
    + destruct (RuneSelf <=? byte d)%N.
      * rewrite bytes_ofBytes.
        destruct (TrimRightFunc_spec (bytes (TrimRight (String c r)))) as [_ [e' He']].
        exists k, (e' `min` e)%nat. by rewrite He', He, Hk, take_take.
      * exists k, e. by rewrite He, Hk.
    + exists k, e. by rewrite He, Hk.
Qed.

(** On an ASCII string [TrimSpace] is its two loops. *)
Lemma TrimSpace_ASCII s :
  isASCII (bytes s) = true → TrimSpace s = TrimRight (TrimLeft s).
Proof.
  intros Ha. unfold TrimSpace.
  assert (Hall : ∀ c, c ∈ bytes s → (byte c <? RuneSelf)%N = true).
  { intros c Hc. unfold isASCII in Ha. rewrite forallb_forall in Ha.
    apply Ha. by apply list_elem_of_In. }
  destruct (TrimLeft_suffix s) as [k Hk].
  destruct (TrimLeft s) as [|c r] eqn:Ht; [done|].
  assert (Hc : (byte c <? RuneSelf)%N = true).
  { apply Hall. apply (subseteq_drop k). rewrite <- Hk. simpl. by left. }
  rewrite N.leb_antisym, Hc. cbn [negb].
  destruct (TrimRight_prefix (String c r)) as [e He].
  destruct (last (bytes (TrimRight (String c r)))) as [d|] eqn:Hl; [|done].
  assert (Hd : (byte d <? RuneSelf)%N = true).
  { apply Hall. apply (subseteq_drop k). rewrite <- Hk.
    apply (subseteq_take e). rewrite <- He.
    apply last_Some in Hl as [l' ->]. apply elem_of_app. right. by left. }
  by rewrite N.leb_antisym, Hd.
Qed.

(** *** [ToUpper] *)

Lemma AppendRune_nonempty r : AppendRune r ≠ [].
Proof. unfold AppendRune. by repeat case_match. Qed.

Lemma ToUpper_empty up s : ToUpper up s = "" ↔ s = "".
Proof.
  split; [|by intros ->].
  unfold ToUpper. destruct s as [|c r]; [done|]. intros H. exfalso.
  destruct (isASCII (bytes (String c r))).
  - by apply (f_equal bytes) in H; rewrite bytes_ofBytes in H.
  - apply (f_equal bytes) in H. rewrite bytes_ofBytes in H.
    unfold Map in H. change (bytes (String c r)) with (c :: bytes r) in H.
    cbn [runesFrom] in H.
    destruct (DecodeRuneInString (c :: bytes r)) as [x size].
    rewrite fmap_cons in H. cbn [mjoin list_join] in H.
    apply app_eq_nil in H as [H _].
    by apply AppendRune_nonempty in H.
Qed.

End TrimSpaceFacts.
(** * Properties *)

(** ** The definitions at work *)

Example TrimSpace_example :
  GoStrings.TrimSpace "  get it  " = "get it" ∧
  GoStrings.TrimSpace "GeT " = "GeT" ∧
  GoStrings.ToUpper Examples.latin1Upper "version-control" = "VERSION-CONTROL".
Proof. split_and!; reflexivity. Qed.

Example Split_example :
  GoStrings.Split "GET, POST,,HEAD" "," = ["GET"; " POST"; ""; "HEAD"] ∧
  GoStrings.Split "" "," = [""].
Proof. split; reflexivity. Qed.

Example readLinesFromFile_example :
  readLinesFromFile Examples.mockServer "methods.txt"
  = (["GET"; "POST"; "CUSTOM"; "another"], None).
Proof. reflexivity. Qed.

Example getMethods_example :
  value (getMethods Examples.mockServer
           (Examples.withWordlist Examples.config "methods.txt"))
  = ([ "ANOTHER"; "BAMBOOZLE"; "CHECKIN"; "CHECKOUT"; "CONNECT"; "COPY";
       "CUSTOM"; "DELETE"; "GET"; "HEAD"; "INDEX"; "LINK"; "LOCK"; "MKCOL";
       "MOVE"; "NOEXISTE"; "OPTIONS"; "ORDERPATCH"; "PATCH"; "POST";
       "PROPFIND"; "PROPPATCH"; "PUT"; "REPORT"; "SEARCH"; "SHOWMETHOD";
       "SPACEJUMP"; "TEXTSEARCH"; "TRACE"; "TRACK"; "UNCHECKOUT"; "UNLINK";
       "UNLOCK"; "VERSION-CONTROL" ], None).
Proof. reflexivity. Qed.

Example getMethods_unreadable_example :
  value (getMethods Examples.mockServer
           (Examples.withWordlist Examples.config "missing.txt"))
  = ([], Some "failed to read wordlist: open: no such file or directory").
Proof. reflexivity. Qed.

Example getMethods_unreachable_example :
  warnings (trace (getMethods Examples.unreachable Examples.config))
  = [EvLog LevelWarning "Failed to get methods from OPTIONS request: %v"
           [ArgErr "dial tcp: connection refused"]] ∧
  (value (getMethods Examples.unreachable Examples.config)).2 = None.
Proof. split; reflexivity. Qed.

Example testMethod_example :
  value (testMethod Examples.mockServer Examples.client Examples.target
           "PUT" ∅ ∅ ∅) !! "PUT"
  = Some {| StatusCode := 405; Length := 22; Reason := "405 Method Not Allowed" |} ∧
  value (testMethod Examples.mockServer Examples.client Examples.target
           "BAD METHOD" ∅ ∅ ∅) = ∅.
Proof. split; reflexivity. Qed.

Example dispatch_example :
  (λ s, (Dispatch.main s, Dispatch.semaphore s, Dispatch.stores s,
         Dispatch.results s !! "GET", Dispatch.results s !! "BAD METHOD"))
    <$> Dispatch.run Examples.mockServer Examples.client Examples.target ∅ ∅ 1
          (Dispatch.initial ["GET"; "BAD METHOD"; "PUT"])
          (DispatchInv.sequential Examples.mockServer Examples.target
             ["GET"; "BAD METHOD"; "PUT"])
  = Some (Dispatch.Joined, 0%nat, ["GET"; "PUT"],
          Some {| StatusCode := 200; Length := 18; Reason := "200 OK" |}, None).
Proof. reflexivity. Qed.

Example dispatch_blocked_example :
  Dispatch.run Examples.mockServer Examples.client Examples.target ∅ ∅ 0
    (Dispatch.initial ["GET"]) [Dispatch.ASpawn; Dispatch.AWorker 0 Dispatch.Acquire]
  = None.
Proof. reflexivity. Qed.

(** White space and case outside ASCII. *)
Example TrimSpace_unicode_example :
  GoStrings.TrimSpace
    (MoreExamples.ofCodes [0x20; 0xC2; 0xA0; 0x63; 0x61; 0x66; 0xC3; 0xA9;
                           0xE3; 0x80; 0x80; 0x09]%N)
  = MoreExamples.ofCodes [0x63; 0x61; 0x66; 0xC3; 0xA9]%N ∧
  GoStrings.TrimSpace (MoreExamples.ofCodes [0x20; 0x85; 0x20]%N)
  = MoreExamples.ofCodes [0x85]%N ∧
  GoStrings.TrimSpace (MoreExamples.ofCodes [0x41; 0xE2; 0x80; 0x8B]%N)
  = MoreExamples.ofCodes [0x41; 0xE2; 0x80; 0x8B]%N.
Proof. by vm_compute. Qed.

Example ToUpper_unicode_example :
  GoStrings.ToUpper Examples.latin1Upper
    (MoreExamples.ofCodes [0x63; 0x61; 0x66; 0xC3; 0xA9]%N)
  = MoreExamples.ofCodes [0x43; 0x41; 0x46; 0xC3; 0x89]%N ∧
  GoStrings.ToUpper Examples.latin1Upper (MoreExamples.ofCodes [0x61; 0xFF; 0x62]%N)
  = MoreExamples.ofCodes [0x41; 0xEF; 0xBF; 0xBD; 0x42]%N.
Proof. by vm_compute. Qed.

Example readLinesFromFile_unicode_example :
  readLinesFromFile MoreExamples.unicodeWordlist "words.txt"
  = (["GET"; MoreExamples.ofCodes [0x63; 0x61; 0x66; 0xC3; 0xA9]%N], None) ∧
  MoreExamples.ofCodes [0x43; 0x41; 0x46; 0xC3; 0x89]%N
  ∈ (value (getMethods MoreExamples.unicodeWordlist
              (Examples.withWordlist Examples.config "words.txt"))).1.
Proof.
  split; [by vm_compute|]. apply (bool_decide_unpack _). by vm_compute.
Qed.

(** ** Strings and sorting *)

Section StringFacts.
Import GoStrings.

Lemma TrimLeft_head s :
  TrimLeft s = "" ∨ ∃ c r, TrimLeft s = String c r ∧ isSpace c = false.
Proof.
  induction s as [|c r IH]; simpl; [by left|].
  destruct (isSpace c) eqn:Hc; [done|]. right. by exists c, r.
Qed.

Lemma TrimRight_cons_nonspace c r :
  isSpace c = false → TrimRight (String c r) = String c (TrimRight r).
Proof. intros Hc. simpl. rewrite Hc. by destruct (TrimRight r). Qed.

Lemma TrimRight_idemp s : TrimRight (TrimRight s) = TrimRight s.
Proof.
  induction s as [|c r IH]; [done|]. simpl.
  destruct (TrimRight r) as [|c' r'] eqn:Hr.
  - destruct (isSpace c) eqn:Hc; [done|]. simpl. by rewrite Hc.
  - simpl in *. by rewrite IH.
Qed.

Lemma TrimLeft_nonspace c r :
  isSpace c = false → TrimLeft (String c r) = String c r.
Proof. intros Hc. simpl. by rewrite Hc. Qed.

End StringFacts.

Lemma sort_Strings_Permutation l : sort_Strings l ≡ₚ l.
Proof. apply merge_sort_Permutation. Qed.

Lemma sort_Strings_Sorted l : StronglySorted String.le (sort_Strings l).
Proof. apply (StronglySorted_merge_sort String.le). Qed.

(** Any ascending arrangement of the same strings is the one [sort_Strings]
    gives: the choice of sorting algorithm does not show. *)
Lemma sort_Strings_unique l l' :
  l' ≡ₚ l → Sorted String.le l' → l' = sort_Strings l.
Proof.
  intros Hp Hs. apply (Sorted_unique String.le); [done| |].
  - apply Sorted_merge_sort; apply _.
  - by rewrite sort_Strings_Permutation.
Qed.

Lemma elem_of_sort_Strings x l : x ∈ sort_Strings l ↔ x ∈ l.
Proof. by rewrite sort_Strings_Permutation. Qed.

Lemma NoDup_sort_Strings l : NoDup (sort_Strings l) ↔ NoDup l.
Proof. by rewrite sort_Strings_Permutation. Qed.

(** ** The normalisation loop *)

Lemma normalizeInv_init : normalizeInv ([], ∅).
Proof.
  split; simpl.
  - intros u. unfold index_bool. rewrite lookup_empty. simpl.
    split; [done|]. by intros ?%elem_of_nil.
  - constructor.
  - by intros ?%elem_of_nil.
Qed.

Lemma index_bool_insert_true (seen : gmap string bool) k u :
  index_bool (<[k := true]> seen) u = true ↔ u = k ∨ index_bool seen u = true.
Proof.
  unfold index_bool. destruct (decide (k = u)) as [->|Hne].
  - rewrite lookup_insert_eq. simpl. split; [by left|done].
  - rewrite lookup_insert_ne by done. split; [by right|].
    by intros [->|?].
Qed.

Lemma normalizeStep_inv w st method :
  normalizeInv st → normalizeInv (normalizeStep w st method).
Proof.
  destruct st as [acc seen]. intros [Hseen Hnd Hne]. simpl in *.
  unfold normalizeStep. fold (normalized w method).
  destruct (bool_decide (normalized w method ≠ "")) eqn:Hu; simpl; [|by split].
  destruct (index_bool seen (normalized w method)) eqn:Hs; simpl; [by split|].
  apply bool_decide_eq_true in Hu.
  split; simpl.
  - intros u. rewrite index_bool_insert_true, elem_of_app, list_elem_of_singleton.
    rewrite Hseen. tauto.
  - apply NoDup_app. split_and!; [done| |apply NoDup_singleton].
    intros x Hx ->%list_elem_of_singleton.
    apply Hseen in Hx. congruence.
  - rewrite elem_of_app, list_elem_of_singleton. intros [?|Heq]; [done|].
    by apply Hu.
Qed.

Lemma normalizeStep_elem w st method u :
  normalizeInv st →
  u ∈ (normalizeStep w st method).1 ↔ u ∈ st.1 ∨ (u = normalized w method ∧ u ≠ "").
Proof.
  destruct st as [acc seen]. intros [Hseen Hnd Hne]. simpl in *.
  unfold normalizeStep. fold (normalized w method).
  destruct (bool_decide (normalized w method ≠ "")) eqn:Hu; simpl.
  - apply bool_decide_eq_true in Hu.
    destruct (index_bool seen (normalized w method)) eqn:Hs; simpl.
    + apply Hseen in Hs. split; [by left|]. by intros [?|[-> _]].
    + rewrite elem_of_app, list_elem_of_singleton. intuition congruence.
  - apply bool_decide_eq_false in Hu. split; [by left|].
    intros [?|[-> Hn]]; [done|]. by destruct Hu.
Qed.

Lemma normalize_fold w methods st :
  normalizeInv st →
  normalizeInv (fold_left (normalizeStep w) methods st) ∧
  ∀ u, u ∈ (fold_left (normalizeStep w) methods st).1 ↔
       u ∈ st.1 ∨ (u ≠ "" ∧ ∃ m, m ∈ methods ∧ u = normalized w m).
Proof.
  revert st. induction methods as [|m ms IH]; intros st Hst; simpl.
  - split; [done|]. intros u. split; [by left|].
    intros [?|(_ & m & []%elem_of_nil & _)]; done.
  - destruct (IH _ (normalizeStep_inv w _ m Hst)) as [Hinv Hel].
    split; [done|]. intros u. rewrite Hel, normalizeStep_elem by done.
    setoid_rewrite elem_of_cons. naive_solver.
Qed.

Lemma NoDup_normalizeMethods w methods : NoDup (normalizeMethods w methods).
Proof. apply (normalize_fold w methods _ normalizeInv_init). Qed.

Lemma elem_of_normalizeMethods w methods u :
  u ∈ normalizeMethods w methods ↔ u ≠ "" ∧ ∃ m, m ∈ methods ∧ u = normalized w m.
Proof.
  unfold normalizeMethods.
  rewrite (proj2 (normalize_fold w methods _ normalizeInv_init)). simpl.
  split; [|by right]. intros [[]%elem_of_nil|?]; done.
Qed.

Lemma readLines_fold scanned acc :
  fold_left (λ lines text,
               let line := GoStrings.TrimSpace text in
               if bool_decide (line ≠ "") && negb (GoStrings.HasPrefix line "#")
               then lines ++ [line] else lines) scanned acc
  = acc ++ (GoStrings.TrimSpace <$> List.filter keptLine scanned).
Proof.
  revert acc. induction scanned as [|t ts IH]; intros acc; simpl.
  - by rewrite app_nil_r.
  - rewrite IH. unfold keptLine at 2.
    destruct (bool_decide _ && _); simpl; [by rewrite <- app_assoc|done].
Qed.

Lemma readLinesFromFile_ok w filename scanned :
  os_Open w filename = Scanned scanned None →
  readLinesFromFile w filename
  = (GoStrings.TrimSpace <$> List.filter keptLine scanned, None).
Proof.
  intros H. unfold readLinesFromFile. rewrite H. by rewrite readLines_fold.
Qed.

Lemma readLinesFromFile_error w filename :
  (readLinesFromFile w filename).2 ≠ None ↔
  (∃ err, os_Open w filename = OpenFails err) ∨
  (∃ lines err, os_Open w filename = Scanned lines (Some err)).
Proof.
  unfold readLinesFromFile.
  destruct (os_Open w filename) as [e|lines [e|]]; simpl; naive_solver.
Qed.

(** The trimming loop of [getMethodsFromOptions] as a map. *)
Lemma trim_fold tokens acc :
  fold_left (λ methods method, methods ++ [GoStrings.TrimSpace method]) tokens acc
  = acc ++ (GoStrings.TrimSpace <$> tokens).
Proof.
  revert acc. induction tokens as [|t ts IH]; intros acc; simpl.
  - by rewrite app_nil_r.
  - by rewrite IH, <- app_assoc.
Qed.

(** ** The writer *)

Lemma value_bind {A B} (c : Eff A) (k : A → Eff B) :
  value (bind c k) = value (k (value c)).
Proof. destruct c as [t a]. unfold bind, value. simpl. by destruct (k a). Qed.

Lemma trace_bind {A B} (c : Eff A) (k : A → Eff B) :
  trace (bind c k) = trace c ++ trace (k (value c)).
Proof. destruct c as [t a]. unfold bind, trace, value. simpl. by destruct (k a). Qed.

Lemma warnings_app t1 t2 : warnings (t1 ++ t2) = warnings t1 ++ warnings t2.
Proof. apply filter_app. Qed.

Lemma requests_app t1 t2 : requests (t1 ++ t2) = requests t1 ++ requests t2.
Proof. apply omap_app. Qed.

(** ** The catalog builder *)

Lemma getMethods_discover_value w config methods :
  value (getMethods_discover w config methods)
  = (sort_Strings (normalizeMethods w (methods ++ discoveredMethods w config)), None).
Proof.
  unfold getMethods_discover, discoveredMethods. rewrite !value_bind.
  destruct (value (getMethodsFromOptions w config)) as [opts [e|]]; simpl.
  - by rewrite app_nil_r.
  - destruct opts as [|o opts]; simpl; [by rewrite app_nil_r|done].
Qed.

(** [getMethods] in one equation: the wordlist error if there is one, and
    otherwise the sorted normalisation of the three sources. *)
Lemma getMethods_value w config :
  value (getMethods w config) =
  match wordlistError w config with
  | Some err => ([], Some (Errorf_w "failed to read wordlist" err))
  | None =>
      (sort_Strings (normalizeMethods w
         (DefaultMethods ++ wordlistMethods w config ++ discoveredMethods w config)),
       None)
  end.
Proof.
  unfold getMethods, wordlistError, wordlistMethods.
  rewrite value_bind.
  destruct (bool_decide (Wordlist config ≠ "")).
  - destruct (readLinesFromFile w (Wordlist config)) as [wl [e|]];
      cbn [fst snd]; [done|].
    rewrite value_bind, getMethods_discover_value. by rewrite <- app_assoc.
  - rewrite getMethods_discover_value. by rewrite app_nil_l.
Qed.

(** Every built-in method is already in normal form. *)
Lemma DefaultMethods_normal w :
  Forall (λ m, normalized w m = m ∧ m ≠ "") DefaultMethods.
Proof. repeat constructor; (reflexivity || discriminate). Qed.

Lemma normalized_TrimSpace w s : normalized w (GoStrings.TrimSpace s) = normalized w s.
Proof. unfold normalized. by rewrite TrimSpace_idemp. Qed.

(** The catalog invariant, for any list of candidates. *)
Lemma catalog_invariant w methods :
  let catalog := sort_Strings (normalizeMethods w methods) in
  StronglySorted String.le catalog ∧ ("" ∉ catalog) ∧ NoDup catalog.
Proof.
  simpl. split_and!.
  - apply sort_Strings_Sorted.
  - rewrite elem_of_sort_Strings, elem_of_normalizeMethods. by intros [? _].
  - apply NoDup_sort_Strings, NoDup_normalizeMethods.
Qed.

Lemma elem_of_catalog w methods u :
  u ∈ sort_Strings (normalizeMethods w methods)
  ↔ u ≠ "" ∧ ∃ m, m ∈ methods ∧ u = normalized w m.
Proof. by rewrite elem_of_sort_Strings, elem_of_normalizeMethods. Qed.

(** Whenever [getMethods] returns without error, the built-in list is part
    of the catalog, which is therefore not empty. *)
Lemma getMethods_defaults w config catalog :
  value (getMethods w config) = (catalog, None) →
  (∀ m, m ∈ DefaultMethods → m ∈ catalog) ∧ catalog ≠ [].
Proof.
  rewrite getMethods_value. destruct (wordlistError w config); [done|].
  generalize (wordlistMethods w config ++ discoveredMethods w config).
  intros more.
  pose proof (elem_of_catalog w (DefaultMethods ++ more)) as Hel.
  generalize dependent (sort_Strings (normalizeMethods w (DefaultMethods ++ more))).
  intros sorted Hel [= ->].
  assert (Hdef : ∀ m, m ∈ DefaultMethods → m ∈ catalog).
  { intros m Hm. apply Hel.
    pose proof (proj1 (Forall_forall _ _) (DefaultMethods_normal w) m Hm) as [Hn Hne].
    split; [done|]. exists m. split; [|done]. apply elem_of_app. by left. }
  split; [done|]. intros ->.
  apply (not_elem_of_nil "GET"), Hdef.
  unfold DefaultMethods. rewrite !elem_of_cons. tauto.
Qed.

(** *** C3 *)

(** C3. For every input (every world: any wordlist file, any answer to the
    OPTIONS request; every configuration), and for every list of candidates
    the normalisation could be given, the catalog [getMethods] returns is
    sorted ascending in the bytewise lexicographic order, does not contain
    the empty string and has no duplicates. *)
Theorem getMethods_sorted_nonempty_nodup :
  (∀ (w : World) (methods : list string),
     let catalog := sort_Strings (normalizeMethods w methods) in
     StronglySorted String.le catalog ∧ ("" ∉ catalog) ∧ NoDup catalog) ∧
  (∀ (w : World) (config : Config),
     let catalog := (value (getMethods w config)).1 in
     StronglySorted String.le catalog ∧ ("" ∉ catalog) ∧ NoDup catalog).
Proof.
  split; [apply catalog_invariant|].
  intros w config. simpl. rewrite getMethods_value.
  destruct (wordlistError w config); simpl.
  - split_and!; [constructor|by intros ?%elem_of_nil|constructor].
  - apply catalog_invariant.
Qed.

(** *** C4 *)

(** C4. For a configured wordlist that can be read (the file opens and the
    scanner ends without error), [getMethods] returns without error a
    catalog that contains the trimmed, uppercased form of every line that
    is neither blank nor a comment, and every built-in method; the catalog
    is not empty.  Trimming and upper case are Go's [strings.TrimSpace] and
    [strings.ToUpper] on arbitrary bytes: Unicode white space, the case
    tables of the release, U+FFFD for an invalid byte. *)
Theorem getMethods_contains_wordlist_and_defaults
    (w : World) (config : Config) (scanned : list string) :
  Wordlist config ≠ "" →
  os_Open w (Wordlist config) = Scanned scanned None →
  ∃ catalog,
    value (getMethods w config) = (catalog, None) ∧
    (∀ line, line ∈ scanned →
       GoStrings.TrimSpace line ≠ "" →
       GoStrings.HasPrefix (GoStrings.TrimSpace line) "#" = false →
       GoStrings.ToUpper (unicode_To_UpperCase w) (GoStrings.TrimSpace line)
       ∈ catalog) ∧
    (∀ m, m ∈ DefaultMethods → m ∈ catalog) ∧
    catalog ≠ [].
Proof.
  intros Hwl Hopen.
  pose proof (getMethods_value w config) as Hval.
  unfold wordlistError in Hval.
  rewrite (bool_decide_eq_true_2 _ Hwl), (readLinesFromFile_ok _ _ _ Hopen) in Hval.
  cbn [snd] in Hval. eexists. split; [exact Hval|].
  split; [|by apply (getMethods_defaults w config)].
  intros line Hin Hne Hcomment. apply elem_of_catalog. split.
  - by rewrite ToUpper_empty.
  - exists (GoStrings.TrimSpace line). split.
    + apply elem_of_app. right. apply elem_of_app. left.
      unfold wordlistMethods.
      rewrite (bool_decide_eq_true_2 _ Hwl), (readLinesFromFile_ok _ _ _ Hopen).
      simpl. apply list_elem_of_fmap. exists line. split; [done|].
      apply list_elem_of_In, List.filter_In. split; [by apply list_elem_of_In|].
      unfold keptLine. by rewrite (bool_decide_eq_true_2 _ Hne), Hcomment.
    + by rewrite normalized_TrimSpace.
Qed.

Lemma getMethods_contains_wordlist_and_defaults_witness :
  ∃ catalog,
    value (getMethods Examples.mockServer
             (Examples.withWordlist Examples.config "methods.txt")) = (catalog, None) ∧
    "CUSTOM" ∈ catalog ∧ "ANOTHER" ∈ catalog ∧ "TRACE" ∈ catalog ∧ catalog ≠ [].
Proof.
  destruct (getMethods_contains_wordlist_and_defaults Examples.mockServer
              (Examples.withWordlist Examples.config "methods.txt")
              ["GET"; "POST"; "CUSTOM"; "# This is a comment"; "  another "])
    as (catalog & Hval & Hlines & Hdef & Hne).
  - discriminate.
  - reflexivity.
  - exists catalog. split_and!; [done| | | |done].
    + apply (Hlines "CUSTOM"); [|discriminate|reflexivity].
      rewrite !elem_of_cons; tauto.
    + apply (Hlines "  another "); [|discriminate|reflexivity].
      rewrite !elem_of_cons; tauto.
    + apply Hdef. unfold DefaultMethods. rewrite !elem_of_cons; tauto.
Defined.

(** ** Discovery *)

Lemma Header_Get_missing (h : gmap string (list string)) key :
  h !! key = None → Header_Get h key = "".
Proof. unfold Header_Get. by intros ->. Qed.

Lemma getMethodsFromOptions_value w config :
  value (getMethodsFromOptions w config)
  = (discoveryTokens (discovery w config), discoveryError (discovery w config)).
Proof.
  unfold getMethodsFromOptions, discovery. fold (optionsRequest config).
  destruct (bool_decide (URL config = "")); [done|].
  destruct (buildHTTPClient w config) as [e|client]; [done|].
  destruct (http_NewRequest w "OPTIONS" (URL config)) as [e|]; [done|].
  rewrite !value_bind.
  destruct (client_Do w client (optionsRequest config)) as [e|resp]; [done|].
  destruct (decide (RespStatusCode resp = 200)) as [Hs|Hs].
  - rewrite (bool_decide_eq_true_2 _ Hs), bool_decide_eq_false_2 by tauto.
    destruct (bool_decide (Header_Get (RespHeader resp) "Allow" = "")); [done|].
    rewrite value_bind. unfold ret, value. cbn [snd discoveryTokens discoveryError].
    by rewrite trim_fold.
  - rewrite (bool_decide_eq_false_2 _ Hs), bool_decide_eq_true_2 by done. done.
Qed.

Lemma getMethodsFromOptions_warnings w config :
  warnings (trace (getMethodsFromOptions w config)) = [].
Proof.
  unfold getMethodsFromOptions.
  destruct (bool_decide (URL config = "")); [done|].
  destruct (buildHTTPClient w config) as [e|client]; [done|].
  destruct (http_NewRequest w "OPTIONS" (URL config)) as [e|]; [done|].
  rewrite !trace_bind, !warnings_app. simpl.
  destruct (client_Do w client _) as [e|resp]; [done|].
  destruct (bool_decide (RespStatusCode resp ≠ 200)); [done|].
  destruct (bool_decide (Header_Get (RespHeader resp) "Allow" = "")); done.
Qed.

Lemma discoveredMethods_tokens w config :
  discoveredMethods w config = discoveryTokens (discovery w config).
Proof.
  unfold discoveredMethods. rewrite getMethodsFromOptions_value. simpl.
  by destruct (discovery w config).
Qed.

Lemma getMethods_discover_warnings w config methods :
  warnings (trace (getMethods_discover w config methods))
  = discoveryWarning (discovery w config).
Proof.
  unfold getMethods_discover.
  rewrite !trace_bind, !warnings_app, getMethodsFromOptions_warnings.
  rewrite getMethodsFromOptions_value. unfold discoveryWarning.
  destruct (discoveryError (discovery w config)) as [e|]; [done|].
  simpl. rewrite trace_bind, warnings_app.
  by destruct (discoveryTokens (discovery w config)).
Qed.

Lemma getMethods_warnings w config :
  warnings (trace (getMethods w config))
  = match wordlistError w config with
    | Some _ => []
    | None => discoveryWarning (discovery w config)
    end.
Proof.
  unfold getMethods, wordlistError.
  rewrite trace_bind, warnings_app.
  destruct (bool_decide (Wordlist config ≠ "")).
  - destruct (readLinesFromFile w (Wordlist config)) as [wl [e|]];
      cbn [fst snd]; [done|].
    rewrite trace_bind, warnings_app. apply getMethods_discover_warnings.
  - apply getMethods_discover_warnings.
Qed.

Lemma discovery_error_sources w config err :
  discoveryError (discovery w config) = Some err →
  URL config = "" ∨
  buildHTTPClient w config = inl err ∨
  http_NewRequest w "OPTIONS" (URL config) = Some err ∨
  ∃ client, buildHTTPClient w config = inr client ∧
            client_Do w client (optionsRequest config) = inl err.
Proof.
  unfold discovery.
  destruct (bool_decide (URL config = "")) eqn:Hu.
  { apply bool_decide_eq_true in Hu. by left. }
  destruct (buildHTTPClient w config) as [e|client]; simpl.
  { intros [= ->]. right. by left. }
  destruct (http_NewRequest w "OPTIONS" (URL config)) as [e|]; simpl.
  { intros [= ->]. right. right. by left. }
  destruct (client_Do w client (optionsRequest config)) as [e|resp] eqn:Hdo; simpl.
  { intros [= ->]. right. right. right. by exists client. }
  destruct (bool_decide (RespStatusCode resp = 200)); [|done].
  by destruct (bool_decide (Header_Get (RespHeader resp) "Allow" = "")).
Qed.

Lemma discovery_response w config client resp :
  URL config ≠ "" →
  buildHTTPClient w config = inr client →
  http_NewRequest w "OPTIONS" (URL config) = None →
  client_Do w client (optionsRequest config) = inr resp →
  discovery w config =
    if bool_decide (RespStatusCode resp = 200) then
      if bool_decide (Header_Get (RespHeader resp) "Allow" = "") then NoAllow
      else Allowed (Header_Get (RespHeader resp) "Allow")
    else NotOK (RespStatusCode resp).
Proof.
  intros Hu Hc Hr Hd. unfold discovery.
  by rewrite (bool_decide_eq_false_2 _ Hu), Hc, Hr, Hd.
Qed.

(** *** C9 *)

(** C9. When the OPTIONS response has a status other than 200, or status
    200 and no [Allow] header, [getMethodsFromOptions] returns a nil list
    and a nil error, and [getMethods] asks no warning of the logger.  In
    general a warning of [getMethods] comes with a non-nil error of the
    discovery, and such an error is the empty-URL error or the error of
    the client construction, of the request construction or of the
    transport. *)
Theorem getMethodsFromOptions_silent_on_bad_response
    (w : World) (config : Config) (client : Client) (resp : Response) :
  URL config ≠ "" →
  buildHTTPClient w config = inr client →
  http_NewRequest w "OPTIONS" (URL config) = None →
  client_Do w client (optionsRequest config) = inr resp →
  RespStatusCode resp ≠ 200 ∨
    (RespStatusCode resp = 200 ∧ RespHeader resp !! "Allow" = None) →
  value (getMethodsFromOptions w config) = ([], None) ∧
  warnings (trace (getMethods w config)) = [] ∧
  (∀ w' config',
     warnings (trace (getMethods w' config')) ≠ [] →
     ∃ err, (value (getMethodsFromOptions w' config')).2 = Some err ∧
            warnings (trace (getMethods w' config')) =
              [EvLog LevelWarning "Failed to get methods from OPTIONS request: %v"
                     [ArgErr err]]) ∧
  (∀ w' config' err,
     (value (getMethodsFromOptions w' config')).2 = Some err →
     URL config' = "" ∨
     buildHTTPClient w' config' = inl err ∨
     http_NewRequest w' "OPTIONS" (URL config') = Some err ∨
     ∃ client', buildHTTPClient w' config' = inr client' ∧
                client_Do w' client' (optionsRequest config') = inl err).
Proof.
  intros Hu Hc Hr Hd Hshape.
  assert (Hdisc : discoveryError (discovery w config) = None ∧
                  discoveryTokens (discovery w config) = []).
  { rewrite (discovery_response _ _ _ _ Hu Hc Hr Hd).
    destruct Hshape as [Hs|[Hs Ha]].
    - by rewrite (bool_decide_eq_false_2 _ Hs).
    - rewrite (bool_decide_eq_true_2 _ Hs).
      by rewrite (bool_decide_eq_true_2 _ (Header_Get_missing _ _ Ha)). }
  destruct Hdisc as [He Ht]. split_and!.
  - by rewrite getMethodsFromOptions_value, He, Ht.
  - rewrite getMethods_warnings. unfold discoveryWarning. rewrite He.
    by destruct (wordlistError w config).
  - intros w' config'. rewrite getMethods_warnings, getMethodsFromOptions_value.
    unfold discoveryWarning. simpl.
    destruct (wordlistError w' config'); [done|].
    destruct (discoveryError (discovery w' config')) as [e|]; [|done].
    intros _. by exists e.
  - intros w' config' err. rewrite getMethodsFromOptions_value. simpl.
    apply discovery_error_sources.
Qed.

Lemma getMethodsFromOptions_silent_on_bad_response_witness :
  value (getMethodsFromOptions Examples.notFound Examples.config) = ([], None) ∧
  warnings (trace (getMethods Examples.notFound Examples.config)) = [] ∧
  value (getMethodsFromOptions Examples.noAllow Examples.config) = ([], None) ∧
  warnings (trace (getMethods Examples.noAllow Examples.config)) = [].
Proof.
  destruct (getMethodsFromOptions_silent_on_bad_response
              Examples.notFound Examples.config
              {| ClientTimeout := 10000000000; InsecureSkipVerify := false;
                 ClientProxy := None; UseLastResponse := false |}
              {| RespStatusCode := 404; RespStatus := "404 Not Found";
                 RespHeader := ∅; RespBodyBytes := 0; RespBodyErr := None |})
    as (H1 & H2 & _); [discriminate|reflexivity|reflexivity|reflexivity| |].
  { left. discriminate. }
  destruct (getMethodsFromOptions_silent_on_bad_response
              Examples.noAllow Examples.config
              {| ClientTimeout := 10000000000; InsecureSkipVerify := false;
                 ClientProxy := None; UseLastResponse := false |}
              {| RespStatusCode := 200; RespStatus := "200 OK";
                 RespHeader := ∅; RespBodyBytes := 0; RespBodyErr := None |})
    as (H3 & H4 & _); [discriminate|reflexivity|reflexivity|reflexivity| |].
  { right. split; reflexivity. }
  by split_and!.
Defined.

(** *** C6 *)

Lemma logged_app t1 t2 : logged (t1 ++ t2) = logged t1 ++ logged t2.
Proof. apply filter_app. Qed.

Lemma getMethodsFromOptions_logged w config :
  EvLog LevelDebug "Sending OPTIONS request to discover supported methods" [] ::
    logged (trace (getMethodsFromOptions w config))
  = discoveryLog config (discovery w config).
Proof.
  unfold getMethodsFromOptions, discovery, discoveryLog.
  fold (optionsRequest config).
  destruct (bool_decide (URL config = "")); [done|].
  destruct (buildHTTPClient w config) as [e|client]; [done|].
  destruct (http_NewRequest w "OPTIONS" (URL config)) as [e|]; [done|].
  rewrite !trace_bind, !logged_app.
  destruct (client_Do w client (optionsRequest config)) as [e|resp]; [done|].
  destruct (decide (RespStatusCode resp = 200)) as [Hs|Hs].
  - rewrite (bool_decide_eq_true_2 _ Hs), bool_decide_eq_false_2 by tauto.
    by destruct (bool_decide (Header_Get (RespHeader resp) "Allow" = "")).
  - by rewrite (bool_decide_eq_false_2 _ Hs), bool_decide_eq_true_2.
Qed.

(** Everything [getMethods] logs when discovery ends without an error and
    without tokens: nothing above the debug level about the discovery. *)
Lemma getMethods_logged_silent w config :
  wordlistError w config = None →
  discoveryError (discovery w config) = None →
  discoveryTokens (discovery w config) = [] →
  logged (trace (getMethods w config))
  = catalogLog w config ++ discoveryLog config (discovery w config).
Proof.
  intros Hwl He Ht.
  assert (Hd : ∀ methods,
    logged (trace (getMethods_discover w config methods))
    = discoveryLog config (discovery w config)).
  { intros methods. unfold getMethods_discover.
    rewrite !trace_bind, !logged_app, getMethodsFromOptions_value, He, Ht.
    rewrite <- getMethodsFromOptions_logged. simpl. by rewrite !app_nil_r. }
  unfold getMethods, catalogLog, wordlistMethods, wordlistError in *.
  rewrite trace_bind, logged_app.
  destruct (bool_decide (Wordlist config ≠ "")).
  - destruct (readLinesFromFile w (Wordlist config)) as [wl [e|]];
      cbn [fst snd] in *; [done|].
    by rewrite trace_bind, logged_app, Hd.
  - by rewrite Hd.
Qed.

(** C6 (as the code has it). [getMethods] returns an error exactly when a
    wordlist path is configured and reading it fails.  Otherwise it returns
    without error the catalog built from the built-in list, the wordlist and
    whatever discovery contributed; a discovery that fails in any way
    contributes nothing.  The logger is asked for a warning exactly when
    discovery ends with an error (empty URL, client construction, request
    construction, transport); a status other than 200 and a missing [Allow]
    header are not warned about: each is logged once, at debug level, and
    the other lines [getMethods] logs in that case are the ones it logs on
    every run (the size of the built-in list, the wordlist count, the two
    debug lines that announce the request). *)
Theorem getMethods_fatal_only_on_wordlist (w : World) (config : Config) :
  ((value (getMethods w config)).2 ≠ None ↔
     Wordlist config ≠ "" ∧ (readLinesFromFile w (Wordlist config)).2 ≠ None) ∧
  match wordlistError w config with
  | Some err =>
      value (getMethods w config)
      = ([], Some (Errorf_w "failed to read wordlist" err))
  | None =>
      let sources := DefaultMethods ++ wordlistMethods w config in
      let warning err :=
        [EvLog LevelWarning "Failed to get methods from OPTIONS request: %v"
               [ArgErr err]] in
      match discovery w config with
      | Allowed allow =>
          value (getMethods w config)
          = (catalogOf w (sources ++ (GoStrings.TrimSpace <$> GoStrings.Split allow ",")),
             None) ∧
          warnings (trace (getMethods w config)) = []
      | NotOK status =>
          value (getMethods w config) = (catalogOf w sources, None) ∧
          warnings (trace (getMethods w config)) = [] ∧
          logged (trace (getMethods w config))
          = catalogLog w config ++
            [EvLog LevelDebug "Sending OPTIONS request to discover supported methods" [];
             EvLog LevelDebug "Sending OPTIONS request with timeout of %d seconds"
                   [ArgInt (Timeout config)];
             EvLog LevelDebug "OPTIONS request returned status code %d"
                   [ArgInt status]]
      | NoAllow =>
          value (getMethods w config) = (catalogOf w sources, None) ∧
          warnings (trace (getMethods w config)) = [] ∧
          logged (trace (getMethods w config))
          = catalogLog w config ++
            [EvLog LevelDebug "Sending OPTIONS request to discover supported methods" [];
             EvLog LevelDebug "Sending OPTIONS request with timeout of %d seconds"
                   [ArgInt (Timeout config)];
             EvLog LevelDebug "OPTIONS request did not return Allow header" []]
      | NoURL =>
          value (getMethods w config) = (catalogOf w sources, None) ∧
          warnings (trace (getMethods w config))
          = warning "no URL provided for OPTIONS request"
      | ClientError err | RequestError err | TransportError err =>
          value (getMethods w config) = (catalogOf w sources, None) ∧
          warnings (trace (getMethods w config)) = warning err
      end
  end.
Proof.
  pose proof (getMethods_value w config) as Hval.
  pose proof (getMethods_warnings w config) as Hwarn.
  rewrite discoveredMethods_tokens in Hval.
  split.
  - rewrite Hval. unfold wordlistError.
    destruct (bool_decide (Wordlist config ≠ "")) eqn:Hw.
    + apply bool_decide_eq_true in Hw.
      destruct ((readLinesFromFile w (Wordlist config)).2); simpl.
      * split; [by intros _|done].
      * split; [done|]. by intros [_ ?].
    + apply bool_decide_eq_false in Hw. simpl. split; [done|]. by intros [? _].
  - pose proof (getMethods_logged_silent w config) as Hlog.
    destruct (wordlistError w config) as [e|]; [done|].
    cbv zeta. unfold catalogOf, discoveryWarning in *.
    destruct (discovery w config);
      cbn [discoveryTokens discoveryError discoveryLog] in *;
      rewrite ?app_nil_r, ?app_assoc in *; try done;
      (split_and!; [done|done|by apply Hlog]).
Qed.

(** Discovery answered with 404: the failure is logged at debug level and
    no warning is asked of the logger. *)
Lemma getMethods_bad_status_not_warned :
  discovery Examples.notFound Examples.config = NotOK 404 ∧
  (value (getMethods Examples.notFound Examples.config)).2 = None ∧
  warnings (trace (getMethods Examples.notFound Examples.config)) = [] ∧
  printed {| LoggerVerbose := true; LoggerQuiet := false |}
          (trace (getMethods Examples.notFound Examples.config))
  = [ EvLog LevelDebug "Using %d default HTTP methods" [ArgInt 32];
      EvLog LevelDebug "Sending OPTIONS request to discover supported methods" [];
      EvLog LevelDebug "Sending OPTIONS request with timeout of %d seconds" [ArgInt 10];
      EvLog LevelDebug "OPTIONS request returned status code %d" [ArgInt 404] ].
Proof. split_and!; reflexivity. Qed.

(** ** Safe mode *)

Lemma DangerousMethods_lookup m :
  DangerousMethods !! m = if bool_decide (m ∈ dangerous) then Some true else None.
Proof.
  destruct (decide (m = "DELETE")) as [->|H1]; [reflexivity|].
  destruct (decide (m = "COPY")) as [->|H2]; [reflexivity|].
  destruct (decide (m = "PUT")) as [->|H3]; [reflexivity|].
  destruct (decide (m = "PATCH")) as [->|H4]; [reflexivity|].
  destruct (decide (m = "UNCHECKOUT")) as [->|H5]; [reflexivity|].
  unfold DangerousMethods, dangerous.
  rewrite !lookup_insert_ne, lookup_empty by done.
  rewrite bool_decide_eq_false_2; [done|].
  rewrite !elem_of_cons, elem_of_nil. tauto.
Qed.

Lemma index_bool_Dangerous m :
  index_bool DangerousMethods m = bool_decide (m ∈ dangerous).
Proof.
  unfold index_bool. rewrite DangerousMethods_lookup.
  by destruct (bool_decide (m ∈ dangerous)).
Qed.

Lemma dom_DangerousMethods m : m ∈ dom DangerousMethods ↔ m ∈ dangerous.
Proof.
  rewrite elem_of_dom, DangerousMethods_lookup.
  destruct (bool_decide (m ∈ dangerous)) eqn:H.
  - apply bool_decide_eq_true in H. split; [done|]. by eexists.
  - apply bool_decide_eq_false in H. split; [by intros [? ?]|done].
Qed.

Lemma safeMethods_fold methods acc :
  fold_left (λ safeMethods method,
               if negb (index_bool DangerousMethods method)
               then safeMethods ++ [method] else safeMethods) methods acc
  = acc ++ List.filter (λ m, negb (index_bool DangerousMethods m)) methods.
Proof.
  revert acc. induction methods as [|m ms IH]; intros acc; simpl.
  - by rewrite app_nil_r.
  - rewrite IH. destruct (negb (index_bool DangerousMethods m)); [|done].
    by rewrite <- app_assoc.
Qed.

Lemma safeMethods_filter methods :
  safeMethods methods
  = List.filter (λ m, negb (bool_decide (m ∈ dangerous))) methods.
Proof.
  unfold safeMethods. rewrite safeMethods_fold. simpl.
  apply List.filter_ext. intros m. by rewrite index_bool_Dangerous.
Qed.

Lemma elem_of_safeMethods methods m :
  m ∈ safeMethods methods ↔ m ∈ methods ∧ m ∉ dangerous.
Proof.
  rewrite safeMethods_filter, !list_elem_of_In, List.filter_In.
  rewrite negb_true_iff, bool_decide_eq_false. by rewrite list_elem_of_In.
Qed.

Lemma filter_sublist {A} (p : A → bool) (l : list A) : sublist (List.filter p l) l.
Proof.
  induction l as [|x l IH]; simpl; [constructor|].
  destruct (p x); by constructor.
Qed.

Lemma filter_idemp {A} (p : A → bool) (l : list A) :
  List.filter p (List.filter p l) = List.filter p l.
Proof.
  induction l as [|x l IH]; simpl; [done|].
  destruct (p x) eqn:Hx; simpl; [|done]. by rewrite Hx, IH.
Qed.

Lemma occurrences_filter (p : string → bool) m l :
  occurrences m (List.filter p l) = if p m then occurrences m l else 0%nat.
Proof.
  unfold occurrences. induction l as [|x l IH]; simpl; [by destruct (p m)|].
  destruct (p x) eqn:Hx; simpl.
  - destruct (bool_decide (x = m)) eqn:Hxm; simpl; rewrite IH.
    + apply bool_decide_eq_true in Hxm. subst x. by rewrite Hx.
    + done.
  - rewrite IH. destruct (bool_decide (x = m)) eqn:Hxm; [|done].
    apply bool_decide_eq_true in Hxm. subst x. by rewrite Hx.
Qed.

(** *** C5 *)

(** C5. The safe-mode filter is idempotent; its result is a sub-sequence of
    the catalog (so a subset, in the catalog's order); it removes exactly
    the members of [DangerousMethods] and keeps every other method as often
    as it occurred; with [SafeOnly] off the catalog is handed on unchanged,
    with it on the filtered catalog is. *)
Theorem safeMethods_idempotent_subset (C : list string) :
  safeMethods (safeMethods C) = safeMethods C ∧
  safeMethods C ⊆ C ∧
  sublist (safeMethods C) C ∧
  safeMethods C = List.filter (λ m, negb (bool_decide (m ∈ dom DangerousMethods))) C ∧
  (∀ m, m ∈ safeMethods C ↔ m ∈ C ∧ m ∉ dom DangerousMethods) ∧
  (∀ m, occurrences m (safeMethods C)
        = if bool_decide (m ∈ dom DangerousMethods) then 0%nat else occurrences m C) ∧
  (∀ config, value (filterMethods config C)
             = if SafeOnly config then safeMethods C else C).
Proof.
  assert (Hdom : safeMethods C
    = List.filter (λ m, negb (bool_decide (m ∈ dom DangerousMethods))) C).
  { rewrite safeMethods_filter. apply List.filter_ext. intros m.
    f_equal. apply bool_decide_ext. by rewrite dom_DangerousMethods. }
  split_and!.
  - by rewrite !safeMethods_filter, filter_idemp.
  - intros m [? _]%elem_of_safeMethods. done.
  - rewrite safeMethods_filter. apply filter_sublist.
  - done.
  - intros m. by rewrite elem_of_safeMethods, dom_DangerousMethods.
  - intros m. rewrite Hdom, occurrences_filter.
    by destruct (bool_decide (m ∈ dom DangerousMethods)).
  - intros config. unfold filterMethods. by destruct (SafeOnly config).
Qed.

(** ** HTTP client factory *)

Lemma wrap64_small z : - 2 ^ 63 ≤ z < 2 ^ 63 → wrap64 z = z.
Proof. intros H. unfold wrap64. rewrite Z.mod_small; lia. Qed.

Lemma buildHTTPClient_ClientTimeout w config client :
  buildHTTPClient w config = inr client →
  ClientTimeout client
  = wrap64 ((if 0 <? Timeout config then Timeout config else 10) * Second).
Proof.
  unfold buildHTTPClient.
  destruct (bool_decide (Proxy config ≠ "")).
  - destruct (url_Parse w (Proxy config)); [done|]. by intros [= <-].
  - by intros [= <-].
Qed.

(** *** C8 *)

(** C8 (as the code has it). The client [buildHTTPClient] returns has a
    timeout of 10 seconds when the configured timeout is zero or negative,
    and of the configured number of seconds when that is positive and at
    most 9223372036, the largest number of whole seconds a [time.Duration]
    holds.  In every case the timeout is the 64-bit product of the chosen
    number of seconds and [time.Second]. *)
Theorem buildHTTPClient_timeout (w : World) (config : Config) (client : Client) :
  buildHTTPClient w config = inr client →
  (Timeout config ≤ 0 → ClientTimeout client = 10 * Second) ∧
  (0 < Timeout config ≤ 9223372036 →
   ClientTimeout client = Timeout config * Second) ∧
  ClientTimeout client
  = wrap64 ((if 0 <? Timeout config then Timeout config else 10) * Second).
Proof.
  intros Hc. rewrite (buildHTTPClient_ClientTimeout _ _ _ Hc).
  split_and!; [| |done].
  - intros Ht. destruct (Z.ltb_spec 0 (Timeout config)); [lia|]. done.
  - intros Ht. destruct (Z.ltb_spec 0 (Timeout config)); [|lia].
    apply wrap64_small. unfold Second. lia.
Qed.

Lemma buildHTTPClient_timeout_witness :
  ∃ client,
    buildHTTPClient Examples.mockServer (Examples.withTimeout Examples.config 30)
    = inr client ∧
    ClientTimeout client = 30 * Second.
Proof.
  eexists. split; [reflexivity|].
  refine (proj1 (proj2 (buildHTTPClient_timeout Examples.mockServer
                          (Examples.withTimeout Examples.config 30) _ eq_refl)) _).
  simpl. lia.
Defined.

(** A configured timeout of 9223372037 seconds: the product with
    [time.Second] leaves the 64-bit range and the client's timeout is a
    negative duration, not the configured value. *)
Lemma buildHTTPClient_timeout_wraps :
  ∃ client,
    buildHTTPClient Examples.mockServer
      (Examples.withTimeout Examples.config 9223372037) = inr client ∧
    ClientTimeout client = -9223372036709551616 ∧
    ClientTimeout client ≠ 9223372037 * Second.
Proof. eexists. split_and!; [reflexivity|reflexivity|discriminate]. Qed.

(** ** [testMethod] *)

Lemma testMethod_value w client targetURL method headers cookies results :
  value (testMethod w client targetURL method headers cookies results)
  = match probeOutcome w client targetURL method headers cookies with
    | Some r => <[method := r]> results
    | None => results
    end.
Proof.
  unfold testMethod, probeOutcome.
  destruct (http_NewRequest w method targetURL); [done|].
  rewrite !value_bind.
  destruct (client_Do w client _) as [e|resp]; [done|].
  destruct (readLimited resp) as [body [e|]]; done.
Qed.

Lemma testMethod_requests w client targetURL method headers cookies results :
  requests (trace (testMethod w client targetURL method headers cookies results))
  = match http_NewRequest w method targetURL with
    | Some _ => []
    | None => [buildRequest targetURL method headers cookies]
    end.
Proof.
  unfold testMethod.
  destruct (http_NewRequest w method targetURL); [done|].
  rewrite !trace_bind, !requests_app. simpl.
  destruct (client_Do w client _) as [e|resp]; [done|].
  destruct (readLimited resp) as [body [e|]]; done.
Qed.

(** *** C7 *)

(** C7. When the request for a method is constructed and [client.Do] fails
    with an error, [testMethod] stores exactly
    [Result{StatusCode: 0, Length: 0, Reason: err.Error()}] under the method
    and leaves every other entry alone; it calls [client.Do] once (no
    retry); it logs at debug level only; and the tail of [runSingleProbe]
    returns an error only if the JSON export itself fails, so with no JSON
    file configured the run returns nil. *)
Theorem testMethod_transport_failure
    (w : World) (client : Client) (targetURL method : string)
    (headers : gmap string (list string)) (cookies : gmap string string)
    (results : gmap string Result) (err : error) :
  http_NewRequest w method targetURL = None →
  client_Do w client (buildRequest targetURL method headers cookies) = inl err →
  let probe := testMethod w client targetURL method headers cookies results in
  value probe !! method = Some {| StatusCode := 0; Length := 0; Reason := err |} ∧
  value probe = <[method := {| StatusCode := 0; Length := 0; Reason := err |}]> results ∧
  requests (trace probe) = [buildRequest targetURL method headers cookies] ∧
  trace probe =
    [ EvLog LevelDebug "Testing method: %s" [ArgStr method];
      EvDo client (buildRequest targetURL method headers cookies);
      EvLog LevelDebug "Request failed for method %s: %v" [ArgStr method; ArgErr err];
      EvLock; EvUnlock ] ∧
  (∀ config e,
     (value (reportResults w config (value probe))).2 = Some e →
     JSONFile config ≠ "" ∧
     ∃ e', os_WriteFile w (JSONFile config) (value probe) = Some e' ∧
           e = Errorf_w "failed to export results to JSON" e') ∧
  (∀ config, JSONFile config = "" →
     (value (reportResults w config (value probe))).2 = None).
Proof.
  intros Hreq Hdo probe.
  assert (Hval : value probe
    = <[method := {| StatusCode := 0; Length := 0; Reason := err |}]> results).
  { unfold probe. rewrite testMethod_value. unfold probeOutcome.
    by rewrite Hreq, Hdo. }
  split_and!.
  - rewrite Hval. apply lookup_insert_eq.
  - done.
  - unfold probe. by rewrite testMethod_requests, Hreq.
  - unfold probe, testMethod. by rewrite Hreq, Hdo.
  - intros config e. unfold reportResults, exportToJSON.
    destruct (bool_decide (JSONFile config ≠ "")) eqn:Hj; [|done].
    apply bool_decide_eq_true in Hj.
    destruct (os_WriteFile w (JSONFile config) (value probe)) as [e'|]; [|done].
    intros [= <-]. split; [done|]. by exists e'.
  - intros config Hj. unfold reportResults.
    rewrite bool_decide_eq_false_2; [done|]. by intros ?.
Qed.

Lemma testMethod_transport_failure_witness :
  value (testMethod Examples.unreachable
           {| ClientTimeout := 10 * Second; InsecureSkipVerify := false;
              ClientProxy := None; UseLastResponse := false |}
           "http://127.0.0.1:8080" "GET" ∅ ∅ ∅) !! "GET"
  = Some {| StatusCode := 0; Length := 0;
            Reason := "dial tcp: connection refused" |}.
Proof.
  apply (testMethod_transport_failure Examples.unreachable
           {| ClientTimeout := 10 * Second; InsecureSkipVerify := false;
              ClientProxy := None; UseLastResponse := false |}
           "http://127.0.0.1:8080" "GET" ∅ ∅ ∅ "dial tcp: connection refused");
    reflexivity.
Defined.

(** ** The dispatch loop *)

Module DispatchFacts.
Import Dispatch DispatchInv.

Lemma count_app p l1 l2 : count p (l1 ++ l2) = (count p l1 + count p l2)%nat.
Proof. unfold count. by rewrite List.filter_app, length_app. Qed.

Lemma count_cons p wk l :
  count p (wk :: l) = ((if p (pc wk) then 1 else 0) + count p l)%nat.
Proof. unfold count. simpl. by destruct (p (pc wk)). Qed.

Lemma count_nil p : count p [] = 0%nat.
Proof. done. Qed.

Lemma insert_middle {A} (l1 : list A) x y l2 :
  <[length l1 := y]> (l1 ++ x :: l2) = l1 ++ y :: l2.
Proof. induction l1 as [|z l1 IH]; simpl; [done|]. by rewrite IH. Qed.

Lemma count_all_false p l :
  Forall (λ wk, p (pc wk) = false) l → count p l = 0%nat.
Proof.
  induction 1 as [|wk l Hwk _ IH]; [done|]. by rewrite count_cons, Hwk, IH.
Qed.

Section Facts.

Variable w : World.
Variable client : Client.
Variable targetURL : string.
Variable headers : gmap string (list string).
Variable cookies : gmap string string.
Variable capacity : nat.
Variable methods : list string.

Local Abbreviation Inv := (DispatchInv.Inv w client targetURL headers cookies capacity methods).
Local Abbreviation step := (Dispatch.step w client targetURL headers cookies capacity).
Local Abbreviation workerStep := (Dispatch.workerStep w client targetURL headers cookies capacity).
Local Abbreviation run := (Dispatch.run w client targetURL headers cookies capacity).
Local Abbreviation outcome := (DispatchInv.outcome w client targetURL headers cookies).
Local Abbreviation hasStored := (DispatchInv.hasStored w targetURL).
Local Abbreviation pcConsistent := (DispatchInv.pcConsistent w client targetURL headers cookies).
Local Abbreviation constructs := (Dispatch.constructs w targetURL).

Lemma outcome_constructs m :
  constructs m = bool_decide (is_Some (outcome m)).
Proof.
  unfold Dispatch.constructs, DispatchInv.outcome, probeOutcome.
  destruct (http_NewRequest w m targetURL).
  - rewrite bool_decide_eq_false_2; [done|]. by intros [? ?].
  - rewrite bool_decide_eq_true_2; [done|].
    destruct (client_Do w client _); by eexists.
Qed.

Lemma outcome_Some_constructs m r : outcome m = Some r → constructs m = true.
Proof.
  intros H. rewrite outcome_constructs, bool_decide_eq_true_2; [done|].
  by exists r.
Qed.

Lemma outcome_None_constructs m : outcome m = None → constructs m = false.
Proof.
  intros H. rewrite outcome_constructs, bool_decide_eq_false_2; [done|].
  rewrite H. by intros [? ?].
Qed.

Lemma Inv_initial : Inv (initial methods).
Proof.
  split; simpl; try done. lia.
Qed.

Lemma hasStored_filter_update l1 (m : string) p p' l2 :
  hasStored {| method := m; pc := p |} = hasStored {| method := m; pc := p' |} →
  method <$> List.filter hasStored (l1 ++ {| method := m; pc := p' |} :: l2)
  = method <$> List.filter hasStored (l1 ++ {| method := m; pc := p |} :: l2).
Proof.
  intros H. rewrite !List.filter_app. simpl. rewrite H.
  destruct (hasStored {| method := m; pc := p' |}); by rewrite !fmap_app.
Qed.

(** Facts about a list of workers split around one of them. *)
Local Ltac split_workers :=
  repeat match goal with
         | H : context [count _ (_ ++ _)] |- _ => rewrite count_app in H
         | H : context [count _ (_ :: _)] |- _ => rewrite count_cons in H
         | |- context [count _ (_ ++ _)] => rewrite count_app
         | |- context [count _ (_ :: _)] => rewrite count_cons
         end; simpl in *.

Lemma workerStep_inv s i wk a s' :
  Inv s → workers s !! i = Some wk → workerStep s i wk a = Some s' → Inv s'.
Proof.
  intros HI Hi Hstep.
  apply list_elem_of_split_length in Hi as (l1 & l2 & Hw & ->).
  destruct s as [mn g sm mx ws rs st]. simpl in Hw. subst ws.
  destruct wk as [m p].
  assert (Hmain' : ∀ p', p ≠ Done →
    match mn with
    | Spawning rest =>
        (method <$> l1 ++ {| method := m; pc := p' |} :: l2) ++ rest = methods
    | Joined =>
        method <$> l1 ++ {| method := m; pc := p' |} :: l2 = methods ∧
        Forall (λ wk, pc wk = Done) (l1 ++ {| method := m; pc := p' |} :: l2)
    end).
  { intros p' Hp. pose proof (inv_main _ _ _ _ _ _ _ _ HI) as Hm. simpl in Hm.
    destruct mn as [rest|].
    - by rewrite fmap_app, fmap_cons in *.
    - destruct Hm as [_ HF]. apply Forall_app in HF as [_ HF].
      apply Forall_cons in HF as [HF _]. by destruct Hp. }
  assert (Hpc' : ∀ p', pcConsistent {| method := m; pc := p' |} →
    Forall pcConsistent (l1 ++ {| method := m; pc := p' |} :: l2)).
  { intros p' Hp. pose proof (inv_pc _ _ _ _ _ _ _ _ HI) as HF. simpl in HF.
    apply Forall_app in HF as [H1 HF]. apply Forall_cons in HF as [_ H2].
    apply Forall_app. split; [done|]. by apply Forall_cons. }
  assert (Hself : pcConsistent {| method := m; pc := p |}).
  { pose proof (inv_pc _ _ _ _ _ _ _ _ HI) as HF. simpl in HF.
    apply Forall_app in HF as [_ HF]. by apply Forall_cons in HF as [? _]. }
  destruct HI as [Hsem Hcap Hwg Hmx _ _ Hst Hres]. simpl in *.
  unfold Dispatch.workerStep, moveTo in Hstep. simpl in Hstep.
  rewrite ?insert_middle in Hstep.
  destruct p, a; try discriminate; simpl in Hstep.
  - (* Acquire *)
    destruct (sm <? capacity)%nat eqn:Hlt; [|discriminate].
    apply Nat.ltb_lt in Hlt. injection Hstep as <-. rewrite ?insert_middle.
    split; simpl.
    1: split_workers; lia.
    1: lia.
    1: split_workers; lia.
    1: split_workers; lia.
    1: by apply Hmain'.
    1: by apply Hpc'.
    2: done.
    by rewrite (hasStored_filter_update _ _ Spawned).
  - (* Probe *)
    fold (outcome m) in Hstep.
    destruct (outcome m) as [r|] eqn:Hout; injection Hstep as <-;
      rewrite ?insert_middle.
    + split; simpl; [split_workers; lia|lia|split_workers; lia|split_workers; lia
                    |by apply Hmain'|by apply Hpc'| |done].
      by rewrite (hasStored_filter_update _ _ InFlight).
    + split; simpl; [split_workers; lia|lia|split_workers; lia|split_workers; lia
                    |by apply Hmain'|by apply Hpc'| |done].
      rewrite (hasStored_filter_update _ _ InFlight); [done|].
      unfold DispatchInv.hasStored. simpl.
      by rewrite (outcome_None_constructs _ Hout).
  - (* Lock *)
    destruct mx; [discriminate|]. injection Hstep as <-. rewrite ?insert_middle.
    split; simpl; [split_workers; lia|lia|split_workers; lia|split_workers; lia
                  |by apply Hmain'|by apply Hpc'| |done].
    by rewrite (hasStored_filter_update _ _ (WantLock r)).
  - (* Store *)
    injection Hstep as <-. rewrite ?insert_middle. unfold DispatchInv.pcConsistent in Hself. simpl in Hself.
    split; simpl; [split_workers; lia|lia|split_workers; lia|split_workers; lia
                  |by apply Hmain'
                  |apply Hpc'; unfold DispatchInv.pcConsistent; simpl;
                   by apply (outcome_Some_constructs _ r)| |].
    + rewrite List.filter_app in *. simpl in *.
      unfold DispatchInv.hasStored in *. simpl in *.
      rewrite (outcome_Some_constructs _ _ Hself). simpl.
      rewrite fmap_app, fmap_cons in *. simpl.
      etrans; [symmetry; apply Permutation_cons_append|].
      etrans; [|apply Permutation_middle].
      by constructor.
    + intros m0. destruct (decide (m0 = m)) as [->|Hne].
      * rewrite lookup_insert_eq, bool_decide_eq_true_2; [done|].
        apply elem_of_app. right. by apply list_elem_of_singleton.
      * rewrite lookup_insert_ne by done. rewrite Hres.
        apply (f_equal (λ b : bool, if b then outcome m0 else None)).
        apply bool_decide_ext. rewrite elem_of_app, list_elem_of_singleton. tauto.
  - (* Unlock *)
    injection Hstep as <-. rewrite ?insert_middle.
    split; simpl; [split_workers; lia|lia|split_workers; lia
                  |split_workers; destruct mx; lia
                  |by apply Hmain'|by apply Hpc'| |done].
    by rewrite (hasStored_filter_update _ _ Stored).
  - (* Release *)
    destruct sm as [|n]; [discriminate|]. injection Hstep as <-. rewrite ?insert_middle.
    split; simpl; [split_workers; lia|lia|split_workers; lia|split_workers; lia
                  |by apply Hmain'|by apply Hpc'| |done].
    by rewrite (hasStored_filter_update _ _ Returned).
  - (* WgDone *)
    destruct g as [|n]; [discriminate|]. injection Hstep as <-. rewrite ?insert_middle.
    split; simpl; [split_workers; lia|lia|split_workers; lia|split_workers; lia
                  |by apply Hmain'|by apply Hpc'| |done].
    by rewrite (hasStored_filter_update _ _ Released).
Qed.

Lemma count_zero p l :
  count p l = 0%nat → Forall (λ wk, p (pc wk) = false) l.
Proof.
  induction l as [|wk l IH]; [constructor|].
  rewrite count_cons. destruct (p (pc wk)) eqn:Hp; [lia|].
  intros H. constructor; [done|]. apply IH. lia.
Qed.

Lemma count_pos p l j wk :
  l !! j = Some wk → p (pc wk) = true → (0 < count p l)%nat.
Proof.
  intros Hj Hp. apply list_elem_of_split_length in Hj as (l1 & l2 & -> & _).
  rewrite count_app, count_cons, Hp. lia.
Qed.

Lemma step_inv s a s' : Inv s → step s a = Some s' → Inv s'.
Proof.
  intros HI Hstep. destruct a as [| |i j|i a]; simpl in Hstep.
  - (* ASpawn *)
    destruct s as [mn g sm mx ws rs st]. simpl in Hstep.
    destruct mn as [[|m rest]|]; try discriminate. injection Hstep as <-.
    destruct HI as [Hsem Hcap Hwg Hmx Hmain Hpc Hst Hres]. simpl in *.
    split; simpl.
    + rewrite count_app, count_cons, count_nil. simpl. lia.
    + done.
    + rewrite count_app, count_cons, count_nil. simpl. lia.
    + rewrite count_app, count_cons, count_nil. simpl. lia.
    + by rewrite fmap_app, <- app_assoc.
    + apply Forall_app. split; [done|]. by repeat constructor.
    + rewrite List.filter_app. simpl. by rewrite app_nil_r.
    + done.
  - (* AWait *)
    destruct s as [mn g sm mx ws rs st]. simpl in Hstep.
    destruct mn as [[|m rest]|]; try discriminate.
    destruct g; [|discriminate]. injection Hstep as <-.
    destruct HI as [Hsem Hcap Hwg Hmx Hmain Hpc Hst Hres]. simpl in *.
    split; simpl; try done. rewrite app_nil_r in Hmain. split; [done|].
    symmetry in Hwg. apply count_zero in Hwg.
    eapply Forall_impl; [exact Hwg|]. intros wk. simpl. by destruct (pc wk).
  - (* AHandOff: excluded, a receiver would hold a slot of an empty channel *)
    destruct capacity eqn:Hcap0; [|discriminate].
    destruct (workers s !! i) as [wi|]; [|discriminate].
    destruct (workers s !! j) as [wj|] eqn:Hj; [|discriminate].
    destruct (pc wi); try discriminate.
    destruct (pc wj) eqn:Hpj; try discriminate.
    pose proof (inv_cap _ _ _ _ _ _ _ _ HI) as Hcap.
    pose proof (inv_sem _ _ _ _ _ _ _ _ HI) as Hsem.
    pose proof (count_pos holdsSlot _ _ _ Hj) as Hpos.
    rewrite Hpj in Hpos. specialize (Hpos eq_refl). lia.
  - destruct (workers s !! i) as [wk|] eqn:Hi; [|discriminate].
    by apply (workerStep_inv s i wk a).
Qed.

Lemma run_inv schedule : ∀ s s', Inv s → run s schedule = Some s' → Inv s'.
Proof.
  induction schedule as [|a schedule IH]; intros s s' HI Hrun; simpl in Hrun.
  - by injection Hrun as <-.
  - destruct (step s a) as [s1|] eqn:Hstep; [|discriminate].
    apply (IH s1); [|done]. by apply (step_inv s a).
Qed.

Lemma reachable_inv s :
  reachable w client targetURL headers cookies capacity methods s → Inv s.
Proof. intros [schedule Hrun]. apply (run_inv schedule _ _ Inv_initial Hrun). Qed.

Lemma run_app schedule1 schedule2 s :
  run s (schedule1 ++ schedule2)
  = match run s schedule1 with
    | Some s1 => run s1 schedule2
    | None => None
    end.
Proof.
  revert s. induction schedule1 as [|a sch IH]; intros s; simpl; [done|].
  destruct (step s a); [apply IH|done].
Qed.

(** In-flight probes hold a slot, so they are bounded by the buffered
    elements of the channel. *)
Lemma count_inTestMethod_le l :
  (count inTestMethod l ≤ count holdsSlot l)%nat.
Proof.
  induction l as [|wk l IH]; [done|]. rewrite !count_cons.
  destruct (pc wk); simpl; lia.
Qed.

(** A worker that returned from [testMethod] can always take its element
    back out of the channel. *)
Lemma release_enabled s i wk :
  Inv s → workers s !! i = Some wk → pc wk = Returned →
  is_Some (step s (AWorker i Release)).
Proof.
  intros HI Hi Hp. simpl. rewrite Hi. unfold Dispatch.workerStep. rewrite Hp.
  pose proof (inv_sem _ _ _ _ _ _ _ _ HI) as Hsem.
  pose proof (count_pos holdsSlot _ _ _ Hi) as Hpos.
  rewrite Hp in Hpos. specialize (Hpos eq_refl).
  destruct (semaphore s); [lia|]. by eexists.
Qed.

(** *** Consequences of the invariant *)

Lemma stored_methods_done l :
  Forall (λ wk, pc wk = Done) l →
  method <$> List.filter hasStored l = List.filter constructs (method <$> l).
Proof.
  induction 1 as [|wk l Hwk _ IH]; [done|].
  rewrite fmap_cons. cbn [List.filter]. rewrite <- IH.
  unfold DispatchInv.hasStored at 1. rewrite Hwk. simpl.
  by destruct (constructs (method wk)).
Qed.

Lemma stores_construct s m : Inv s → m ∈ stores s → constructs m = true.
Proof.
  intros HI Hm. rewrite (inv_stores _ _ _ _ _ _ _ _ HI) in Hm.
  apply list_elem_of_fmap in Hm as (wk & -> & Hwk).
  apply list_elem_of_In, List.filter_In in Hwk as [_ Hwk].
  unfold DispatchInv.hasStored in Hwk. by apply andb_true_iff in Hwk as [_ ?].
Qed.

Lemma results_lookup s m :
  Inv s → results s !! m = if bool_decide (m ∈ stores s) then outcome m else None.
Proof. intros HI. apply (inv_results _ _ _ _ _ _ _ _ HI). Qed.

Lemma dom_results s : Inv s → dom (results s) = list_to_set (stores s).
Proof.
  intros HI. apply set_eq. intros m.
  rewrite elem_of_dom, elem_of_list_to_set, (results_lookup s m HI).
  destruct (decide (m ∈ stores s)) as [Hm|Hm].
  - rewrite (bool_decide_eq_true_2 _ Hm). split; [done|]. intros _.
    pose proof (stores_construct s m HI Hm) as Hc.
    rewrite outcome_constructs in Hc. by apply bool_decide_eq_true in Hc.
  - rewrite (bool_decide_eq_false_2 _ Hm). split; [by intros [? ?]|done].
Qed.

Lemma joined_stores s :
  Inv s → main s = Joined → stores s ≡ₚ List.filter constructs methods.
Proof.
  intros HI Hj. pose proof (inv_main _ _ _ _ _ _ _ _ HI) as Hm.
  rewrite Hj in Hm. destruct Hm as [Hms HF].
  rewrite (inv_stores _ _ _ _ _ _ _ _ HI), (stored_methods_done _ HF).
  by rewrite Hms.
Qed.

Lemma occurrences_NoDup m l :
  NoDup l → occurrences m l = if bool_decide (m ∈ l) then 1%nat else 0%nat.
Proof.
  unfold occurrences. induction 1 as [|x l Hx Hnd IH]; [done|]. simpl.
  destruct (decide (x = m)) as [->|Hne].
  - rewrite (bool_decide_eq_true_2 (m = m)) by done. simpl. rewrite IH.
    rewrite (bool_decide_eq_false_2 _ Hx).
    rewrite bool_decide_eq_true_2; [done|]. by left.
  - rewrite (bool_decide_eq_false_2 _ Hne). rewrite IH.
    apply (f_equal (λ b : bool, if b then 1%nat else 0%nat)).
    apply bool_decide_ext. rewrite elem_of_cons. intuition congruence.
Qed.

Lemma filter_length_forallb {A} (p : A → bool) (l : list A) :
  if forallb p l then List.filter p l = l
  else (length (List.filter p l) < length l)%nat.
Proof.
  induction l as [|x l IH]; simpl; [done|].
  destruct (p x); simpl.
  - destruct (forallb p l); simpl; [by rewrite IH|lia].
  - pose proof (List.filter_length_le p l). lia.
Qed.

(** *** The loop can finish *)

Lemma run_cons s a schedule :
  run s (a :: schedule)
  = match step s a with
    | Some s' => run s' schedule
    | None => None
    end.
Proof. done. Qed.

Lemma step_worker_last s ws m p a :
  workers s = ws ++ [{| method := m; pc := p |}] →
  step s (AWorker (length ws) a)
  = workerStep s (length ws) {| method := m; pc := p |} a.
Proof. intros H. simpl. by rewrite H, list_lookup_middle. Qed.

Lemma run_nil s : run s [] = Some s.
Proof. done. Qed.

Local Ltac worker_step ws :=
  rewrite run_cons;
  erewrite (step_worker_last _ ws) by reflexivity;
  unfold Dispatch.workerStep, moveTo;
  cbn [pc method workers semaphore mutex wg main results stores];
  rewrite ?insert_middle, ?run_nil; cbv beta iota.

(** From a state in which every goroutine started so far has finished, the
    next one can be started and run to its end; alone, it leaves in the
    shared map what the sequential [testMethod] computes. *)
Lemma run_worker ws m rest rs st :
  (0 < capacity)%nat →
  run {| main := Spawning (m :: rest); wg := 0; semaphore := 0; mutex := false;
         workers := ws; results := rs; stores := st |}
      (workerSchedule w targetURL (length ws) m)
  = Some {| main := Spawning rest; wg := 0; semaphore := 0; mutex := false;
            workers := ws ++ [{| method := m; pc := Done |}];
            results := value (testMethod w client targetURL m headers cookies rs);
            stores := st ++ (if constructs m then [m] else []) |}.
Proof.
  intros Hcap. unfold workerSchedule.
  rewrite run_app, run_cons.
  cbn [Dispatch.step main wg semaphore mutex workers results stores].
  worker_step ws.
  rewrite (proj2 (Nat.ltb_lt 0 capacity) Hcap).
  worker_step ws. rewrite testMethod_value. fold (outcome m).
  rewrite outcome_constructs.
  destruct (outcome m) as [r|] eqn:Hout.
  - rewrite bool_decide_eq_true_2 by (by eexists).
    rewrite run_app.
    worker_step ws. worker_step ws. worker_step ws.
    worker_step ws. worker_step ws. done.
  - rewrite bool_decide_eq_false_2 by (by intros [? ?]).
    rewrite run_app, run_nil.
    worker_step ws. worker_step ws. by rewrite app_nil_r.
Qed.

Lemma run_sequential rest : ∀ ws rs st,
  (0 < capacity)%nat →
  ∃ rs' st',
    run {| main := Spawning rest; wg := 0; semaphore := 0; mutex := false;
           workers := ws; results := rs; stores := st |}
        (sequentialFrom w targetURL (length ws) rest)
    = Some {| main := Joined; wg := 0; semaphore := 0; mutex := false;
              workers := ws ++ ((λ m, {| method := m; pc := Done |}) <$> rest);
              results := rs'; stores := st' |}.
Proof.
  induction rest as [|m rest IH]; intros ws rs st Hcap.
  - exists rs, st. simpl. by rewrite app_nil_r.
  - cbn [sequentialFrom]. rewrite run_app.
    rewrite (run_worker ws m rest rs st Hcap).
    destruct (IH (ws ++ [{| method := m; pc := Done |}])
                 (value (testMethod w client targetURL m headers cookies rs))
                 (st ++ (if constructs m then [m] else [])) Hcap)
      as (rs2 & st2 & Hrun).
    rewrite length_app in Hrun. simpl in Hrun.
    replace (length ws + 1)%nat with (S (length ws)) in Hrun by lia.
    rewrite Hrun. exists rs2, st2. by rewrite <- app_assoc.
Qed.

(** With room for at least one element in the channel, the loop reaches the
    point after [wg.Wait]. *)
Lemma dispatch_can_join :
  (0 < capacity)%nat →
  ∃ s, run (initial methods) (sequential w targetURL methods) = Some s ∧
       main s = Joined.
Proof.
  intros Hcap.
  destruct (run_sequential methods [] ∅ [] Hcap) as (rs & st & Hrun).
  eexists. split; [exact Hrun|done].
Qed.

(** *** C1 *)

(** C1. For a duplicate-free catalog (what [getMethods] and the safe-mode
    filter hand over, see [catalog_NoDup] below), once the main goroutine is
    past [wg.Wait] the shared map holds exactly the methods whose request
    could be constructed, each assigned exactly once and each with the
    outcome of its own probe; so the map has as many entries as the catalog
    when every request constructs, and fewer otherwise. *)
Theorem dispatch_accounts_for_every_method (s : State) :
  NoDup methods →
  reachable w client targetURL headers cookies capacity methods s →
  main s = Joined →
  stores s ≡ₚ List.filter constructs methods ∧
  (∀ m, occurrences m (stores s)
        = if bool_decide (m ∈ methods) && constructs m then 1%nat else 0%nat) ∧
  (∀ m, m ∈ dom (results s) ↔ m ∈ methods ∧ constructs m = true) ∧
  (∀ m, m ∈ methods → results s !! m = outcome m) ∧
  size (results s) = length (List.filter constructs methods) ∧
  (if forallb constructs methods
   then size (results s) = length methods
   else (size (results s) < length methods)%nat).
Proof.
  intros Hnd Hreach Hj. pose proof (reachable_inv s Hreach) as HI.
  pose proof (joined_stores s HI Hj) as Hst.
  assert (Hin : ∀ m, m ∈ stores s ↔ m ∈ methods ∧ constructs m = true).
  { intros m. by rewrite Hst, !list_elem_of_In, List.filter_In. }
  assert (Hnds : NoDup (stores s)).
  { rewrite Hst. apply NoDup_ListNoDup, List.NoDup_filter.
    by apply NoDup_ListNoDup. }
  assert (Hsize : size (results s) = length (List.filter constructs methods)).
  { rewrite <- size_dom, (dom_results s HI), size_list_to_set by done.
    by rewrite Hst. }
  split_and!.
  - done.
  - intros m. rewrite (occurrences_NoDup m _ Hnds).
    apply (f_equal (λ b : bool, if b then 1%nat else 0%nat)).
    destruct (decide (m ∈ stores s)) as [Hm|Hm].
    + rewrite (bool_decide_eq_true_2 _ Hm). apply Hin in Hm as [Hm ->].
      by rewrite (bool_decide_eq_true_2 _ Hm).
    + rewrite (bool_decide_eq_false_2 _ Hm).
      destruct (bool_decide (m ∈ methods)) eqn:Hmm; [|done].
      apply bool_decide_eq_true in Hmm. simpl.
      destruct (constructs m) eqn:Hc; [|done]. destruct Hm. by apply Hin.
  - intros m. by rewrite (dom_results s HI), elem_of_list_to_set.
  - intros m Hm. rewrite (results_lookup s m HI).
    destruct (decide (m ∈ stores s)) as [Hs|Hs].
    + by rewrite (bool_decide_eq_true_2 _ Hs).
    + rewrite (bool_decide_eq_false_2 _ Hs).
      destruct (outcome m) as [r|] eqn:Hout; [|done].
      destruct Hs. apply Hin. split; [done|]. by apply (outcome_Some_constructs m r).
  - done.
  - rewrite Hsize. pose proof (filter_length_forallb constructs methods) as H.
    destruct (forallb constructs methods); [by rewrite H|done].
Qed.

(** *** C2 *)

(** C2. With a channel of capacity [config.Threads] (the channel exists only
    for a non-negative size), in every state the loop can reach the number
    of goroutines inside [testMethod] is at most the number of elements in
    the channel, which is at most the capacity; the channel holds exactly
    one element per goroutine between its send and its deferred receive, so
    each goroutine that has left [testMethod], by whichever return, gives
    its slot back: the receive is enabled as soon as [testMethod] has
    returned, and after [wg.Wait] the channel is empty. *)
Theorem semaphore_bounds_in_flight (threads : Z) (s : State) :
  makeSemaphore threads = Some capacity →
  reachable w client targetURL headers cookies capacity methods s →
  Z.of_nat (inFlight s) ≤ threads ∧
  (inFlight s ≤ semaphore s)%nat ∧
  (semaphore s ≤ capacity)%nat ∧
  semaphore s = count holdsSlot (workers s) ∧
  (∀ i wk, workers s !! i = Some wk → pc wk = Returned →
           is_Some (step s (AWorker i Release))) ∧
  match main s with
  | Joined => semaphore s = 0%nat
  | Spawning _ => True
  end.
Proof.
  intros Hmk Hreach. pose proof (reachable_inv s Hreach) as HI.
  pose proof (inv_sem _ _ _ _ _ _ _ _ HI) as Hsem.
  pose proof (inv_cap _ _ _ _ _ _ _ _ HI) as Hcap.
  assert (Hle : (inFlight s ≤ semaphore s)%nat).
  { unfold inFlight. rewrite Hsem. apply count_inTestMethod_le. }
  unfold makeSemaphore in Hmk.
  destruct (Z.ltb_spec threads 0) as [|Hpos]; [discriminate|].
  injection Hmk as Hcapacity.
  split_and!; [lia|done|done|done| |].
  - intros i wk Hi Hp. by apply (release_enabled s i wk).
  - pose proof (inv_main _ _ _ _ _ _ _ _ HI) as Hm.
    destruct (main s); [done|]. destruct Hm as [_ HF].
    rewrite Hsem. apply count_all_false.
    eapply Forall_impl; [exact HF|]. by intros wk ->.
Qed.

(** *** An unbuffered channel

    With [config.Threads = 0] the channel has no buffer: no send ever
    completes, no goroutine gets past it, and [wg.Wait] never returns unless
    there was nothing to start. *)

Lemma step_all_spawned s a s' :
  capacity = 0%nat →
  Forall (λ wk, pc wk = Spawned) (workers s) →
  step s a = Some s' →
  Forall (λ wk, pc wk = Spawned) (workers s').
Proof.
  intros Hcap HF Hstep. destruct a as [| |i j|i a]; simpl in Hstep.
  - destruct (main s) as [[|m rest]|]; try discriminate. injection Hstep as <-.
    simpl. apply Forall_app. split; [done|]. by repeat constructor.
  - destruct (main s) as [[|m rest]|]; try discriminate.
    destruct (wg s); [|discriminate]. by injection Hstep as <-.
  - destruct capacity; [|discriminate].
    destruct (workers s !! i) as [wi|]; [|discriminate].
    destruct (workers s !! j) as [wj|] eqn:Hj; [|discriminate].
    pose proof (proj1 (Forall_lookup _ _) HF j wj Hj) as Hpj. simpl in Hpj.
    rewrite Hpj in Hstep. by destruct (pc wi).
  - destruct (workers s !! i) as [wk|] eqn:Hi; [|discriminate].
    pose proof (proj1 (Forall_lookup _ _) HF i wk Hi) as Hp. simpl in Hp.
    unfold Dispatch.workerStep in Hstep. rewrite Hp, Hcap in Hstep.
    by destruct a.
Qed.

Lemma run_all_spawned schedule : ∀ s s',
  capacity = 0%nat →
  Forall (λ wk, pc wk = Spawned) (workers s) →
  run s schedule = Some s' →
  Forall (λ wk, pc wk = Spawned) (workers s').
Proof.
  induction schedule as [|a schedule IH]; intros s s' Hcap HF Hrun;
    simpl in Hrun.
  - by injection Hrun as <-.
  - destruct (step s a) as [s1|] eqn:Hstep; [|discriminate].
    apply (IH s1); [done| |done]. by apply (step_all_spawned s a).
Qed.

Lemma zero_capacity_not_joined schedule s :
  capacity = 0%nat → methods ≠ [] →
  run (initial methods) schedule = Some s → main s ≠ Joined.
Proof.
  intros Hcap Hne Hrun.
  assert (HI : Inv s) by (apply reachable_inv; by exists schedule).
  assert (HF : Forall (λ wk, pc wk = Spawned) (workers s)).
  { apply (run_all_spawned schedule (initial methods)); [done| |done].
    constructor. }
  intros Hj. pose proof (inv_main _ _ _ _ _ _ _ _ HI) as Hm.
  rewrite Hj in Hm. destruct Hm as [Hms HD].
  destruct (workers s) as [|wk ws]; [by destruct Hne|].
  apply Forall_cons in HF as [HS _]. apply Forall_cons in HD as [HD _].
  congruence.
Qed.

(** X6. With a channel of capacity 0 and at least
    one method, no goroutine ever gets past its send: in every reachable
    state nothing is in flight, the shared map is empty and the main
    goroutine is not past [wg.Wait]. *)
Lemma no_join_without_capacity s :
  capacity = 0%nat → methods ≠ [] →
  reachable w client targetURL headers cookies capacity methods s →
  main s ≠ Joined ∧ inFlight s = 0%nat ∧ results s = ∅.
Proof.
  intros Hcap Hne Hreach. pose proof (reachable_inv s Hreach) as HI.
  destruct Hreach as [schedule Hrun].
  assert (HF : Forall (λ wk, pc wk = Spawned) (workers s)).
  { apply (run_all_spawned schedule (initial methods)); [done| |done].
    constructor. }
  split_and!.
  - intros Hj. pose proof (inv_main _ _ _ _ _ _ _ _ HI) as Hm.
    rewrite Hj in Hm. destruct Hm as [Hms HD].
    destruct (workers s) as [|wk ws]; [by destruct Hne|].
    apply Forall_cons in HF as [HS _]. apply Forall_cons in HD as [HD _].
    congruence.
  - unfold inFlight. apply count_all_false.
    eapply Forall_impl; [exact HF|]. by intros wk ->.
  - apply map_eq. intros m. rewrite (results_lookup s m HI), lookup_empty.
    rewrite bool_decide_eq_false_2; [done|]. intros Hm.
    rewrite (inv_stores _ _ _ _ _ _ _ _ HI) in Hm.
    apply list_elem_of_fmap in Hm as (wk & _ & Hwk).
    apply list_elem_of_In, List.filter_In in Hwk as [Hwk Hst].
    apply list_elem_of_In in Hwk.
    pose proof (proj1 (Forall_forall _ _) HF wk Hwk) as Hp. simpl in Hp.
    unfold DispatchInv.hasStored in Hst. by rewrite Hp in Hst.
Qed.

(** *** The aggregate in terms of the answers of the world *)

Lemma sequential_fold_lookup ms : ∀ rs m,
  fold_left (λ results method,
               value (testMethod w client targetURL method headers cookies results))
            ms rs !! m
  = if bool_decide (m ∈ ms)
    then match outcome m with Some r => Some r | None => rs !! m end
    else rs !! m.
Proof.
  induction ms as [|x ms IH]; intros rs m; cbn [fold_left].
  - rewrite bool_decide_eq_false_2; [done|]. by intros ?%elem_of_nil.
  - rewrite IH, testMethod_value. fold (outcome x).
    destruct (decide (m = x)) as [->|Hne].
    + rewrite (bool_decide_eq_true_2 (x ∈ x :: ms)) by (by left).
      destruct (outcome x) as [r|] eqn:Hout.
      * rewrite lookup_insert_eq. by destruct (bool_decide (x ∈ ms)).
      * by destruct (bool_decide (x ∈ ms)).
    + assert (Hrs : match outcome x with
                    | Some r => <[x:=r]> rs
                    | None => rs
                    end !! m = rs !! m).
      { destruct (outcome x); [by rewrite lookup_insert_ne|done]. }
      rewrite Hrs.
      apply (f_equal (λ b : bool, if b then _ else _)).
      apply bool_decide_ext. rewrite elem_of_cons. intuition congruence.
Qed.

(** Past [wg.Wait] the shared map holds, for each method whose request
    constructs, the answer the world gives to that request: the map a single
    goroutine would build calling [testMethod] for the methods in turn. *)
Lemma joined_results s :
  Inv s → main s = Joined →
  results s = sequentialResults w client targetURL headers cookies methods.
Proof.
  intros HI Hj.
  pose proof (joined_stores s HI Hj) as Hst.
  apply map_eq. intros m. unfold sequentialResults.
  rewrite sequential_fold_lookup, lookup_empty, (results_lookup s m HI).
  assert (Hin : m ∈ stores s ↔ m ∈ methods ∧ constructs m = true).
  { by rewrite Hst, !list_elem_of_In, List.filter_In. }
  destruct (decide (m ∈ methods)) as [Hm|Hm].
  - rewrite (bool_decide_eq_true_2 _ Hm).
    destruct (outcome m) as [r|] eqn:Hout.
    + rewrite bool_decide_eq_true_2; [done|]. apply Hin. split; [done|].
      by apply (outcome_Some_constructs m r).
    + by destruct (bool_decide (m ∈ stores s)).
  - rewrite (bool_decide_eq_false_2 _ Hm), bool_decide_eq_false_2; [done|].
    intros [? _]%Hin. done.
Qed.


(** *** The mutex and the wait group *)

Lemma count_two p l i j wi wj :
  i ≠ j → l !! i = Some wi → l !! j = Some wj →
  p (pc wi) = true → p (pc wj) = true → (2 ≤ count p l)%nat.
Proof.
  revert i j. induction l as [|x l IH]; intros i j Hij Hi Hj Hpi Hpj; [done|].
  rewrite count_cons. destruct i as [|i], j as [|j]; simpl in *.
  - done.
  - injection Hi as ->. rewrite Hpi.
    pose proof (count_pos p l j wj Hj Hpj). lia.
  - injection Hj as ->. rewrite Hpj.
    pose proof (count_pos p l i wi Hi Hpi). lia.
  - assert (i ≠ j) by congruence.
    pose proof (IH i j ltac:(done) Hi Hj Hpi Hpj). lia.
Qed.

(** X2. In every reachable state at most one goroutine is between
    [mutex.Lock] and [mutex.Unlock], and the mutex is locked exactly when
    one is: two goroutines never assign to the shared map at once. *)
Theorem mutex_excludes (s : State) :
  reachable w client targetURL headers cookies capacity methods s →
  (count holdsMutex (workers s) ≤ 1)%nat ∧
  (mutex s = true ↔ count holdsMutex (workers s) = 1%nat) ∧
  (∀ i j wi wj,
     workers s !! i = Some wi → workers s !! j = Some wj →
     holdsMutex (pc wi) = true → holdsMutex (pc wj) = true → i = j).
Proof.
  intros Hreach. pose proof (reachable_inv s Hreach) as HI.
  pose proof (inv_mutex _ _ _ _ _ _ _ _ HI) as Hmx.
  assert (Hle : (count holdsMutex (workers s) ≤ 1)%nat).
  { destruct (mutex s); lia. }
  split_and!; [done| |].
  - destruct (mutex s); split; intros; (done || lia).
  - intros i j wi wj Hi Hj Hpi Hpj. destruct (decide (i = j)) as [|Hne]; [done|].
    pose proof (count_two holdsMutex _ i j wi wj Hne Hi Hj Hpi Hpj). lia.
Qed.

(** X3. The wait-group counter is the number of started goroutines that have
    not yet called [wg.Done], so [wg.Done] never meets a zero counter; and
    [wg.Wait] returns only when a goroutine has been started for every
    method, in order, and all of them are done, with the mutex free. *)
Theorem waitgroup_counts_unfinished (s : State) :
  reachable w client targetURL headers cookies capacity methods s →
  wg s = count notDone (workers s) ∧
  (∀ i wk, workers s !! i = Some wk → pc wk = Released →
           is_Some (step s (AWorker i WgDone))) ∧
  match main s with
  | Joined =>
      method <$> workers s = methods ∧
      Forall (λ wk, pc wk = Done) (workers s) ∧
      wg s = 0%nat ∧ mutex s = false
  | Spawning rest => (method <$> workers s) ++ rest = methods
  end.
Proof.
  intros Hreach. pose proof (reachable_inv s Hreach) as HI.
  pose proof (inv_wg _ _ _ _ _ _ _ _ HI) as Hwg.
  pose proof (inv_mutex _ _ _ _ _ _ _ _ HI) as Hmx.
  pose proof (inv_main _ _ _ _ _ _ _ _ HI) as Hm.
  split_and!; [done| |].
  - intros i wk Hi Hp. simpl. rewrite Hi. unfold Dispatch.workerStep. rewrite Hp.
    pose proof (count_pos notDone _ _ _ Hi) as Hpos.
    rewrite Hp in Hpos. specialize (Hpos eq_refl).
    destruct (wg s); [lia|]. by eexists.
  - destruct (main s) as [rest|]; [done|]. destruct Hm as [Hms HF].
    split_and!; [done|done| |].
    + rewrite Hwg. apply count_all_false.
      eapply Forall_impl; [exact HF|]. by intros wk ->.
    + assert (count holdsMutex (workers s) = 0%nat) as H0.
      { apply count_all_false. eapply Forall_impl; [exact HF|]. by intros wk ->. }
      rewrite H0 in Hmx. by destruct (mutex s).
Qed.

(** *** Every execution is finite and can always be completed *)

Lemma potential_move (mn : MainPc) (l1 l2 : list Worker) m p p' :
  (rank p' < rank p)%nat →
  (sum_list_with (λ wk, rank (pc wk)) (l1 ++ {| method := m; pc := p' |} :: l2)
   < sum_list_with (λ wk, rank (pc wk)) (l1 ++ {| method := m; pc := p |} :: l2))%nat.
Proof. intros H. rewrite !sum_list_with_app. simpl. lia. Qed.

Lemma workerStep_potential s i wk a s' :
  workers s !! i = Some wk → workerStep s i wk a = Some s' →
  (potential s' < potential s)%nat.
Proof.
  intros Hi Hstep.
  apply list_elem_of_split_length in Hi as (l1 & l2 & Hw & ->).
  destruct s as [mn g sm mx ws rs st]. simpl in Hw. subst ws.
  destruct wk as [m p]. unfold potential.
  unfold Dispatch.workerStep, moveTo in Hstep. simpl in Hstep.
  rewrite ?insert_middle in Hstep.
  destruct p, a; try discriminate; simpl in Hstep.
  - destruct (sm <? capacity)%nat; [|discriminate].
    injection Hstep as <-. rewrite ?insert_middle. simpl.
    apply Nat.add_lt_mono_l, (potential_move mn). simpl. lia.
  - injection Hstep as <-. rewrite ?insert_middle. simpl.
    apply Nat.add_lt_mono_l, (potential_move mn).
    destruct (probeOutcome _ _ _ _ _ _); simpl; lia.
  - destruct mx; [discriminate|].
    injection Hstep as <-. rewrite ?insert_middle. simpl.
    apply Nat.add_lt_mono_l, (potential_move mn). simpl. lia.
  - injection Hstep as <-. rewrite ?insert_middle. simpl.
    apply Nat.add_lt_mono_l, (potential_move mn). simpl. lia.
  - injection Hstep as <-. rewrite ?insert_middle. simpl.
    apply Nat.add_lt_mono_l, (potential_move mn). simpl. lia.
  - destruct sm; [discriminate|].
    injection Hstep as <-. rewrite ?insert_middle. simpl.
    apply Nat.add_lt_mono_l, (potential_move mn). simpl. lia.
  - destruct g; [discriminate|].
    injection Hstep as <-. rewrite ?insert_middle. simpl.
    apply Nat.add_lt_mono_l, (potential_move mn). simpl. lia.
Qed.

Lemma sum_rank_insert (l : list Worker) i wk m p' :
  l !! i = Some wk →
  (sum_list_with (λ wk, rank (pc wk)) (<[i := {| method := m; pc := p' |}]> l)
   + rank (pc wk)
   = sum_list_with (λ wk, rank (pc wk)) l + rank p')%nat.
Proof.
  intros Hi. apply list_elem_of_split_length in Hi as (l1 & l2 & -> & ->).
  rewrite insert_middle, !sum_list_with_app. simpl. lia.
Qed.

Lemma step_potential s a s' :
  step s a = Some s' → (potential s' < potential s)%nat.
Proof.
  intros Hstep. destruct a as [| |i j|i a]; simpl in Hstep.
  - destruct s as [mn g sm mx ws rs st]. simpl in Hstep.
    destruct mn as [[|m rest]|]; try discriminate. injection Hstep as <-.
    unfold potential. simpl. rewrite sum_list_with_app. simpl. lia.
  - destruct s as [mn g sm mx ws rs st]. simpl in Hstep.
    destruct mn as [[|m rest]|]; try discriminate.
    destruct g; [|discriminate]. injection Hstep as <-.
    unfold potential. simpl. lia.
  - destruct capacity; [|discriminate].
    destruct (workers s !! i) as [wi|] eqn:Hi; [|discriminate].
    destruct (workers s !! j) as [wj|] eqn:Hj; [|discriminate].
    destruct (pc wi) eqn:Hpi; try discriminate.
    destruct (pc wj) eqn:Hpj; try discriminate.
    injection Hstep as <-. unfold potential, moveTo. simpl.
    assert (Hne : i ≠ j) by (intros ->; congruence).
    pose proof (sum_rank_insert (workers s) i wi (method wi) InFlight Hi) as H1.
    assert (Hj' : <[i := {| method := method wi; pc := InFlight |}]> (workers s) !! j
                  = Some wj) by (by rewrite list_lookup_insert_ne).
    pose proof (sum_rank_insert _ j wj (method wj) Released Hj') as H2.
    rewrite Hpi in H1. rewrite Hpj in H2. simpl in H1, H2. lia.
  - destruct (workers s !! i) as [wk|] eqn:Hi; [|discriminate].
    by apply (workerStep_potential s i wk a).
Qed.

Lemma run_potential schedule : ∀ s s',
  run s schedule = Some s' →
  (length schedule + potential s' ≤ potential s)%nat.
Proof.
  induction schedule as [|a schedule IH]; intros s s' Hrun; simpl in Hrun.
  - injection Hrun as <-. simpl. lia.
  - destruct (step s a) as [s1|] eqn:Hstep; [|discriminate].
    pose proof (step_potential s a s1 Hstep). pose proof (IH s1 s' Hrun).
    simpl. lia.
Qed.

(** X4. No interleaving of the loop runs for ever: a schedule the loop can
    follow from its start has at most eight actions per method and one for
    [wg.Wait], whatever the capacity of the channel. *)
Theorem dispatch_executions_bounded (schedule : list Action) (s : State) :
  run (initial methods) schedule = Some s →
  (length schedule ≤ 8 * length methods + 1)%nat.
Proof.
  intros Hrun. pose proof (run_potential schedule _ _ Hrun) as H.
  unfold potential at 2 in H. simpl in H. lia.
Qed.

Lemma count_pos_inv p l :
  (0 < count p l)%nat → ∃ i wk, l !! i = Some wk ∧ p (pc wk) = true.
Proof.
  induction l as [|x l IH]; [by rewrite count_nil; lia|].
  rewrite count_cons. destruct (p (pc x)) eqn:Hx.
  - intros _. by exists 0%nat, x.
  - intros H. destruct IH as (i & wk & Hi & Hp); [lia|]. by exists (S i), wk.
Qed.

Lemma count_mono (p q : Pc → bool) l :
  (∀ x, p x = true → q x = true) → (count p l ≤ count q l)%nat.
Proof.
  intros Hpq. induction l as [|x l IH]; [done|]. rewrite !count_cons.
  destruct (p (pc x)) eqn:Hx; [rewrite (Hpq _ Hx); lia|].
  destruct (q (pc x)); lia.
Qed.

(** As long as the main goroutine is not past [wg.Wait], some goroutine can
    take a step. *)
Lemma dispatch_progress s :
  (0 < capacity)%nat → Inv s → main s ≠ Joined →
  ∃ a s', step s a = Some s'.
Proof.
  intros Hcap HI Hmain.
  pose proof (inv_sem _ _ _ _ _ _ _ _ HI) as Hsem.
  pose proof (inv_wg _ _ _ _ _ _ _ _ HI) as Hwg.
  pose proof (inv_mutex _ _ _ _ _ _ _ _ HI) as Hmx.
  destruct (main s) as [[|m rest]|] eqn:Hm; [| |done].
  2:{ exists ASpawn. simpl. rewrite Hm. by eexists. }
  destruct (wg s) as [|n] eqn:Hg.
  { exists AWait. simpl. rewrite Hm, Hg. by eexists. }
  destruct (decide (0 < count ready (workers s))%nat) as [Hr|Hr].
  { apply count_pos_inv in Hr as (i & wk & Hi & Hp).
    destruct (pc wk) eqn:Hpc; try discriminate.
    - exists (AWorker i Probe). simpl. rewrite Hi. unfold Dispatch.workerStep.
      rewrite Hpc. by eexists.
    - exists (AWorker i Store). simpl. rewrite Hi. unfold Dispatch.workerStep.
      rewrite Hpc. by eexists.
    - exists (AWorker i Unlock). simpl. rewrite Hi. unfold Dispatch.workerStep.
      rewrite Hpc. by eexists.
    - exists (AWorker i Release).
      destruct (release_enabled s i wk HI Hi Hpc) as [s' Hs']. by exists s'.
    - exists (AWorker i WgDone). simpl. rewrite Hi. unfold Dispatch.workerStep.
      rewrite Hpc, Hg. by eexists. }
  assert (Hr0 : count ready (workers s) = 0%nat) by lia.
  assert (Hfree : mutex s = false).
  { pose proof (count_mono holdsMutex ready (workers s)) as Hle.
    destruct (mutex s); [|done].
    assert (count holdsMutex (workers s) ≤ count ready (workers s))%nat
      by (apply Hle; by intros []). lia. }
  destruct (decide (0 < count wantsLock (workers s))%nat) as [Hl|Hl].
  { apply count_pos_inv in Hl as (i & wk & Hi & Hp).
    destruct (pc wk) eqn:Hpc; try discriminate.
    exists (AWorker i Lock). simpl. rewrite Hi. unfold Dispatch.workerStep.
    rewrite Hpc, Hfree. by eexists. }
  assert (Hl0 : count wantsLock (workers s) = 0%nat) by lia.
  assert (Hnd : (0 < count notDone (workers s))%nat) by lia.
  apply count_pos_inv in Hnd as (i & wk & Hi & Hp).
  pose proof (proj1 (Forall_lookup _ _) (count_zero _ _ Hr0) i wk Hi) as Hri.
  pose proof (proj1 (Forall_lookup _ _) (count_zero _ _ Hl0) i wk Hi) as Hli.
  simpl in Hri, Hli.
  destruct (pc wk) eqn:Hpc; try discriminate.
  assert (Hs0 : count holdsSlot (workers s) = 0%nat).
  { apply count_all_false, Forall_lookup. intros k wk' Hk.
    pose proof (proj1 (Forall_lookup _ _) (count_zero _ _ Hr0) k wk' Hk) as Hrk.
    pose proof (proj1 (Forall_lookup _ _) (count_zero _ _ Hl0) k wk' Hk) as Hlk.
    simpl in Hrk, Hlk. by destruct (pc wk'). }
  exists (AWorker i Acquire). simpl. rewrite Hi. unfold Dispatch.workerStep.
  rewrite Hpc. rewrite Hsem, Hs0. rewrite (proj2 (Nat.ltb_lt 0 capacity) Hcap).
  by eexists.
Qed.

Lemma can_join_from n : ∀ s,
  (0 < capacity)%nat → (potential s ≤ n)%nat → Inv s →
  ∃ schedule s', run s schedule = Some s' ∧ main s' = Joined.
Proof.
  induction n as [|n IH]; intros s Hcap Hpot HI.
  - destruct (main s) as [rest|] eqn:Hm.
    + unfold potential in Hpot. rewrite Hm in Hpot. lia.
    + by exists [], s.
  - destruct (main s) as [rest|] eqn:Hm; [|by exists [], s].
    destruct (dispatch_progress s Hcap HI) as (a & s1 & Hstep); [by rewrite Hm|].
    pose proof (step_potential s a s1 Hstep) as Hlt.
    destruct (IH s1 Hcap ltac:(lia) (step_inv s a s1 HI Hstep))
      as (schedule & s' & Hrun & Hj).
    exists (a :: schedule), s'. split; [|done]. simpl. by rewrite Hstep.
Qed.

(** X5. With room for at least one element in the channel the loop cannot
    get stuck: from every state it can reach, whatever has been interleaved
    so far, some continuation takes the main goroutine past [wg.Wait]. *)
Theorem dispatch_never_deadlocks (s : State) :
  (0 < capacity)%nat →
  reachable w client targetURL headers cookies capacity methods s →
  ∃ schedule s', run s schedule = Some s' ∧ main s' = Joined ∧
    reachable w client targetURL headers cookies capacity methods s'.
Proof.
  intros Hcap Hreach. pose proof (reachable_inv s Hreach) as HI.
  destruct (can_join_from (potential s) s Hcap ltac:(done) HI)
    as (schedule & s' & Hrun & Hj).
  exists schedule, s'. split_and!; [done|done|].
  destruct Hreach as [before Hbefore]. exists (before ++ schedule).
  by rewrite run_app, Hbefore.
Qed.

End Facts.

Lemma dispatch_accounts_for_every_method_witness :
  ∃ s,
    reachable Examples.mockServer Examples.client Examples.target ∅ ∅ 2
              ["GET"; "PUT"; "TRACE"] s ∧
    main s = Joined ∧
    size (results s) = 3%nat.
Proof.
  destruct (run Examples.mockServer Examples.client Examples.target ∅ ∅ 2
              (initial ["GET"; "PUT"; "TRACE"]) Examples.interleaved)
    as [s|] eqn:Hrun; [|by vm_compute in Hrun].
  assert (Hj : main s = Joined).
  { vm_compute in Hrun. by injection Hrun as <-. }
  exists s. split; [by exists Examples.interleaved|]. split; [done|].
  refine (proj2 (proj2 (proj2 (proj2 (proj2
    (dispatch_accounts_for_every_method Examples.mockServer Examples.client
       Examples.target ∅ ∅ 2 ["GET"; "PUT"; "TRACE"] s _ _ Hj)))))).
  - apply (bool_decide_unpack _). by vm_compute.
  - by exists Examples.interleaved.
Defined.

Lemma semaphore_bounds_in_flight_witness :
  ∃ s,
    reachable Examples.mockServer Examples.client Examples.target ∅ ∅ 2
              ["GET"; "PUT"; "TRACE"] s ∧
    inFlight s = 2%nat ∧
    Z.of_nat (inFlight s) ≤ 2 ∧
    step Examples.mockServer Examples.client Examples.target ∅ ∅ 2 s
         (AWorker 1 Acquire) = None.
Proof.
  destruct (run Examples.mockServer Examples.client Examples.target ∅ ∅ 2
              (initial ["GET"; "PUT"; "TRACE"])
              [ASpawn; ASpawn; ASpawn; AWorker 0 Acquire; AWorker 2 Acquire])
    as [s|] eqn:Hrun; [|by vm_compute in Hrun].
  exists s. split; [by eexists|].
  split; [vm_compute in Hrun; by injection Hrun as <-|].
  split.
  - refine (proj1 (semaphore_bounds_in_flight Examples.mockServer Examples.client
                     Examples.target ∅ ∅ 2 ["GET"; "PUT"; "TRACE"] 2 s _ _)).
    + reflexivity.
    + by eexists.
  - vm_compute in Hrun. by injection Hrun as <-.
Defined.

Lemma mutex_excludes_witness :
  ∃ s,
    run Examples.mockServer Examples.client Examples.target ∅ ∅ 2
        (initial ["GET"; "PUT"])
        [ASpawn; ASpawn; AWorker 0 Acquire; AWorker 1 Acquire;
         AWorker 0 Probe; AWorker 1 Probe; AWorker 1 Lock] = Some s ∧
    mutex s = true ∧
    (count holdsMutex (workers s) ≤ 1)%nat ∧
    step Examples.mockServer Examples.client Examples.target ∅ ∅ 2 s
         (AWorker 0 Lock) = None.
Proof.
  destruct (run Examples.mockServer Examples.client Examples.target ∅ ∅ 2
              (initial ["GET"; "PUT"])
              [ASpawn; ASpawn; AWorker 0 Acquire; AWorker 1 Acquire;
               AWorker 0 Probe; AWorker 1 Probe; AWorker 1 Lock])
    as [s|] eqn:Hrun; [|by vm_compute in Hrun].
  exists s. split; [done|].
  split; [vm_compute in Hrun; by injection Hrun as <-|].
  split.
  - refine (proj1 (mutex_excludes Examples.mockServer Examples.client
                     Examples.target ∅ ∅ 2 ["GET"; "PUT"] s _)).
    by eexists.
  - vm_compute in Hrun. by injection Hrun as <-.
Defined.

Lemma waitgroup_counts_unfinished_witness :
  ∃ s,
    run Examples.mockServer Examples.client Examples.target ∅ ∅ 2
        (initial ["GET"; "PUT"])
        [ASpawn; ASpawn; AWorker 0 Acquire; AWorker 0 Probe] = Some s ∧
    wg s = 2%nat ∧ wg s = count notDone (workers s).
Proof.
  destruct (run Examples.mockServer Examples.client Examples.target ∅ ∅ 2
              (initial ["GET"; "PUT"])
              [ASpawn; ASpawn; AWorker 0 Acquire; AWorker 0 Probe])
    as [s|] eqn:Hrun; [|by vm_compute in Hrun].
  exists s. split; [done|].
  split; [vm_compute in Hrun; by injection Hrun as <-|].
  refine (proj1 (waitgroup_counts_unfinished Examples.mockServer Examples.client
                   Examples.target ∅ ∅ 2 ["GET"; "PUT"] s _)).
  by eexists.
Defined.

Lemma dispatch_executions_bounded_witness :
  (length Examples.interleaved ≤ 8 * 3 + 1)%nat.
Proof.
  destruct (run Examples.mockServer Examples.client Examples.target ∅ ∅ 2
              (initial ["GET"; "PUT"; "TRACE"]) Examples.interleaved)
    as [s|] eqn:Hrun; [|by vm_compute in Hrun].
  exact (dispatch_executions_bounded Examples.mockServer Examples.client
           Examples.target ∅ ∅ 2 ["GET"; "PUT"; "TRACE"]
           Examples.interleaved s Hrun).
Defined.

Lemma dispatch_never_deadlocks_witness :
  ∃ s,
    run Examples.mockServer Examples.client Examples.target ∅ ∅ 1
        (initial ["GET"; "PUT"])
        [ASpawn; AWorker 0 Acquire; ASpawn; AWorker 0 Probe] = Some s ∧
    ∃ schedule s', run Examples.mockServer Examples.client Examples.target ∅ ∅ 1
                     s schedule = Some s' ∧ main s' = Joined.
Proof.
  destruct (run Examples.mockServer Examples.client Examples.target ∅ ∅ 1
              (initial ["GET"; "PUT"])
              [ASpawn; AWorker 0 Acquire; ASpawn; AWorker 0 Probe])
    as [s|] eqn:Hrun; [|by vm_compute in Hrun].
  exists s. split; [done|].
  destruct (dispatch_never_deadlocks Examples.mockServer Examples.client
              Examples.target ∅ ∅ 1 ["GET"; "PUT"] s)
    as (schedule & s' & Hrun' & Hj & _).
  - lia.
  - by eexists.
  - by exists schedule, s'.
Defined.

Lemma no_join_without_capacity_witness :
  ∃ s,
    run Examples.mockServer Examples.client Examples.target ∅ ∅ 0
        (initial ["GET"; "PUT"]) [ASpawn; ASpawn] = Some s ∧
    main s ≠ Joined ∧ inFlight s = 0%nat ∧ results s = ∅.
Proof.
  destruct (run Examples.mockServer Examples.client Examples.target ∅ ∅ 0
              (initial ["GET"; "PUT"]) [ASpawn; ASpawn])
    as [s|] eqn:Hrun; [|by vm_compute in Hrun].
  exists s. split; [done|].
  apply (no_join_without_capacity Examples.mockServer Examples.client
           Examples.target ∅ ∅ 0 ["GET"; "PUT"] s); [done|done|].
  by eexists.
Defined.

End DispatchFacts.

(** The list [runSingleProbe] hands to the dispatch loop has no duplicates. *)
Lemma catalog_NoDup w config catalog :
  value (getMethods w config) = (catalog, None) →
  NoDup (value (filterMethods config catalog)).
Proof.
  intros Hval.
  assert (Hnd : NoDup catalog).
  { rewrite getMethods_value in Hval.
    destruct (wordlistError w config); [done|]. injection Hval as <-.
    apply catalog_invariant. }
  unfold filterMethods. destruct (SafeOnly config).
  - rewrite value_bind. simpl. rewrite safeMethods_filter.
    apply NoDup_ListNoDup, List.NoDup_filter. by apply NoDup_ListNoDup.
  - by rewrite !value_bind.
Qed.

(** * More of the package *)

(** ** Reading lines *)

Lemma readLinesFromFile_clean w filename :
  Forall cleanLine (readLinesFromFile w filename).1.
Proof.
  unfold readLinesFromFile.
  destruct (os_Open w filename) as [e|scanned [e|]]; simpl; [constructor..|].
  rewrite readLines_fold. simpl. apply Forall_fmap, Forall_forall.
  intros x Hx. apply list_elem_of_In, List.filter_In in Hx as [_ Hk].
  unfold keptLine in Hk. apply andb_true_iff in Hk as [H1 H2].
  apply bool_decide_eq_true in H1. apply negb_true_iff in H2.
  unfold cleanLine. simpl. by rewrite TrimSpace_idemp.
Qed.

(** X7. Every line [readLinesFromFile]
    returns is trimmed (in the sense of [strings.TrimSpace]: Unicode white
    space), not empty and not a comment, and it returns no line at all
    together with an error; so the tests for empty and comment lines that
    [parseHeaders] repeats on the lines of a header file never succeed. *)
Theorem readLinesFromFile_lines_clean (w : World) (filename : string) :
  Forall cleanLine (readLinesFromFile w filename).1 ∧
  ((readLinesFromFile w filename).2 ≠ None →
   (readLinesFromFile w filename).1 = []) ∧
  (∀ rt headers,
     addHeaderLines rt headers (readLinesFromFile w filename).1
     = fold_left (addHeader rt) (readLinesFromFile w filename).1 headers).
Proof.
  pose proof (readLinesFromFile_clean w filename) as Hclean.
  split_and!; [done| |].
  - unfold readLinesFromFile.
    by destruct (os_Open w filename) as [e|scanned [e|]].
  - intros rt headers. unfold addHeaderLines.
    revert headers. induction Hclean as [|x l [_ [Hne Hc]] _ IH]; intros headers;
      simpl; [done|].
    rewrite (bool_decide_eq_false_2 _ Hne), Hc. simpl. apply IH.
Qed.

(** ** The catalog *)

Lemma catalogOf_elem w methods u :
  u ∈ catalogOf w methods ↔ u ≠ "" ∧ ∃ m, m ∈ methods ∧ u = normalized w m.
Proof. apply elem_of_catalog. Qed.

(** X8. When [getMethods] returns without error,
    its catalog holds exactly the non-empty normal forms (trimmed with
    [strings.TrimSpace], then uppercased with [strings.ToUpper]) of the
    built-in methods, of the wordlist lines and of the tokens of the [Allow]
    header: nothing else gets in, and nothing of these is left out. *)
Theorem getMethods_catalog_exact (w : World) (config : Config) (catalog : list string) :
  value (getMethods w config) = (catalog, None) →
  ∀ u, u ∈ catalog ↔
       u ≠ "" ∧
       ∃ m, (m ∈ DefaultMethods ∨ m ∈ wordlistMethods w config ∨
             m ∈ discoveryTokens (discovery w config)) ∧
            u = GoStrings.ToUpper (unicode_To_UpperCase w) (GoStrings.TrimSpace m).
Proof.
  rewrite getMethods_value, discoveredMethods_tokens.
  destruct (wordlistError w config); [done|].
  generalize (wordlistMethods w config) (discoveryTokens (discovery w config)).
  intros wl toks.
  pose proof (elem_of_catalog w (DefaultMethods ++ wl ++ toks)) as Hel.
  generalize dependent (sort_Strings (normalizeMethods w (DefaultMethods ++ wl ++ toks))).
  intros sorted Hel [= ->].
  intros u. rewrite Hel. setoid_rewrite elem_of_app. setoid_rewrite elem_of_app.
  unfold normalized. done.
Qed.

Lemma getMethods_catalog_exact_witness :
  ∃ catalog,
    value (getMethods Examples.mockServer
             (Examples.withWordlist Examples.config "methods.txt")) = (catalog, None) ∧
    ("" ∉ catalog) ∧ "ANOTHER" ∈ catalog.
Proof.
  eexists. split; [reflexivity|].
  pose proof (getMethods_catalog_exact Examples.mockServer
                (Examples.withWordlist Examples.config "methods.txt") _ eq_refl)
    as Hiff.
  split.
  - by intros [Hne _]%Hiff.
  - apply Hiff. split; [discriminate|]. exists "another". split; [|reflexivity].
    right. left. apply (bool_decide_unpack _). by vm_compute.
Defined.

Lemma sort_Strings_sorted_id l : Sorted String.le l → sort_Strings l = l.
Proof. intros Hs. symmetry. by apply sort_Strings_unique. Qed.

Lemma sort_Strings_perm l1 l2 : l1 ≡ₚ l2 → sort_Strings l1 = sort_Strings l2.
Proof.
  intros Hp. apply sort_Strings_unique.
  - by rewrite sort_Strings_Permutation.
  - apply Sorted_merge_sort; apply _.
Qed.

Lemma catalogOf_same_elements w l1 l2 :
  (∀ x, x ∈ l1 ↔ x ∈ l2) → catalogOf w l1 = catalogOf w l2.
Proof.
  intros Hsame. unfold catalogOf. apply sort_Strings_perm.
  apply NoDup_Permutation; [apply NoDup_normalizeMethods..|].
  intros u. rewrite !elem_of_normalizeMethods.
  split; intros [Hne (m & Hm & ->)]; (split; [done|]); exists m;
    (split; [by apply Hsame|done]).
Qed.

(** X9. The catalog depends only on which candidates
    there are: not on their order, not on how often each occurs, and not on
    the order in which the sources are appended. *)
Theorem catalogOf_canonical (w : World) :
  (∀ l1 l2, (∀ x, x ∈ l1 ↔ x ∈ l2) → catalogOf w l1 = catalogOf w l2) ∧
  (∀ l1 l2, l1 ≡ₚ l2 → catalogOf w l1 = catalogOf w l2) ∧
  (∀ l1 l2, catalogOf w (l1 ++ l2) = catalogOf w (l2 ++ l1)) ∧
  (∀ l1 l2, catalogOf w (l1 ++ l2 ++ l1) = catalogOf w (l1 ++ l2)).
Proof.
  split_and!.
  - apply catalogOf_same_elements.
  - intros l1 l2 Hp. apply catalogOf_same_elements. intros x. by rewrite Hp.
  - intros l1 l2. apply catalogOf_same_elements. intros x.
    rewrite !elem_of_app. tauto.
  - intros l1 l2. apply catalogOf_same_elements. intros x.
    rewrite !elem_of_app. tauto.
Qed.

Lemma getMethodsFromOptions_requests w config :
  requests (trace (getMethodsFromOptions w config))
  = if discoverySends (discovery w config) then [optionsRequest config] else [].
Proof.
  unfold getMethodsFromOptions, discovery. fold (optionsRequest config).
  destruct (bool_decide (URL config = "")); [done|].
  destruct (buildHTTPClient w config) as [e|client]; [done|].
  destruct (http_NewRequest w "OPTIONS" (URL config)) as [e|]; [done|].
  rewrite !trace_bind, !requests_app. simpl.
  destruct (client_Do w client (optionsRequest config)) as [e|resp]; [done|].
  destruct (decide (RespStatusCode resp = 200)) as [Hs|Hs].
  - rewrite (bool_decide_eq_true_2 _ Hs), bool_decide_eq_false_2 by tauto.
    by destruct (bool_decide (Header_Get (RespHeader resp) "Allow" = "")).
  - by rewrite (bool_decide_eq_false_2 _ Hs), bool_decide_eq_true_2.
Qed.

Lemma getMethods_discover_requests w config methods :
  requests (trace (getMethods_discover w config methods))
  = if discoverySends (discovery w config) then [optionsRequest config] else [].
Proof.
  unfold getMethods_discover.
  rewrite !trace_bind, !requests_app, getMethodsFromOptions_requests. simpl.
  destruct (value (getMethodsFromOptions w config)) as [opts [e|]]; simpl.
  - by rewrite app_nil_r.
  - destruct opts; simpl; by rewrite app_nil_r.
Qed.

(** X10. [getMethods] calls [client.Do] at
    most once, with the OPTIONS request for the configured URL to which it
    has added no header and no cookie; it does not call it when the wordlist
    cannot be read (so not at all when it returns an error), when the URL is
    empty, and when the client or the request cannot be built.  (What
    [net/http] does inside the call, such as following a redirect, is not
    counted.) *)
Theorem getMethods_sends_one_request (w : World) (config : Config) :
  requests (trace (getMethods w config))
  = match wordlistError w config with
    | Some _ => []
    | None =>
        if discoverySends (discovery w config) then [optionsRequest config] else []
    end ∧
  (length (requests (trace (getMethods w config))) ≤ 1)%nat ∧
  ((value (getMethods w config)).2 ≠ None →
   requests (trace (getMethods w config)) = []).
Proof.
  assert (Hreq : requests (trace (getMethods w config))
    = match wordlistError w config with
      | Some _ => []
      | None =>
          if discoverySends (discovery w config) then [optionsRequest config] else []
      end).
  { unfold getMethods, wordlistError.
    rewrite trace_bind, requests_app.
    destruct (bool_decide (Wordlist config ≠ "")).
    - destruct (readLinesFromFile w (Wordlist config)) as [wl [e|]];
        cbn [fst snd]; [done|].
      rewrite trace_bind, requests_app. apply getMethods_discover_requests.
    - apply getMethods_discover_requests. }
  split_and!; [done| |].
  - rewrite Hreq. destruct (wordlistError w config); [simpl; lia|].
    destruct (discoverySends (discovery w config)); simpl; lia.
  - rewrite Hreq, getMethods_value.
    by destruct (wordlistError w config).
Qed.

(** ** One probe *)

(** X11. A call of [testMethod] never changes
    the entry of another method and calls [client.Do] at most once (what
    [net/http] does inside the call is not counted); when the request cannot
    be constructed it changes nothing and makes no call; otherwise it stores
    one result under its method, whose length is at most the 1 MiB read
    limit, and a body that fails to read is still recorded with the status
    of the response. *)
Theorem testMethod_touches_one_key
    (w : World) (client : Client) (targetURL method : string)
    (headers : gmap string (list string)) (cookies : gmap string string)
    (results : gmap string Result) :
  let probe := testMethod w client targetURL method headers cookies results in
  (∀ other, other ≠ method → value probe !! other = results !! other) ∧
  (length (requests (trace probe)) ≤ 1)%nat ∧
  match http_NewRequest w method targetURL with
  | Some _ => value probe = results ∧ requests (trace probe) = []
  | None =>
      ∃ r, value probe !! method = Some r ∧ Length r ≤ 1024 * 1024 ∧
           match client_Do w client (buildRequest targetURL method headers cookies) with
           | inl err => r = {| StatusCode := 0; Length := 0; Reason := err |}
           | inr resp =>
               StatusCode r = RespStatusCode resp ∧
               Reason r = RespStatus resp ∧
               Length r = Z.min (RespBodyBytes resp) (1024 * 1024)
           end
  end.
Proof.
  intros probe. unfold probe.
  rewrite testMethod_value, testMethod_requests. unfold probeOutcome.
  destruct (http_NewRequest w method targetURL) as [e|]; simpl.
  { split_and!; (done || lia). }
  destruct (client_Do w client (buildRequest targetURL method headers cookies))
    as [e|resp]; simpl.
  - split_and!; [by intros other Hne; rewrite lookup_insert_ne|lia|].
    eexists. split; [apply lookup_insert_eq|]. simpl. split; [lia|done].
  - split_and!; [by intros other Hne; rewrite lookup_insert_ne|lia|].
    eexists. split; [apply lookup_insert_eq|]. simpl.
    unfold readLimited, bodyLimit.
    destruct (Z.ltb_spec (RespBodyBytes resp) (1024 * 1024)); simpl;
      split_and!; try done; lia.
Qed.

(** ** Reporting *)

(** X12. The method list [runSingleProbe] prints
    is the key set of the result map in ascending order, each key once; no
    error comes out of the tail of [runSingleProbe] unless a JSON file is
    configured and writing it fails. *)
Theorem reportResults_keys_sorted (w : World) (config : Config)
    (results : gmap string Result) :
  let sortedMethods := (value (reportResults w config results)).1 in
  StronglySorted String.le sortedMethods ∧
  NoDup sortedMethods ∧
  (∀ m, m ∈ sortedMethods ↔ is_Some (results !! m)) ∧
  length sortedMethods = size results ∧
  (value (reportResults w config results)).2
  = if bool_decide (JSONFile config ≠ "")
    then Errorf_w "failed to export results to JSON"
           <$> os_WriteFile w (JSONFile config) results
    else None.
Proof.
  assert (Hkeys : (value (reportResults w config results)).1
                  = sort_Strings (elements (dom results))).
  { unfold reportResults, exportToJSON.
    destruct (bool_decide (JSONFile config ≠ "")); [|done].
    by destruct (os_WriteFile w (JSONFile config) results). }
  simpl. rewrite Hkeys. split_and!.
  - apply sort_Strings_Sorted.
  - apply NoDup_sort_Strings, NoDup_elements.
  - intros m. by rewrite elem_of_sort_Strings, elem_of_elements, elem_of_dom.
  - rewrite sort_Strings_Permutation. by rewrite <- size_dom.
  - unfold reportResults, exportToJSON.
    destruct (bool_decide (JSONFile config ≠ "")); [|done].
    by destruct (os_WriteFile w (JSONFile config) results).
Qed.

(** ** Splitting and cutting *)

Lemma prefix_empty s : String.prefix "" s = true.
Proof. by destruct s. Qed.

Lemma Contains_byte s c : GoStrings.Contains s (String c "") = occurs c s.
Proof.
  induction s as [|a r IH]; [done|].
  cbn [GoStrings.Contains occurs]. rewrite IH.
  change (String.prefix (String c "") (String a r))
    with (if ascii_dec c a then String.prefix "" r else false).
  destruct (ascii_dec c a) as [->|Hne].
  - by rewrite Ascii.eqb_refl, prefix_empty.
  - assert (Ascii.eqb a c = false) as -> by (apply Ascii.eqb_neq; congruence).
    done.
Qed.

Lemma string_app_assoc a b c :
  String.app (String.app a b) c = String.app a (String.app b c).
Proof.
  induction a as [|x a IH]; [done|].
  change (String x (String.app (String.app a b) c)
          = String x (String.app a (String.app b c))).
  by rewrite IH.
Qed.

Lemma occurs_app c a b : occurs c (String.app a b) = occurs c a || occurs c b.
Proof.
  induction a as [|x a IH]; simpl; [done|]. rewrite IH. by rewrite orb_assoc.
Qed.

Lemma splitByte_pieces sep s :
  occurs sep (GoStrings.splitByte sep s).1 = false ∧
  Forall (λ p, occurs sep p = false) (GoStrings.splitByte sep s).2.
Proof.
  induction s as [|c r [IH1 IH2]]; simpl; [by split|].
  destruct (GoStrings.splitByte sep r) as [hd tl]. simpl in *.
  destruct (Ascii.eqb c sep) eqn:Hc; simpl.
  - split; [done|]. by constructor.
  - by rewrite Hc, IH1.
Qed.

Lemma Split_pieces s sep : Forall (λ p, occurs sep p = false) (GoStrings.Split s sep).
Proof.
  unfold GoStrings.Split. pose proof (splitByte_pieces sep s) as [H1 H2].
  destruct (GoStrings.splitByte sep s). by constructor.
Qed.

Lemma splitByte_none sep s :
  occurs sep s = false → GoStrings.splitByte sep s = (s, []).
Proof.
  induction s as [|c r IH]; simpl; [done|].
  intros [Hc Hr]%orb_false_iff. by rewrite Hc, (IH Hr).
Qed.

Lemma Split_none s sep : occurs sep s = false → GoStrings.Split s sep = [s].
Proof. intros H. unfold GoStrings.Split. by rewrite splitByte_none. Qed.

Lemma Split_app a b sep :
  occurs sep a = false →
  GoStrings.Split (String.app a (String sep b)) sep = a :: GoStrings.Split b sep.
Proof.
  unfold GoStrings.Split. induction a as [|c r IH]; simpl.
  - intros _. rewrite Ascii.eqb_refl. by destruct (GoStrings.splitByte sep b).
  - intros [Hc Hr]%orb_false_iff. specialize (IH Hr).
    destruct (GoStrings.splitByte sep (String.app r (String sep b))) as [hd tl].
    destruct (GoStrings.splitByte sep b) as [hd' tl'].
    rewrite Hc. by injection IH as -> ->.
Qed.

Lemma Cut_none s sep : occurs sep s = false → GoStrings.Cut s sep = None.
Proof.
  induction s as [|c r IH]; simpl; [done|].
  intros [Hc Hr]%orb_false_iff. by rewrite Hc, (IH Hr).
Qed.

Lemma Cut_app a b sep :
  occurs sep a = false →
  GoStrings.Cut (String.app a (String sep b)) sep = Some (a, b).
Proof.
  induction a as [|c r IH]; simpl.
  - intros _. by rewrite Ascii.eqb_refl.
  - intros [Hc Hr]%orb_false_iff. by rewrite Hc, (IH Hr).
Qed.

Lemma Cut_some s sep before after :
  GoStrings.Cut s sep = Some (before, after) →
  s = String.app before (String sep after) ∧ occurs sep before = false.
Proof.
  revert before. induction s as [|c r IH]; intros before; simpl; [done|].
  destruct (Ascii.eqb c sep) eqn:Hc.
  - intros [= <- <-]. apply Ascii.eqb_eq in Hc as ->. done.
  - destruct (GoStrings.Cut r sep) as [[b a]|]; [|done].
    intros [= <- <-]. destruct (IH b eq_refl) as [-> Hb]. simpl.
    by rewrite Hc.
Qed.

Lemma occurs_TrimLeft c s : occurs c s = false → occurs c (GoStrings.TrimLeft s) = false.
Proof.
  induction s as [|a r IH]; simpl; [done|].
  intros [Ha Hr]%orb_false_iff. destruct (GoStrings.isSpace a); [by apply IH|].
  simpl. by rewrite Ha, Hr.
Qed.

Lemma occurs_TrimRight c s : occurs c s = false → occurs c (GoStrings.TrimRight s) = false.
Proof.
  induction s as [|a r IH]; simpl; [done|].
  intros [Ha Hr]%orb_false_iff. specialize (IH Hr).
  destruct (GoStrings.TrimRight r) as [|a' r'].
  - destruct (GoStrings.isSpace a); simpl; [done|]. by rewrite Ha.
  - simpl in *. by rewrite Ha, IH.
Qed.

Lemma occurs_elem c s : occurs c s = true ↔ c ∈ GoStrings.bytes s.
Proof.
  induction s as [|a r IH]; simpl.
  - split; [done|]. by intros ?%elem_of_nil.
  - change (GoStrings.bytes (String a r)) with (a :: GoStrings.bytes r).
    rewrite orb_true_iff, IH, elem_of_cons, Ascii.eqb_eq. naive_solver.
Qed.

Lemma occurs_TrimSpace c s : occurs c s = false → occurs c (GoStrings.TrimSpace s) = false.
Proof.
  intros H. destruct (occurs c (GoStrings.TrimSpace s)) eqn:Ht; [|done].
  apply occurs_elem in Ht. destruct (TrimSpace_infix s) as (k & e & Hke).
  rewrite Hke in Ht. apply subseteq_take, subseteq_drop in Ht.
  apply occurs_elem in Ht. congruence.
Qed.

Lemma TrimLeft_length s :
  (String.length (GoStrings.TrimLeft s) ≤ String.length s)%nat.
Proof.
  induction s as [|c r IH]; simpl; [done|].
  destruct (GoStrings.isSpace c); simpl; lia.
Qed.

Lemma TrimRight_length s :
  (String.length (GoStrings.TrimRight s) ≤ String.length s)%nat.
Proof.
  induction s as [|c r IH]; simpl; [done|].
  destruct (GoStrings.TrimRight r); [destruct (GoStrings.isSpace c)|];
    simpl in *; lia.
Qed.

Lemma TrimLeft_app_nonspace k c r :
  GoStrings.isSpace c = false →
  GoStrings.TrimLeft (String.app k (String c r))
  = String.app (GoStrings.TrimLeft k) (String c r).
Proof.
  intros Hc. induction k as [|a k IH]; simpl; [by rewrite Hc|].
  by destruct (GoStrings.isSpace a).
Qed.

Lemma TrimRight_app_nonspace a c r :
  GoStrings.isSpace c = false →
  GoStrings.TrimRight (String.app a (String c r))
  = String.app a (String c (GoStrings.TrimRight r)).
Proof.
  intros Hc. induction a as [|x a IH].
  - apply TrimRight_cons_nonspace, Hc.
  - change (String.app (String x a) (String c r))
      with (String x (String.app a (String c r))).
    cbn [GoStrings.TrimRight]. rewrite IH.
    by destruct a.
Qed.

Lemma TrimLeft_TrimRight s :
  GoStrings.TrimLeft (GoStrings.TrimRight s) = GoStrings.TrimRight (GoStrings.TrimLeft s).
Proof.
  induction s as [|c r IH]; [done|].
  destruct (GoStrings.isSpace c) eqn:Hc.
  - cbn [GoStrings.TrimLeft GoStrings.TrimRight]. rewrite Hc, <- IH.
    destruct (GoStrings.TrimRight r); [done|]. simpl. by rewrite Hc.
  - rewrite (TrimLeft_nonspace _ _ Hc), (TrimRight_cons_nonspace _ _ Hc).
    by apply TrimLeft_nonspace.
Qed.

Lemma TrimLeft_idemp s :
  GoStrings.TrimLeft (GoStrings.TrimLeft s) = GoStrings.TrimLeft s.
Proof.
  destruct (TrimLeft_head s) as [-> | (c & r & -> & Hc)]; [done|].
  by apply TrimLeft_nonspace.
Qed.

(** *** ASCII strings: [TrimSpace] is its two loops *)

Lemma bytes_app a b :
  GoStrings.bytes (String.app a b) = GoStrings.bytes a ++ GoStrings.bytes b.
Proof.
  induction a as [|c a IH]; [done|].
  change (GoStrings.bytes (String c (String.app a b))
          = c :: (GoStrings.bytes a ++ GoStrings.bytes b)).
  change (GoStrings.bytes (String c (String.app a b)))
    with (c :: GoStrings.bytes (String.app a b)).
  by rewrite IH.
Qed.

Lemma isASCIIString_app a b :
  isASCIIString (String.app a b) = isASCIIString a && isASCIIString b.
Proof. unfold isASCIIString, GoStrings.isASCII. by rewrite bytes_app, forallb_app. Qed.

Lemma isASCII_sub (l l' : list ascii) :
  l' ⊆ l → GoStrings.isASCII l = true → GoStrings.isASCII l' = true.
Proof.
  unfold GoStrings.isASCII. rewrite !forallb_forall. intros Hsub H c Hc.
  apply H, list_elem_of_In, Hsub. by apply list_elem_of_In.
Qed.

Lemma isASCIIString_TrimLeft s :
  isASCIIString s = true → isASCIIString (GoStrings.TrimLeft s) = true.
Proof.
  unfold isASCIIString. destruct (TrimLeft_suffix s) as [k ->].
  apply isASCII_sub. intros c. apply subseteq_drop.
Qed.

Lemma isASCIIString_TrimRight s :
  isASCIIString s = true → isASCIIString (GoStrings.TrimRight s) = true.
Proof.
  unfold isASCIIString. destruct (TrimRight_prefix s) as [e ->].
  apply isASCII_sub. intros c. apply subseteq_take.
Qed.

Lemma TrimSpace_loops s :
  isASCIIString s = true →
  GoStrings.TrimSpace s = GoStrings.TrimRight (GoStrings.TrimLeft s).
Proof. apply TrimSpace_ASCII. Qed.

Lemma TrimSpace_ASCII_fixed s :
  isASCIIString s = true → GoStrings.TrimSpace s = s →
  GoStrings.TrimLeft s = s ∧ GoStrings.TrimRight s = s.
Proof.
  intros Ha. rewrite (TrimSpace_loops s Ha). intros H.
  assert (Hl : GoStrings.TrimLeft s = s).
  { pose proof (TrimRight_length (GoStrings.TrimLeft s)) as H1.
    rewrite H in H1. destruct s as [|c r]; [done|]. simpl in *.
    destruct (GoStrings.isSpace c); [|done].
    pose proof (TrimLeft_length r). lia. }
  split; [done|]. by rewrite Hl in H.
Qed.

Lemma TrimSpace_TrimLeft s :
  isASCIIString s = true →
  GoStrings.TrimSpace (GoStrings.TrimLeft s) = GoStrings.TrimSpace s.
Proof.
  intros Ha.
  rewrite (TrimSpace_loops _ (isASCIIString_TrimLeft _ Ha)), (TrimSpace_loops _ Ha).
  by rewrite TrimLeft_idemp.
Qed.

Lemma TrimSpace_TrimRight s :
  isASCIIString s = true →
  GoStrings.TrimSpace (GoStrings.TrimRight s) = GoStrings.TrimSpace s.
Proof.
  intros Ha.
  rewrite (TrimSpace_loops _ (isASCIIString_TrimRight _ Ha)), (TrimSpace_loops _ Ha).
  by rewrite TrimLeft_TrimRight, TrimRight_idemp.
Qed.

(** ** Header flags *)

Lemma normalize_pieces_fold parts acc :
  fold_left (λ normalized part,
               let trimmed := GoStrings.TrimSpace part in
               if bool_decide (trimmed ≠ "")
               then normalized ++ [trimmed] else normalized) parts acc
  = acc ++ List.filter (λ p, bool_decide (p ≠ "")) (GoStrings.TrimSpace <$> parts).
Proof.
  revert acc. induction parts as [|p ps IH]; intros acc; simpl.
  - by rewrite app_nil_r.
  - rewrite IH. destruct (bool_decide (GoStrings.TrimSpace p ≠ "")); [|done].
    by rewrite <- app_assoc.
Qed.

Lemma normalizeHeaderFlags_fold hs acc :
  fold_left (λ normalized h,
               if GoStrings.Contains h "," then
                 fold_left (λ normalized part,
                              let trimmed := GoStrings.TrimSpace part in
                              if bool_decide (trimmed ≠ "")
                              then normalized ++ [trimmed] else normalized)
                           (GoStrings.Split h ",") normalized
               else normalized ++ [h]) hs acc
  = acc ++ flat_map headerPieces hs.
Proof.
  revert acc. induction hs as [|h hs IH]; intros acc; simpl.
  - by rewrite app_nil_r.
  - rewrite IH. unfold headerPieces.
    destruct (GoStrings.Contains h ","); [|by rewrite <- app_assoc].
    by rewrite normalize_pieces_fold, <- app_assoc.
Qed.

Lemma normalizeHeaderFlags_pieces hs :
  normalizeHeaderFlags hs = flat_map headerPieces hs.
Proof. unfold normalizeHeaderFlags. by rewrite normalizeHeaderFlags_fold. Qed.

Lemma headerPieces_spec h p :
  p ∈ headerPieces h →
  GoStrings.Contains p "," = false ∧
  (p = h ∨ (p ≠ "" ∧ GoStrings.TrimSpace p = p)).
Proof.
  unfold headerPieces. destruct (GoStrings.Contains h ",") eqn:Hc.
  - intros Hp. apply list_elem_of_In, List.filter_In in Hp as [Hp Hne].
    apply bool_decide_eq_true in Hne.
    apply list_elem_of_In, list_elem_of_fmap in Hp as (q & -> & Hq).
    pose proof (proj1 (Forall_forall _ _) (Split_pieces h ",") q Hq) as Hq'.
    simpl in Hq'. split.
    + rewrite Contains_byte. by apply occurs_TrimSpace.
    + right. split; [done|]. apply TrimSpace_idemp.
  - intros ->%list_elem_of_singleton. split; [done|]. by left.
Qed.

Lemma flat_map_pieces_id hs :
  Forall (λ h, GoStrings.Contains h "," = false) hs →
  flat_map headerPieces hs = hs.
Proof.
  induction 1 as [|h hs Hh _ IH]; simpl; [done|].
  unfold headerPieces at 1. by rewrite Hh, IH.
Qed.

Lemma elem_of_headerPieces h p :
  p ∈ headerPieces h ↔
  (GoStrings.Contains h "," = false ∧ p = h) ∨
  (GoStrings.Contains h "," = true ∧ p ≠ "" ∧
   ∃ piece, piece ∈ GoStrings.Split h "," ∧ p = GoStrings.TrimSpace piece).
Proof.
  unfold headerPieces. destruct (GoStrings.Contains h ",").
  - rewrite list_elem_of_In, List.filter_In, <- list_elem_of_In.
    rewrite list_elem_of_fmap, bool_decide_eq_true. split.
    + intros [(q & -> & Hq) Hne]. right. split_and!; [done|done|]. by exists q.
    + intros [[? _]|(_ & Hne & q & Hq & ->)]; [done|]. split; [|done]. by exists q.
  - rewrite list_elem_of_singleton. naive_solver.
Qed.

(** X13. [normalizeHeaderFlags] is
    idempotent; no flag it returns contains a comma; a list of comma-free
    flags comes back unchanged; and the flags it returns are exactly the
    comma-free given flags and, of each given flag with a comma, the
    non-empty trimmed pieces between the commas, in the order given. *)
Theorem normalizeHeaderFlags_idempotent (headers : list string) :
  normalizeHeaderFlags (normalizeHeaderFlags headers) = normalizeHeaderFlags headers ∧
  Forall (λ h, GoStrings.Contains h "," = false) (normalizeHeaderFlags headers) ∧
  (if forallb (λ h, negb (GoStrings.Contains h ",")) headers
   then normalizeHeaderFlags headers = headers
   else True) ∧
  normalizeHeaderFlags headers = flat_map headerPieces headers ∧
  (∀ p, p ∈ normalizeHeaderFlags headers ↔
        ∃ h, h ∈ headers ∧
             ((GoStrings.Contains h "," = false ∧ p = h) ∨
              (GoStrings.Contains h "," = true ∧ p ≠ "" ∧
               ∃ piece, piece ∈ GoStrings.Split h "," ∧
                        p = GoStrings.TrimSpace piece))).
Proof.
  assert (Hfree : Forall (λ h, GoStrings.Contains h "," = false)
                         (normalizeHeaderFlags headers)).
  { rewrite normalizeHeaderFlags_pieces. apply Forall_forall. intros p Hp.
    apply list_elem_of_In, in_flat_map in Hp as (h & _ & Hp).
    apply list_elem_of_In in Hp. by apply (headerPieces_spec h). }
  split_and!.
  - rewrite (normalizeHeaderFlags_pieces (normalizeHeaderFlags headers)).
    by apply flat_map_pieces_id.
  - done.
  - destruct (forallb _ headers) eqn:Hall; [|done].
    rewrite normalizeHeaderFlags_pieces. apply flat_map_pieces_id.
    apply Forall_forall. intros h Hh.
    pose proof (proj1 (forallb_forall _ _) Hall h) as Hc.
    apply negb_true_iff, Hc. by apply list_elem_of_In.
  - apply normalizeHeaderFlags_pieces.
  - intros p. rewrite normalizeHeaderFlags_pieces.
    rewrite list_elem_of_In, in_flat_map. split.
    + intros (h & Hh & Hp). exists h. split; [by apply list_elem_of_In|].
      by apply elem_of_headerPieces, list_elem_of_In.
    + intros (h & Hh & Hp). exists h. split; [by apply list_elem_of_In|].
      by apply list_elem_of_In, elem_of_headerPieces.
Qed.

(** ** [parseHeaders] *)

Lemma addHeader_no_colon rt headers line :
  occurs ":" line = false → addHeader rt headers line = headers.
Proof.
  intros H. unfold addHeader, GoStrings.SplitN2. by rewrite Cut_none.
Qed.

Lemma addHeader_empty rt headers : addHeader rt headers "" = headers.
Proof. by apply addHeader_no_colon. Qed.

Lemma addHeader_colon rt headers name value :
  occurs ":" name = false →
  addHeader rt headers (String.app name (String ":" value))
  = Header_Add rt headers (GoStrings.TrimSpace name) (GoStrings.TrimSpace value).
Proof.
  intros H. unfold addHeader, GoStrings.SplitN2. by rewrite Cut_app.
Qed.

Lemma addHeaderParts_pieces rt headers h :
  addHeaderParts rt headers h
  = fold_left (addHeader rt)
      (List.filter (λ p, bool_decide (p ≠ ""))
                   (GoStrings.TrimSpace <$> GoStrings.Split h ",")) headers.
Proof.
  unfold addHeaderParts. generalize (GoStrings.Split h ",").
  intros parts. revert headers.
  induction parts as [|p ps IH]; intros headers; simpl; [done|].
  destruct (decide (GoStrings.TrimSpace p = "")) as [Hp|Hp].
  - rewrite Hp, addHeader_empty. rewrite bool_decide_eq_false_2 by tauto. apply IH.
  - rewrite (bool_decide_eq_true_2 _ Hp). simpl. apply IH.
Qed.

Lemma parseHeaders_from_nofile rt w flags : ∀ headers,
  Forall (λ h, os_Stat rt h ≠ None) flags →
  parseHeaders_from rt w headers flags
  = (fold_left (addHeaderFlag rt) flags headers, None).
Proof.
  induction flags as [|h flags IH]; intros headers Hall; simpl; [done|].
  apply Forall_cons in Hall as [Hh Hall].
  destruct (os_Stat rt h); [|done]. unfold addHeaderFlag at 2.
  destruct (GoStrings.Contains h ","); by apply IH.
Qed.

Lemma addHeaderFlag_pieces rt headers h :
  fold_left (addHeaderFlag rt) (headerPieces h) headers = addHeaderFlag rt headers h.
Proof.
  unfold headerPieces, addHeaderFlag at 2.
  destruct (GoStrings.Contains h ",") eqn:Hc.
  - rewrite addHeaderParts_pieces.
    assert (Hfree : Forall (λ p, GoStrings.Contains p "," = false)
              (List.filter (λ p, bool_decide (p ≠ ""))
                 (GoStrings.TrimSpace <$> GoStrings.Split h ","))).
    { apply Forall_forall. intros p Hp.
      apply (headerPieces_spec h). unfold headerPieces. by rewrite Hc. }
    revert headers. induction Hfree as [|p ps Hp _ IH]; intros headers; [done|].
    simpl. unfold addHeaderFlag at 2. rewrite Hp. apply IH.
  - simpl. unfold addHeaderFlag. by rewrite Hc.
Qed.

(** X14. When no flag and no piece
    [normalizeHeaderFlags] makes of a flag names an existing file, splitting
    the header flags with [normalizeHeaderFlags] first does not change what
    [parseHeaders] makes of them, and [parseHeaders] returns no error. *)
Theorem parseHeaders_after_normalizeHeaderFlags
    (rt : Runtime) (w : World) (headerFlags : list string) :
  Forall (λ h, os_Stat rt h ≠ None) headerFlags →
  Forall (λ p, os_Stat rt p ≠ None) (normalizeHeaderFlags headerFlags) →
  parseHeaders rt w (normalizeHeaderFlags headerFlags)
  = parseHeaders rt w headerFlags ∧
  (parseHeaders rt w headerFlags).2 = None.
Proof.
  intros Hflags Hpieces. unfold parseHeaders.
  rewrite !parseHeaders_from_nofile by done.
  split; [|done]. f_equal. rewrite normalizeHeaderFlags_pieces.
  generalize (∅ : gmap string (list string)).
  clear Hflags Hpieces.
  induction headerFlags as [|h hs IH]; intros headers; simpl; [done|].
  by rewrite fold_left_app, addHeaderFlag_pieces, IH.
Qed.

Lemma parseHeaders_after_normalizeHeaderFlags_witness :
  parseHeaders MoreExamples.oneFile Examples.mockServer
    (normalizeHeaderFlags ["User-Agent: probe,  Accept: text/html ,"; "X-Id: 7"])
  = parseHeaders MoreExamples.oneFile Examples.mockServer
      ["User-Agent: probe,  Accept: text/html ,"; "X-Id: 7"].
Proof.
  apply (parseHeaders_after_normalizeHeaderFlags MoreExamples.oneFile
           Examples.mockServer).
  - apply (bool_decide_unpack _). by vm_compute.
  - apply (bool_decide_unpack _). by vm_compute.
Defined.

Lemma Header_Add_clean rt headers name value :
  headersClean headers → GoStrings.TrimSpace value = value →
  headersClean (Header_Add rt headers name value).
Proof.
  intros Hc Hv k vs. unfold Header_Add.
  destruct (decide (CanonicalMIMEHeaderKey rt name = k)) as [<-|Hne].
  - rewrite lookup_insert_eq. intros [= <-]. split.
    + by destruct (default [] (headers !! CanonicalMIMEHeaderKey rt name)).
    + apply Forall_app. split; [|by repeat constructor].
      destruct (headers !! CanonicalMIMEHeaderKey rt name) as [old|] eqn:Hold;
        simpl; [|constructor]. by apply (Hc _ _ Hold).
  - rewrite lookup_insert_ne by done. apply Hc.
Qed.

Lemma addHeader_clean rt headers line :
  headersClean headers → headersClean (addHeader rt headers line).
Proof.
  intros Hc. unfold addHeader.
  destruct (GoStrings.SplitN2 line ":") as [|name [|value [|? ?]]]; try done.
  apply Header_Add_clean; [done|apply TrimSpace_idemp].
Qed.

Lemma fold_addHeader_clean rt (f : string → string) lines : ∀ headers,
  headersClean headers →
  headersClean (fold_left (λ headers line, addHeader rt headers (f line)) lines headers).
Proof.
  induction lines as [|l lines IH]; intros headers Hc; simpl; [done|].
  by apply IH, addHeader_clean.
Qed.

Lemma addHeaderLines_clean rt lines : ∀ headers,
  headersClean headers → headersClean (addHeaderLines rt headers lines).
Proof.
  unfold addHeaderLines.
  induction lines as [|l lines IH]; intros headers Hc; simpl; [done|].
  apply IH. destruct (_ || _); [done|]. by apply addHeader_clean.
Qed.

Lemma parseHeaders_from_clean rt w flags : ∀ headers,
  headersClean headers → headersClean (parseHeaders_from rt w headers flags).1.
Proof.
  induction flags as [|h flags IH]; intros headers Hc; simpl; [done|].
  destruct (os_Stat rt h).
  - destruct (GoStrings.Contains h ","); apply IH.
    + by apply (fold_addHeader_clean rt GoStrings.TrimSpace).
    + by apply addHeader_clean.
  - destruct (readLinesFromFile w h) as [lines [e|]]; simpl.
    + intros k vs. by rewrite lookup_empty.
    + by apply IH, addHeaderLines_clean.
Qed.

(** X15. In the header map [parseHeaders] returns, from
    flags and from header files alike, no name is without a value and every
    value is trimmed: [strings.TrimSpace] would not change it. *)
Theorem parseHeaders_clean (rt : Runtime) (w : World) (headerFlags : list string) :
  ∀ name values,
    (parseHeaders rt w headerFlags).1 !! name = Some values →
    values ≠ [] ∧ Forall (λ v, GoStrings.TrimSpace v = v) values.
Proof.
  apply (parseHeaders_from_clean rt w headerFlags ∅).
  intros k vs. by rewrite lookup_empty.
Qed.

Lemma parseHeaders_clean_witness :
  (parseHeaders MoreExamples.noFiles Examples.mockServer
     ["X-Trace:  on "; "Accept: text/html, application/json"]).1
    !! "Accept" = Some ["text/html"] ∧
  ["text/html"] ≠ [] ∧
  Forall (λ v, GoStrings.TrimSpace v = v) ["text/html"].
Proof.
  assert (H : (parseHeaders MoreExamples.noFiles Examples.mockServer
                 ["X-Trace:  on "; "Accept: text/html, application/json"]).1
                !! "Accept" = Some ["text/html"]) by (by vm_compute).
  split; [exact H|].
  exact (parseHeaders_clean _ _ _ _ _ H).
Defined.

Lemma parseHeaders_from_error rt w flags : ∀ headers,
  match (parseHeaders_from rt w headers flags).2 with
  | Some err =>
      (parseHeaders_from rt w headers flags).1 = ∅ ∧
      ∃ h err', h ∈ flags ∧ os_Stat rt h = None ∧
                (readLinesFromFile w h).2 = Some err' ∧
                err = Errorf_w "failed to read headers from file" err'
  | None =>
      ∀ h, h ∈ flags → os_Stat rt h = None → (readLinesFromFile w h).2 = None
  end.
Proof.
  induction flags as [|h flags IH]; intros headers; simpl.
  - by intros h ?%elem_of_nil.
  - assert (Hlift : ∀ acc,
      match (parseHeaders_from rt w acc flags).2 with
      | Some err =>
          (parseHeaders_from rt w acc flags).1 = ∅ ∧
          ∃ h0 err', h0 ∈ h :: flags ∧ os_Stat rt h0 = None ∧
                     (readLinesFromFile w h0).2 = Some err' ∧
                     err = Errorf_w "failed to read headers from file" err'
      | None =>
          (os_Stat rt h = None → (readLinesFromFile w h).2 = None) →
          ∀ h0, h0 ∈ h :: flags → os_Stat rt h0 = None →
                (readLinesFromFile w h0).2 = None
      end).
    { intros acc. specialize (IH acc).
      destruct ((parseHeaders_from rt w acc flags).2) as [e|].
      - destruct IH as (He & h0 & e' & Hin & ?). split; [done|].
        exists h0, e'. split; [by right|done].
      - intros Hh h0 [->|Hin]%elem_of_cons; [done|]. by apply IH. }
    destruct (os_Stat rt h) eqn:Hstat.
    + destruct (GoStrings.Contains h ",").
      * specialize (Hlift (addHeaderParts rt headers h)).
        destruct ((parseHeaders_from rt w _ flags).2); [done|]. by apply Hlift.
      * specialize (Hlift (addHeader rt headers h)).
        destruct ((parseHeaders_from rt w _ flags).2); [done|]. by apply Hlift.
    + destruct (readLinesFromFile w h) as [lines [e|]] eqn:Hread; simpl.
      * split; [done|]. exists h, e.
        split_and!; [by left|exact Hstat|by rewrite Hread|done].
      * specialize (Hlift (addHeaderLines rt headers lines)).
        destruct ((parseHeaders_from rt w _ flags).2); [done|].
        apply Hlift. by intros _.
Qed.

(** X16. [parseHeaders] returns an error exactly when
    one of the flags names an existing file that cannot be read; the error
    wraps the read error of such a file and comes with an empty header map;
    a malformed flag is never an error. *)
Theorem parseHeaders_error (rt : Runtime) (w : World) (headerFlags : list string) :
  ((parseHeaders rt w headerFlags).2 ≠ None ↔
   ∃ h, h ∈ headerFlags ∧ os_Stat rt h = None ∧ (readLinesFromFile w h).2 ≠ None) ∧
  match (parseHeaders rt w headerFlags).2 with
  | Some err =>
      (parseHeaders rt w headerFlags).1 = ∅ ∧
      ∃ h err', h ∈ headerFlags ∧ os_Stat rt h = None ∧
                (readLinesFromFile w h).2 = Some err' ∧
                err = Errorf_w "failed to read headers from file" err'
  | None => True
  end.
Proof.
  pose proof (parseHeaders_from_error rt w headerFlags ∅) as H.
  fold (parseHeaders rt w headerFlags) in H.
  destruct ((parseHeaders rt w headerFlags).2) as [e|].
  - split; [|done]. split; [|done]. intros _.
    destruct H as (_ & h & e' & Hin & Hstat & Hread & _).
    exists h. split_and!; [done|done|]. by rewrite Hread.
  - split; [|done]. split; [done|].
    intros (h & Hin & Hstat & Hread). by destruct Hread, (H h).
Qed.

(** X17. A header flag whose value contains
    a comma is split there: of [name: v1,v2] (ASCII name and [v1], no file
    of that name, no colon in [v2]) only [v1] reaches the header map,
    trimmed, under the canonical form of the trimmed name; the rest of the
    value is dropped without an error. *)
Theorem parseHeaders_value_cut_at_comma
    (rt : Runtime) (w : World) (name v1 v2 : string) :
  let flag := String.app name (String ":" (String.app v1 (String "," v2))) in
  os_Stat rt flag ≠ None →
  isASCIIString name = true → isASCIIString v1 = true →
  occurs ":" name = false → occurs "," name = false →
  occurs "," v1 = false →
  occurs ":" v2 = false → occurs "," v2 = false →
  parseHeaders rt w [flag]
  = ({[ CanonicalMIMEHeaderKey rt (GoStrings.TrimSpace name)
        := [GoStrings.TrimSpace v1] ]}, None).
Proof.
  intros flag Hstat Han Hav Hn1 Hn2 Hv1 Hv2c Hv2.
  unfold parseHeaders. cbn [parseHeaders_from].
  destruct (os_Stat rt flag); [|done].
  assert (Hflag : flag = String.app (String.app name (String ":" v1)) (String "," v2)).
  { unfold flag. by rewrite string_app_assoc. }
  assert (Hhas : GoStrings.Contains flag "," = true).
  { rewrite Contains_byte, Hflag, occurs_app. simpl.
    by destruct (occurs "," (String.app name (String ":" v1))). }
  rewrite Hhas. unfold addHeaderParts.
  assert (Hpre : occurs "," (String.app name (String ":" v1)) = false).
  { rewrite occurs_app. simpl. by rewrite Hn2, Hv1. }
  rewrite Hflag, (Split_app _ _ _ Hpre), (Split_none _ _ Hv2). simpl.
  rewrite (addHeader_no_colon _ _ (GoStrings.TrimSpace v2))
    by (by apply occurs_TrimSpace).
  assert (Hpart : isASCIIString (String.app name (String ":" v1)) = true).
  { rewrite isASCIIString_app, Han.
    change (String ":" v1) with (String.app ":" v1).
    by rewrite isASCIIString_app, Hav. }
  rewrite (TrimSpace_loops _ Hpart).
  rewrite (TrimLeft_app_nonspace name ":" v1) by done.
  rewrite (TrimRight_app_nonspace (GoStrings.TrimLeft name) ":" v1) by done.
  rewrite addHeader_colon by (by apply occurs_TrimLeft).
  rewrite (TrimSpace_TrimLeft _ Han), (TrimSpace_TrimRight _ Hav).
  unfold Header_Add. by rewrite lookup_empty.
Qed.

Lemma parseHeaders_value_cut_at_comma_witness :
  parseHeaders MoreExamples.noFiles Examples.mockServer
    ["Accept: text/html, application/json"]
  = ({[ "Accept" := ["text/html"] ]}, None).
Proof.
  apply (parseHeaders_value_cut_at_comma MoreExamples.noFiles Examples.mockServer
           "Accept" " text/html" " application/json");
    (discriminate || reflexivity).
Defined.

(** ** [parseCookies] *)

Lemma string_app_nil_r s : String.app s "" = s.
Proof.
  induction s as [|c r IH]; [done|].
  change (String c (String.app r "") = String c r). by rewrite IH.
Qed.

Lemma addCookie_no_equals cookies pair :
  occurs "=" pair = false → addCookie cookies pair = cookies.
Proof. intros H. unfold addCookie, GoStrings.SplitN2. by rewrite Cut_none. Qed.

Lemma TrimSpace_pair pre name value :
  pre = "" ∨ pre = " " →
  isASCIIString name = true → isASCIIString value = true →
  GoStrings.TrimSpace name = name → GoStrings.TrimSpace value = value →
  GoStrings.TrimSpace (String.app pre (String.app name (String "=" value)))
  = String.app name (String "=" value).
Proof.
  intros Hpre Han Hav [Hn _]%TrimSpace_ASCII_fixed [_ Hv]%TrimSpace_ASCII_fixed;
    [|done..].
  assert (Hpair : isASCIIString (String.app name (String "=" value)) = true).
  { rewrite isASCIIString_app, Han.
    change (String "=" value) with (String.app "=" value).
    by rewrite isASCIIString_app, Hav. }
  assert (Hall : isASCIIString
            (String.app pre (String.app name (String "=" value))) = true).
  { rewrite isASCIIString_app, Hpair. by destruct Hpre as [-> | ->]. }
  rewrite (TrimSpace_loops _ Hall).
  assert (GoStrings.TrimLeft (String.app pre (String.app name (String "=" value)))
          = String.app name (String "=" value)) as Hl.
  { destruct Hpre as [-> | ->].
    - change (String.app "" ?x) with x.
      by rewrite (TrimLeft_app_nonspace name "=" value), Hn.
    - change (String.app " " ?x) with (String " " x).
      cbn [GoStrings.TrimLeft]. change (GoStrings.isSpace " ") with true.
      cbv iota. by rewrite (TrimLeft_app_nonspace name "=" value), Hn. }
  rewrite Hl.
  by rewrite (TrimRight_app_nonspace name "=" value), Hv.
Qed.

Lemma addCookie_pair cookies pre p :
  pre = "" ∨ pre = " " → cleanCookie p →
  addCookie cookies
    (GoStrings.TrimSpace (String.app pre (String.app p.1 (String "=" p.2))))
  = <[p.1 := p.2]> cookies.
Proof.
  intros Hpre (Han & Hav & Hn & Hv & He & _ & _).
  rewrite (TrimSpace_pair pre _ _ Hpre Han Hav Hn Hv).
  unfold addCookie, GoStrings.SplitN2. by rewrite (Cut_app _ _ _ He), Hn, Hv.
Qed.

Lemma parseCookies_fold_render pairs : ∀ cookies pre,
  pairs ≠ [] → Forall cleanCookie pairs → pre = "" ∨ pre = " " →
  fold_left (λ cookies part, addCookie cookies (GoStrings.TrimSpace part))
            (GoStrings.Split (String.app pre (renderCookies pairs)) ";") cookies
  = fold_left (λ cookies p, <[p.1 := p.2]> cookies) pairs cookies.
Proof.
  induction pairs as [|p pairs IH]; intros cookies pre Hne Hall Hpre; [done|].
  apply Forall_cons in Hall as [Hp Hall].
  pose proof Hp as (_ & _ & _ & _ & _ & Hn & Hv).
  assert (Hpiece : occurs ";" (String.app pre (String.app p.1 (String "=" p.2))) = false).
  { rewrite !occurs_app. simpl. rewrite Hn, Hv.
    by destruct Hpre as [-> | ->]. }
  destruct pairs as [|q pairs].
  - cbn [renderCookies fold_left]. rewrite string_app_nil_r.
    rewrite (Split_none _ _ Hpiece). cbn [fold_left].
    by rewrite (addCookie_pair _ _ _ Hpre Hp).
  - assert (Hshape :
      String.app pre (renderCookies (p :: q :: pairs))
      = String.app (String.app pre (String.app p.1 (String "=" p.2)))
          (String ";" (String.app " " (renderCookies (q :: pairs))))).
    { cbn [renderCookies]. by rewrite !string_app_assoc. }
    rewrite Hshape, (Split_app _ _ _ Hpiece).
    cbn [fold_left]. rewrite (addCookie_pair _ _ _ Hpre Hp).
    apply IH; [done|done|by right].
Qed.

Lemma fold_insert_list_to_map (pairs : list (string * string)) :
  ∀ cookies : gmap string string,
  fold_left (λ cookies p, <[p.1 := p.2]> cookies) pairs cookies
  = foldr (λ p, <[p.1 := p.2]>) cookies (reverse pairs).
Proof.
  induction pairs as [|p pairs IH]; intros cookies; [done|].
  cbn [fold_left]. by rewrite IH, reverse_cons, foldr_app.
Qed.

(** X18. [parseCookies] reads back what the documented
    format writes: for ASCII pairs that are trimmed, without [;] and without
    [=] in the name, the string [name1=value1; name2=value2; ...] (when it
    does not name an existing file) is parsed without error into the map of
    the pairs, a later pair replacing an earlier one of the same name. *)
Theorem parseCookies_render (rt : Runtime) (w : World)
    (pairs : list (string * string)) :
  Forall cleanCookie pairs →
  os_Stat rt (renderCookies pairs) ≠ None →
  parseCookies rt w (renderCookies pairs) = (list_to_map (reverse pairs), None).
Proof.
  intros Hall Hstat. unfold parseCookies.
  destruct pairs as [|p pairs]; [done|].
  rewrite bool_decide_eq_false_2.
  2:{ cbn [renderCookies]. by destruct p.1. }
  destruct (os_Stat rt (renderCookies (p :: pairs))); [|done].
  f_equal.
  pose proof (parseCookies_fold_render (p :: pairs) ∅ "" ltac:(done) Hall
                ltac:(by left)) as H.
  change (String.app "" ?x) with x in H. rewrite H.
  apply fold_insert_list_to_map.
Qed.

Lemma parseCookies_render_witness :
  let pairs := [("session", "abc"); ("theme", "dark"); ("session", "xyz")] in
  Forall cleanCookie pairs ∧
  os_Stat MoreExamples.noFiles (renderCookies pairs) ≠ None ∧
  parseCookies MoreExamples.noFiles Examples.mockServer (renderCookies pairs)
  = (list_to_map (reverse pairs), None).
Proof.
  intros pairs.
  assert (Forall cleanCookie pairs) as Hclean by (repeat constructor).
  assert (os_Stat MoreExamples.noFiles (renderCookies pairs) ≠ None) as Hstat
    by discriminate.
  split_and!; [done|done|].
  exact (parseCookies_render MoreExamples.noFiles Examples.mockServer pairs
           Hclean Hstat).
Defined.

Lemma splitByte_occurs c sep s :
  occurs c s = false →
  let '(hd, tl) := GoStrings.splitByte sep s in
  Forall (λ p, occurs c p = false) (hd :: tl).
Proof.
  induction s as [|a r IH]; simpl.
  - intros _. by repeat constructor.
  - intros [Ha Hr]%orb_false_iff.
    destruct (GoStrings.splitByte sep r) as [hd tl].
    apply IH in Hr. apply Forall_cons in Hr as [Hhd Htl].
    destruct (Ascii.eqb a sep).
    + by repeat constructor.
    + constructor; [|done]. simpl. by rewrite Ha.
Qed.

Lemma addCookie_clean cookies pair :
  cookiesClean cookies → cookiesClean (addCookie cookies pair).
Proof.
  intros Hc. unfold addCookie, GoStrings.SplitN2.
  destruct (GoStrings.Cut pair "=") as [[n v]|] eqn:Hcut; [|done].
  apply Cut_some in Hcut as [_ Hn].
  intros k x. destruct (decide (k = GoStrings.TrimSpace n)) as [->|Hne].
  - rewrite lookup_insert_eq. intros [= <-].
    split_and!; [apply TrimSpace_idemp|apply TrimSpace_idemp|].
    by apply occurs_TrimSpace.
  - rewrite lookup_insert_ne by done. apply Hc.
Qed.

Lemma fold_addCookie_clean (f : gmap string string → string → gmap string string)
    lines :
  (∀ cookies line, cookiesClean cookies → cookiesClean (f cookies line)) →
  ∀ cookies, cookiesClean cookies → cookiesClean (fold_left f lines cookies).
Proof.
  intros Hf. induction lines as [|l lines IH]; intros cookies Hc; [done|].
  cbn [fold_left]. by apply IH, Hf.
Qed.

(** X19. Whether the cookies come from a file or from the
    flag itself, every name and value in the map [parseCookies] returns is
    trimmed and no name contains [=] (a pair is cut at its first [=]); an
    error comes with an empty map, and a flag without any [=] that names no
    file gives the empty map and no error. *)
Theorem parseCookies_clean (rt : Runtime) (w : World) (cookieStr : string) :
  cookiesClean (parseCookies rt w cookieStr).1 ∧
  ((parseCookies rt w cookieStr).2 ≠ None → (parseCookies rt w cookieStr).1 = ∅) ∧
  (occurs "=" cookieStr = false → os_Stat rt cookieStr ≠ None →
   parseCookies rt w cookieStr = (∅, None)).
Proof.
  assert (He : cookiesClean ∅) by (intros k v; by rewrite lookup_empty).
  unfold parseCookies. split_and!.
  - destruct (bool_decide (cookieStr = "")); [done|].
    destruct (os_Stat rt cookieStr).
    + cbn [fst]. apply fold_addCookie_clean; [|done].
      intros cookies line Hc. by apply addCookie_clean.
    + destruct (readLinesFromFile w cookieStr) as [ls [e|]]; [done|].
      cbn [fst]. apply fold_addCookie_clean; [|done].
      intros cookies line Hc.
      destruct (bool_decide (line = "") || GoStrings.HasPrefix line "#");
        [done|by apply addCookie_clean].
  - destruct (bool_decide (cookieStr = "")); [done|].
    destruct (os_Stat rt cookieStr); [done|].
    by destruct (readLinesFromFile w cookieStr) as [ls [e|]].
  - intros Hno Hstat. destruct (bool_decide (cookieStr = "")); [done|].
    destruct (os_Stat rt cookieStr); [|done]. f_equal.
    assert (HF : Forall (λ p, occurs "=" p = false) (GoStrings.Split cookieStr ";")).
    { unfold GoStrings.Split.
      destruct (GoStrings.splitByte ";" cookieStr) as [hd tl] eqn:Hsp.
      pose proof (splitByte_occurs "=" ";" cookieStr Hno) as H.
      by rewrite Hsp in H. }
    revert HF. generalize (GoStrings.Split cookieStr ";").
    intros pieces HF. induction HF as [|p pieces Hp _ IH]; [done|].
    cbn [fold_left].
    by rewrite (addCookie_no_equals _ _ (occurs_TrimSpace _ _ Hp)).
Qed.

(** ** [runSingleProbe] and [Run] *)

Lemma bind_pair {A B} (t : list Event) (a : A) (k : A → Eff B) :
  bind (t, a) k = (t ++ trace (k a), value (k a)).
Proof. unfold bind, trace, value. by destruct (k a). Qed.

Lemma bind_congr {A B} (c : Eff A) (k k' : A → Eff B) :
  k (value c) = k' (value c) → bind c k = bind c k'.
Proof. destruct c as [t a]. unfold value. simpl. by intros ->. Qed.

Lemma withURL_same config : withURL config (URL config) = config.
Proof. by destruct config. Qed.

Lemma withScheme_eq config :
  ∃ pre, withScheme config = (pre, schemed config) ∧ requests pre = [].
Proof.
  unfold withScheme, schemed, ensureScheme.
  destruct (bool_decide (URL config ≠ "")
            && negb (GoStrings.Contains (URL config) "://")).
  - by eexists.
  - exists []. by rewrite withURL_same.
Qed.

Lemma getMethods_wordlist_error w config err :
  wordlistError w config = Some err →
  requests (trace (getMethods w config)) = [] ∧
  trace (getMethods w config)
  = [EvLog LevelDebug "Using %d default HTTP methods" [ArgInt 32]] ∧
  ∃ e, value (getMethods w config) = ([], Some e).
Proof.
  unfold wordlistError, getMethods.
  destruct (bool_decide (Wordlist config ≠ "")); [|done].
  destruct (readLinesFromFile w (Wordlist config)) as [ls [e|]]; [|done].
  intros _. split_and!; [done|done|]. by eexists.
Qed.

Lemma filterMethods_requests config methods :
  requests (trace (filterMethods config methods)) = [].
Proof. unfold filterMethods. by destruct (SafeOnly config). Qed.

Lemma filterMethods_GET config catalog :
  "GET" ∈ catalog → value (filterMethods config catalog) ≠ [].
Proof.
  intros Hin. unfold filterMethods.
  assert (H : "GET" ∈ value (filterMethods config catalog)).
  { unfold filterMethods. destruct (SafeOnly config).
    - rewrite value_bind. simpl. rewrite safeMethods_filter.
      apply list_elem_of_In, List.filter_In. split; [by apply list_elem_of_In|].
      by vm_compute.
    - by rewrite !value_bind. }
  unfold filterMethods in H. intros Heq. rewrite Heq in H.
  by apply elem_of_nil in H.
Qed.

(** When the client, the headers, the cookies and the wordlist are in
    order, the setup hands them to the dispatch loop together with a
    catalog that is not empty and has no duplicates. *)
Lemma probeSetup_ok rt w config client headers cookies :
  buildHTTPClient w config = inr client →
  parseHeaders rt w (Headers config) = (headers, None) →
  parseCookies rt w (Cookies config) = (cookies, None) →
  wordlistError w config = None →
  ∃ methods,
    value (probeSetup rt w config)
    = inr {| probeConfig := schemed config; probeClient := client;
             probeHeaders := headers; probeCookies := cookies;
             probeMethods := methods |} ∧
    methods ≠ [] ∧ NoDup methods.
Proof.
  intros Hclient Hheaders Hcookies Hwl.
  destruct (withScheme_eq config) as (pre & Hpre & _).
  unfold probeSetup. rewrite Hpre, bind_pair. unfold value at 1. cbn [snd].
  change (buildHTTPClient w (schemed config)) with (buildHTTPClient w config).
  change (Headers (schemed config)) with (Headers config).
  change (Cookies (schemed config)) with (Cookies config).
  rewrite Hclient, Hheaders, Hcookies, value_bind.
  pose proof (getMethods_value w (schemed config)) as Hval.
  change (wordlistError w (schemed config)) with (wordlistError w config) in Hval.
  rewrite Hwl in Hval.
  destruct (value (getMethods w (schemed config))) as [catalog e] eqn:Hget.
  injection Hval as Hcat ->. rewrite value_bind.
  exists (value (filterMethods (schemed config) catalog)).
  split_and!; [done| |by apply (catalog_NoDup w (schemed config))].
  apply filterMethods_GET.
  apply (getMethods_defaults w (schemed config) catalog Hget).
  apply (bool_decide_unpack _). by vm_compute.
Qed.

(** What a successful setup hands to the dispatch loop: the catalog of
    [getMethods] after the safe-mode filter. *)
Lemma probeSetup_methods rt w config p :
  value (probeSetup rt w config) = inr p →
  ∃ catalog,
    value (getMethods w (schemed config)) = (catalog, None) ∧
    probeMethods p = value (filterMethods (schemed config) catalog).
Proof.
  destruct (withScheme_eq config) as (pre & Hpre & _).
  unfold probeSetup. rewrite Hpre, bind_pair. unfold value at 1. cbn [snd].
  destruct (buildHTTPClient w (schemed config)) as [e|client]; [done|].
  destruct (parseHeaders rt w (Headers (schemed config))) as [headers [e|]]; [done|].
  destruct (parseCookies rt w (Cookies (schemed config))) as [cookies [e|]]; [done|].
  rewrite value_bind.
  destruct (value (getMethods w (schemed config))) as [catalog [e|]]; [done|].
  rewrite value_bind. intros [= <-]. by exists catalog.
Qed.

(** Whatever the interleaving, the goroutines and the keys of the shared
    map are among the methods the loop was started with. *)
Lemma reachable_methods w client targetURL headers cookies capacity methods s :
  Dispatch.reachable w client targetURL headers cookies capacity methods s →
  (∀ wk, wk ∈ Dispatch.workers s → Dispatch.method wk ∈ methods) ∧
  (∀ m, m ∈ dom (Dispatch.results s) → m ∈ methods) ∧
  (Dispatch.main s = Dispatch.Joined →
   Dispatch.method <$> Dispatch.workers s = methods).
Proof.
  intros Hreach.
  pose proof (DispatchFacts.reachable_inv _ _ _ _ _ _ _ s Hreach) as HI.
  assert (Hw : ∀ m, m ∈ Dispatch.method <$> Dispatch.workers s → m ∈ methods).
  { intros m Hm. pose proof (DispatchInv.inv_main _ _ _ _ _ _ _ _ HI) as Hmain.
    destruct (Dispatch.main s).
    - rewrite <- Hmain. apply elem_of_app. by left.
    - destruct Hmain as [<- _]. done. }
  split_and!.
  - intros wk Hwk. apply Hw, list_elem_of_fmap. by exists wk.
  - intros m Hm. apply Hw.
    rewrite (DispatchFacts.dom_results _ _ _ _ _ _ _ s HI), elem_of_list_to_set in Hm.
    rewrite (DispatchInv.inv_stores _ _ _ _ _ _ _ _ HI) in Hm.
    apply list_elem_of_fmap in Hm as (wk & -> & Hwk).
    apply list_elem_of_fmap. exists wk. split; [done|].
    apply list_elem_of_In in Hwk. apply List.filter_In in Hwk as [Hwk _].
    by apply list_elem_of_In.
  - intros Hj. pose proof (DispatchInv.inv_main _ _ _ _ _ _ _ _ HI) as Hmain.
    rewrite Hj in Hmain. by destruct Hmain.
Qed.

(** *** C10 *)

(** C10. [DangerousMethods] holds exactly DELETE, COPY, PUT, PATCH and
    UNCHECKOUT (each mapped to [true]), so these are the methods safe mode
    removes from any catalog; of the built-in list the other 27 remain, in
    order, among them POST, MKCOL, MOVE, LOCK and UNLOCK.  With [SafeOnly]
    on, the list the filter hands on holds exactly the catalog entries other
    than the five, and with it off the whole catalog; so the list
    [runSingleProbe] starts goroutines for contains none of the five and
    every other built-in method; under every interleaving of the dispatch
    loop no goroutine runs for one of the five and none of them is a key of
    the shared result map, and once the loop is past [wg.Wait] a goroutine
    has run for every other built-in method. *)
Theorem safe_mode_removes_exactly_five :
  (∀ m, DangerousMethods !! m = Some true ↔
        m ∈ ["DELETE"; "COPY"; "PUT"; "PATCH"; "UNCHECKOUT"]) ∧
  (∀ m, index_bool DangerousMethods m = true ↔
        m ∈ ["DELETE"; "COPY"; "PUT"; "PATCH"; "UNCHECKOUT"]) ∧
  (∀ C m, m ∈ C →
     (m ∉ safeMethods C ↔ m ∈ ["DELETE"; "COPY"; "PUT"; "PATCH"; "UNCHECKOUT"])) ∧
  safeMethods DefaultMethods =
    [ "CHECKIN"; "CHECKOUT"; "CONNECT"; "GET"; "HEAD"; "INDEX"; "LINK"; "LOCK";
      "MKCOL"; "MOVE"; "NOEXISTE"; "OPTIONS"; "ORDERPATCH"; "POST"; "PROPFIND";
      "PROPPATCH"; "REPORT"; "SEARCH"; "SHOWMETHOD"; "SPACEJUMP"; "TEXTSEARCH";
      "TRACE"; "TRACK"; "UNLINK"; "UNLOCK"; "VERSION-CONTROL"; "BAMBOOZLE" ] ∧
  Forall (λ m, m ∈ safeMethods DefaultMethods)
         ["POST"; "MKCOL"; "MOVE"; "LOCK"; "UNLOCK"] ∧
  (∀ w config catalog m,
     value (getMethods w config) = (catalog, None) →
     SafeOnly config = true →
     m ∈ DefaultMethods →
     m ∉ ["DELETE"; "COPY"; "PUT"; "PATCH"; "UNCHECKOUT"] →
     m ∈ value (filterMethods config catalog)) ∧
  (∀ config C m,
     SafeOnly config = true →
     (m ∈ value (filterMethods config C) ↔
      m ∈ C ∧ m ∉ ["DELETE"; "COPY"; "PUT"; "PATCH"; "UNCHECKOUT"])) ∧
  (∀ config C,
     SafeOnly config = false → value (filterMethods config C) = C) ∧
  (∀ rt w config p,
     value (probeSetup rt w config) = inr p →
     SafeOnly config = true →
     (∀ m, m ∈ probeMethods p →
           m ∉ ["DELETE"; "COPY"; "PUT"; "PATCH"; "UNCHECKOUT"]) ∧
     (∀ m, m ∈ DefaultMethods →
           m ∉ ["DELETE"; "COPY"; "PUT"; "PATCH"; "UNCHECKOUT"] →
           m ∈ probeMethods p) ∧
     (∀ capacity s,
        Dispatch.reachable w (probeClient p) (URL (probeConfig p))
          (probeHeaders p) (probeCookies p) capacity (probeMethods p) s →
        (∀ wk, wk ∈ Dispatch.workers s →
               Dispatch.method wk ∉ ["DELETE"; "COPY"; "PUT"; "PATCH"; "UNCHECKOUT"]) ∧
        (∀ m, m ∈ dom (Dispatch.results s) →
              m ∉ ["DELETE"; "COPY"; "PUT"; "PATCH"; "UNCHECKOUT"]) ∧
        (Dispatch.main s = Dispatch.Joined →
         ∀ m, m ∈ DefaultMethods →
              m ∉ ["DELETE"; "COPY"; "PUT"; "PATCH"; "UNCHECKOUT"] →
              ∃ wk, wk ∈ Dispatch.workers s ∧ Dispatch.method wk = m))).
Proof.
  assert (Hfilter : ∀ config C m,
    SafeOnly config = true →
    (m ∈ value (filterMethods config C) ↔ m ∈ C ∧ m ∉ dangerous)).
  { intros config C m Hsafe. unfold filterMethods. rewrite Hsafe, value_bind.
    apply elem_of_safeMethods. }
  fold dangerous. split_and!.
  - intros m. rewrite DangerousMethods_lookup.
    destruct (bool_decide (m ∈ dangerous)) eqn:H.
    + by apply bool_decide_eq_true in H.
    + apply bool_decide_eq_false in H. split; [done|]. by intros ?.
  - intros m. by rewrite index_bool_Dangerous, bool_decide_eq_true.
  - intros C m Hm. rewrite elem_of_safeMethods.
    destruct (decide (m ∈ dangerous)); intuition.
  - reflexivity.
  - repeat constructor; apply elem_of_safeMethods; (split;
      [unfold DefaultMethods; rewrite !elem_of_cons; tauto
      |unfold dangerous; rewrite !elem_of_cons, elem_of_nil; intuition discriminate]).
  - intros w config catalog m Hval Hsafe Hm Hnd.
    unfold filterMethods. rewrite Hsafe. rewrite value_bind. simpl.
    apply elem_of_safeMethods. split; [|done].
    by apply (getMethods_defaults w config catalog Hval).
  - done.
  - intros config C Hsafe. unfold filterMethods. by rewrite Hsafe, !value_bind.
  - intros rt w config p Hp Hsafe.
    destruct (probeSetup_methods rt w config p Hp) as (catalog & Hval & Hm).
    change (SafeOnly config) with (SafeOnly (schemed config)) in Hsafe.
    assert (Hnone : ∀ m, m ∈ probeMethods p → m ∉ dangerous).
    { intros m Hin. rewrite Hm in Hin.
      by apply (Hfilter _ _ _ Hsafe) in Hin as [_ ?]. }
    assert (Hall : ∀ m, m ∈ DefaultMethods → m ∉ dangerous → m ∈ probeMethods p).
    { intros m Hdef Hnd. rewrite Hm. apply (Hfilter _ _ _ Hsafe). split; [|done].
      by apply (getMethods_defaults w (schemed config) catalog Hval). }
    split_and!; [done|done|].
    intros capacity s Hreach.
    destruct (reachable_methods _ _ _ _ _ _ _ _ Hreach) as (Hwk & Hres & Hjoin).
    split_and!.
    + intros wk Hin. apply Hnone. auto.
    + intros m Hin. apply Hnone. auto.
    + intros Hj m Hdef Hnd. specialize (Hall m Hdef Hnd).
      rewrite <- (Hjoin Hj) in Hall.
      apply list_elem_of_fmap in Hall as (wk & -> & Hin). by exists wk.
Qed.

Lemma setupFails_error rt w config :
  setupFails rt w config → ∃ err, setupError rt w config = Some err.
Proof.
  unfold setupFails, setupError. intros Hfail.
  destruct (buildHTTPClient w config) as [e|client]; [by eexists|].
  destruct Hfail as [[e He]|Hfail]; [done|].
  destruct ((parseHeaders rt w (Headers config)).2) as [e|]; [by eexists|].
  destruct Hfail as [He|Hfail]; [done|].
  destruct ((parseCookies rt w (Cookies config)).2) as [e|]; [by eexists|].
  destruct Hfail as [He|Hfail]; [done|].
  destruct (wordlistError w config) as [e|]; [by eexists|done].
Qed.

(** X20. When the proxy URL is
    rejected, a header or cookie file cannot be read, or the wordlist cannot
    be read, [runSingleProbe] returns the error of the first of these steps
    that fails, wrapped with the name of the step.  It returns before the
    safe-mode block and the loop that starts the goroutines: all its main
    goroutine has done is log, at debug level, the added scheme and (when
    the wordlist is what fails) the size of the built-in list; it has not
    called [client.Do], so the OPTIONS request of the discovery is not
    sent. *)
Theorem runSingleProbe_fails_before_any_request
    (rt : Runtime) (w : World) (config : Config) :
  setupFails rt w config →
  (∃ err, setupError rt w config = Some err ∧
          value (runSingleProbe rt w config) = Returns (Some err)) ∧
  requests (trace (runSingleProbe rt w config)) = [] ∧
  trace (runSingleProbe rt w config)
  = trace (withScheme config) ++
    match buildHTTPClient w config,
          (parseHeaders rt w (Headers config)).2,
          (parseCookies rt w (Cookies config)).2 with
    | inr _, None, None =>
        [EvLog LevelDebug "Using %d default HTTP methods" [ArgInt 32]]
    | _, _, _ => []
    end.
Proof.
  intros [err Hse]%setupFails_error.
  pose proof Hse as Herr. unfold setupError in Herr.
  destruct (withScheme_eq config) as (pre & Hpre & Hreq).
  unfold runSingleProbe, probeSetup. rewrite Hpre, bind_pair.
  unfold value at 3. cbn [snd].
  change (buildHTTPClient w (schemed config)) with (buildHTTPClient w config).
  change (Headers (schemed config)) with (Headers config).
  change (Cookies (schemed config)) with (Cookies config).
  destruct (buildHTTPClient w config) as [e|client].
  { injection Herr as Herr.
    split_and!; [exists err; split; [exact Hse|by rewrite <- Herr]|..];
      simpl; by rewrite !app_nil_r. }
  destruct (parseHeaders rt w (Headers config)) as [headers [e|]]; cbn [snd] in Herr.
  { injection Herr as Herr.
    split_and!; [exists err; split; [exact Hse|by rewrite <- Herr]|..];
      simpl; by rewrite !app_nil_r. }
  destruct (parseCookies rt w (Cookies config)) as [cookies [e|]]; cbn [snd] in Herr.
  { injection Herr as Herr.
    split_and!; [exists err; split; [exact Hse|by rewrite <- Herr]|..];
      simpl; by rewrite !app_nil_r. }
  destruct (wordlistError w config) as [e|] eqn:Hwl; [|done].
  change (wordlistError w config) with (wordlistError w (schemed config)) in Hwl.
  pose proof (getMethods_value w (schemed config)) as Hval. rewrite Hwl in Hval.
  destruct (getMethods_wordlist_error w (schemed config) e Hwl) as (Hr & Ht & _).
  destruct (getMethods w (schemed config)) as [t v].
  unfold value in Hval. unfold trace in Hr, Ht. simpl in Hval, Hr, Ht. subst v t.
  injection Herr as Herr.
  split_and!; [exists err; split; [exact Hse|by rewrite <- Herr]|..]; simpl.
  - by rewrite !app_nil_r, requests_app, Hreq.
  - by rewrite !app_nil_r.
Qed.

Lemma runSingleProbe_fails_before_any_request_witness :
  (∃ err,
     setupError MoreExamples.noFiles MoreExamples.badProxy
       (MoreExamples.withProxy Examples.config "://proxy.local:3128") = Some err ∧
     value (runSingleProbe MoreExamples.noFiles MoreExamples.badProxy
              (MoreExamples.withProxy Examples.config "://proxy.local:3128"))
     = Returns (Some err)) ∧
  requests (trace (runSingleProbe MoreExamples.noFiles MoreExamples.badProxy
                     (MoreExamples.withProxy Examples.config "://proxy.local:3128")))
  = [] ∧
  trace (runSingleProbe MoreExamples.noFiles MoreExamples.badProxy
           (MoreExamples.withProxy Examples.config "://proxy.local:3128"))
  = [].
Proof.
  apply (runSingleProbe_fails_before_any_request MoreExamples.noFiles
           MoreExamples.badProxy
           (MoreExamples.withProxy Examples.config "://proxy.local:3128")).
  left. by eexists.
Defined.

Lemma probeSetup_succeeds rt w config :
  ¬ setupFails rt w config →
  ∃ p, value (probeSetup rt w config) = inr p ∧
       probeConfig p = schemed config ∧ probeMethods p ≠ [] ∧
       NoDup (probeMethods p).
Proof.
  intros Hok. unfold setupFails in Hok.
  destruct (buildHTTPClient w config) as [e|client] eqn:Hclient.
  { destruct Hok. left. by eexists. }
  destruct (parseHeaders rt w (Headers config)) as [headers [e|]] eqn:Hh.
  { destruct Hok. right. by left. }
  destruct (parseCookies rt w (Cookies config)) as [cookies [e|]] eqn:Hc.
  { destruct Hok. right. right. by left. }
  destruct (wordlistError w config) as [e|] eqn:Hwl.
  { destruct Hok. right. right. by right. }
  destruct (probeSetup_ok rt w config client headers cookies Hclient Hh Hc Hwl)
    as (methods & Hval & Hne & Hnd).
  eexists. split; [exact Hval|]. by split_and!.
Qed.

(** X21. With [Threads] at 0 or below, a
    probe whose setup succeeds never returns, whatever the interleaving:
    [make] panics for a negative size, and with an unbuffered channel every
    goroutine blocks at its send (the catalog is never empty), so [wg.Wait]
    is not passed. *)
Theorem runSingleProbe_needs_a_thread (rt : Runtime) (w : World) (config : Config) :
  ¬ setupFails rt w config →
  (Threads config ≤ 0)%Z →
  value (runSingleProbe rt w config)
  = if (Threads config <? 0)%Z then Panics else Blocked.
Proof.
  intros Hok Hthreads.
  destruct (probeSetup_succeeds rt w config Hok) as (p & Hp & Hcfg & Hne & _).
  unfold runSingleProbe. rewrite value_bind, Hp.
  unfold probeDispatch, Dispatch.makeSemaphore. rewrite Hcfg.
  change (Threads (schemed config)) with (Threads config).
  destruct (Threads config <? 0)%Z eqn:Hneg; [done|].
  assert (Hzero : Z.to_nat (Threads config) = 0%nat) by lia.
  rewrite Hzero.
  destruct (Dispatch.run _ _ _ _ _ _ _ _) as [s|] eqn:Hrun; [|done].
  pose proof (DispatchFacts.zero_capacity_not_joined _ _ _ _ _ 0%nat _ _ s
                eq_refl Hne Hrun) as Hj.
  by destruct (Dispatch.main s).
Qed.

Lemma runSingleProbe_needs_a_thread_witness :
  value (runSingleProbe MoreExamples.noFiles Examples.mockServer
           (MoreExamples.withThreads Examples.config 0))
  = Blocked.
Proof.
  apply (runSingleProbe_needs_a_thread MoreExamples.noFiles Examples.mockServer
           (MoreExamples.withThreads Examples.config 0)).
  - intros [[e He]|[H|[H|H]]]; [discriminate He|by apply H..].
  - done.
Defined.

(** X22. With at least one thread, a probe whose
    setup succeeds does return when its goroutines run one after the other;
    the only error left at that point is a failed JSON export. *)
Theorem runSingleProbe_returns (rt : Runtime) (w : World) (config : Config) :
  ¬ setupFails rt w config →
  (0 < Threads config)%Z →
  (∀ url methods, schedule rt url methods = DispatchInv.sequential w url methods) →
  ∃ err, value (runSingleProbe rt w config) = Returns err ∧
         (JSONFile config = "" → err = None) ∧
         ((∀ results, os_WriteFile w (JSONFile config) results = None) →
          err = None) ∧
         (∀ e, err = Some e →
               ∃ e', e = Errorf_w "failed to export results to JSON" e').
Proof.
  intros Hok Hthreads Hseq.
  destruct (probeSetup_succeeds rt w config Hok) as (p & Hp & Hcfg & _ & _).
  unfold runSingleProbe. rewrite value_bind, Hp.
  unfold probeDispatch, Dispatch.makeSemaphore. rewrite Hcfg, Hseq.
  change (Threads (schemed config)) with (Threads config).
  destruct (Threads config <? 0)%Z eqn:Hneg; [lia|].
  destruct (DispatchFacts.dispatch_can_join w (probeClient p)
              (URL (schemed config)) (probeHeaders p) (probeCookies p)
              (Z.to_nat (Threads config)) (probeMethods p) ltac:(lia))
    as (s & Hrun & Hj).
  rewrite Hrun, Hj, value_bind. eexists. split; [done|].
  unfold reportResults, exportToJSON.
  change (JSONFile (schemed config)) with (JSONFile config).
  destruct (bool_decide (JSONFile config ≠ "")) eqn:Hjson.
  - destruct (os_WriteFile w (JSONFile config) (Dispatch.results s)) as [e|] eqn:Hw.
    + split_and!.
      * intros Hnil. apply bool_decide_eq_true_1 in Hjson. done.
      * intros Hall. by rewrite Hall in Hw.
      * intros e0 [= <-]. by eexists.
    + by rewrite value_bind.
  - done.
Qed.

Lemma runSingleProbe_returns_witness :
  ∃ err, value (runSingleProbe MoreExamples.noFiles Examples.mockServer
                  Examples.config) = Returns err ∧ err = None.
Proof.
  destruct (runSingleProbe_returns MoreExamples.noFiles Examples.mockServer
              Examples.config) as (err & Hval & Hnone & _).
  - intros [[e He]|[H|[H|H]]]; [discriminate He|by apply H..].
  - done.
  - done.
  - exists err. split; [exact Hval|by apply Hnone].
Defined.

(** The setup does not look at the schedule. *)
Lemma parseHeaders_from_schedule st cn sch1 sch2 w flags : ∀ headers,
  parseHeaders_from {| os_Stat := st; CanonicalMIMEHeaderKey := cn;
                       schedule := sch1 |} w headers flags
  = parseHeaders_from {| os_Stat := st; CanonicalMIMEHeaderKey := cn;
                         schedule := sch2 |} w headers flags.
Proof.
  induction flags as [|h flags IH]; intros headers; [done|].
  cbn [parseHeaders_from os_Stat]. destruct (st h).
  - destruct (GoStrings.Contains h ","); apply IH.
  - destruct (readLinesFromFile w h) as [ls [e|]]; [done|]. apply IH.
Qed.

Lemma probeSetup_schedule rt1 rt2 w config :
  os_Stat rt1 = os_Stat rt2 →
  CanonicalMIMEHeaderKey rt1 = CanonicalMIMEHeaderKey rt2 →
  probeSetup rt1 w config = probeSetup rt2 w config.
Proof.
  destruct rt1 as [st1 cn1 sch1], rt2 as [st2 cn2 sch2]. simpl.
  intros -> ->. unfold probeSetup. apply bind_congr.
  destruct (buildHTTPClient w _); [done|].
  unfold parseHeaders. by rewrite (parseHeaders_from_schedule st2 cn2 sch1 sch2).
Qed.

Lemma probeDispatch_schedule rt1 rt2 w p err1 err2 :
  value (probeDispatch rt1 w p) = Returns err1 →
  value (probeDispatch rt2 w p) = Returns err2 →
  probeDispatch rt1 w p = probeDispatch rt2 w p.
Proof.
  unfold probeDispatch.
  destruct (Dispatch.makeSemaphore (Threads (probeConfig p))) as [capacity|];
    [|done].
  destruct (Dispatch.run _ _ _ _ _ _ _ (schedule rt1 _ _)) as [s1|] eqn:Hrun1;
    [|done].
  destruct (Dispatch.run _ _ _ _ _ _ _ (schedule rt2 _ _)) as [s2|] eqn:Hrun2;
    [|by destruct (Dispatch.main s1)].
  destruct (Dispatch.main s1) eqn:Hj1; [done|].
  destruct (Dispatch.main s2) eqn:Hj2; [done|].
  intros _ _.
  assert (Hres : ∀ sch s,
    Dispatch.run w (probeClient p) (URL (probeConfig p)) (probeHeaders p)
      (probeCookies p) capacity (Dispatch.initial (probeMethods p)) sch = Some s →
    Dispatch.main s = Dispatch.Joined →
    Dispatch.results s
    = sequentialResults w (probeClient p) (URL (probeConfig p)) (probeHeaders p)
        (probeCookies p) (probeMethods p)).
  { intros sch s Hrun Hj.
    apply (DispatchFacts.joined_results _ _ _ _ _ capacity); [|done].
    apply DispatchFacts.reachable_inv. by exists sch. }
  by rewrite (Hres _ s1 Hrun1 Hj1), (Hres _ s2 Hrun2 Hj2).
Qed.

(** X23. What [runSingleProbe] returns,
    and what its main goroutine logs and sends on the way, does not depend
    on how the goroutines interleave: two runs of the same probe that both
    return are equal, event for event. *)
Theorem runSingleProbe_schedule_independent
    (rt1 rt2 : Runtime) (w : World) (config : Config) (err1 err2 : option error) :
  os_Stat rt1 = os_Stat rt2 →
  CanonicalMIMEHeaderKey rt1 = CanonicalMIMEHeaderKey rt2 →
  value (runSingleProbe rt1 w config) = Returns err1 →
  value (runSingleProbe rt2 w config) = Returns err2 →
  runSingleProbe rt1 w config = runSingleProbe rt2 w config.
Proof.
  intros Hstat Hcanon. unfold runSingleProbe.
  rewrite !value_bind, (probeSetup_schedule rt1 rt2 w config Hstat Hcanon).
  intros H1 H2. apply bind_congr.
  destruct (value (probeSetup rt2 w config)) as [e|p]; [done|].
  by apply (probeDispatch_schedule rt1 rt2 w p err1 err2).
Qed.

Lemma runSingleProbe_schedule_independent_witness :
  runSingleProbe MoreExamples.noFiles Examples.mockServer Examples.config
  = runSingleProbe MoreExamples.spawnFirst Examples.mockServer Examples.config.
Proof.
  apply (runSingleProbe_schedule_independent MoreExamples.noFiles
           MoreExamples.spawnFirst Examples.mockServer Examples.config None None).
  - done.
  - done.
  - by vm_compute.
  - by vm_compute.
Defined.

(** ** [Run] *)

Lemma Run_urls_value rt w config urls err :
  value (Run_urls rt w config urls) ≠ Returns (Some err).
Proof.
  induction urls as [|u urls IH]; [done|].
  cbn [Run_urls]. destruct (bool_decide (u ≠ "")); [|done].
  rewrite !value_bind.
  destruct (value (runSingleProbe rt w (withURL config u))) as [[e|]| |];
    [by rewrite value_bind|done..].
Qed.

Lemma Run_urls_withURL rt w config url urls :
  Run_urls rt w (withURL config url) urls = Run_urls rt w config urls.
Proof.
  induction urls as [|u urls IH]; [done|].
  cbn [Run_urls]. rewrite IH.
  by change (withURL (withURL config url) u) with (withURL config u).
Qed.

Lemma Run_urls_logs rt w config urls :
  Forall (λ u, u ≠ "") urls →
  (∀ u, u ∈ urls → ∃ e, value (runSingleProbe rt w (withURL config u)) = Returns e) →
  value (Run_urls rt w config urls) = Returns None ∧
  (∀ u, u ∈ urls →
        EvLog LevelInfo "Testing URL: %s" [ArgStr u]
        ∈ trace (Run_urls rt w config urls)) ∧
  (∀ u err, u ∈ urls →
     value (runSingleProbe rt w (withURL config u)) = Returns (Some err) →
     EvLog LevelError "Error processing %s: %v" [ArgStr u; ArgErr err]
     ∈ trace (Run_urls rt w config urls)).
Proof.
  induction urls as [|x urls IH]; intros Hne Hret.
  { split_and!; [done|by intros ? ?%elem_of_nil|by intros ? ? ?%elem_of_nil]. }
  apply Forall_cons in Hne as [Hx Hne].
  destruct (IH Hne) as (Hval & Hinfo & Hlog).
  { intros u Hu. apply Hret. by right. }
  destruct (Hret x ltac:(by left)) as [e He].
  cbn [Run_urls]. rewrite (bool_decide_eq_true_2 _ Hx).
  rewrite !value_bind, !trace_bind, He.
  split_and!.
  - destruct e; [by rewrite value_bind|done].
  - intros u [->|Hu]%elem_of_cons.
    + apply elem_of_app. left. by left.
    + apply elem_of_app. right. apply elem_of_app. right.
      destruct e; [rewrite trace_bind; apply elem_of_app; right|]; by apply Hinfo.
  - intros u err [->|Hu]%elem_of_cons Hfail.
    + rewrite He in Hfail. injection Hfail as ->.
      apply elem_of_app. right. apply elem_of_app. right.
      rewrite trace_bind. apply elem_of_app. left. by left.
    + apply elem_of_app. right. apply elem_of_app. right.
      destruct e; [rewrite trace_bind; apply elem_of_app; right|]; by apply (Hlog u).
Qed.

(** X24. With an input file, [Run] returns an error exactly
    when the file cannot be read: the error of a single target is never
    returned.  When every probe returns, [Run] returns nil, announces every
    target of the file at info level and asks the logger for an error line
    with the target and its error for each target whose probe fails.  The
    URL of the configuration is not used. *)
Theorem Run_input_file (rt : Runtime) (w : World) (config : Config) :
  InputFile config ≠ "" →
  (∀ err, value (Run rt w config) = Returns (Some err) ↔
          ∃ err', (readLinesFromFile w (InputFile config)).2 = Some err' ∧
                  err = Errorf_w "failed to read URLs from file" err') ∧
  (∀ url, Run rt w (withURL config url) = Run rt w config) ∧
  ((readLinesFromFile w (InputFile config)).2 = None →
   (∀ url, url ∈ (readLinesFromFile w (InputFile config)).1 →
           ∃ e, value (runSingleProbe rt w (withURL config url)) = Returns e) →
   value (Run rt w config) = Returns None ∧
   (∀ url, url ∈ (readLinesFromFile w (InputFile config)).1 →
           EvLog LevelInfo "Testing URL: %s" [ArgStr url] ∈ trace (Run rt w config)) ∧
   (∀ url err,
      url ∈ (readLinesFromFile w (InputFile config)).1 →
      value (runSingleProbe rt w (withURL config url)) = Returns (Some err) →
      EvLog LevelError "Error processing %s: %v" [ArgStr url; ArgErr err]
      ∈ trace (Run rt w config))).
Proof.
  intros Hfile. split_and!.
  - intros err. unfold Run. rewrite value_bind, bool_decide_eq_true_2 by done.
    destruct (readLinesFromFile w (InputFile config)) as [urls [e|]]; cbn [snd].
    + split.
      * intros [= <-]. by exists e.
      * by intros (e' & [= <-] & ->).
    + split.
      * intros H. by destruct (Run_urls_value rt w config urls err).
      * by intros (e' & ? & _).
  - intros url. unfold Run.
    change (InputFile (withURL config url)) with (InputFile config).
    rewrite bool_decide_eq_true_2 by done.
    destruct (readLinesFromFile w (InputFile config)) as [urls [e|]]; [done|].
    by rewrite Run_urls_withURL.
  - intros Hread Hret.
    pose proof (readLinesFromFile_clean w (InputFile config)) as Hclean.
    unfold Run. rewrite value_bind, trace_bind, bool_decide_eq_true_2 by done.
    destruct (readLinesFromFile w (InputFile config)) as [urls [e|]];
      cbn [fst snd] in *; [done|].
    destruct (Run_urls_logs rt w config urls) as (Hval & Hinfo & Hlog); [|done|].
    { eapply Forall_impl; [exact Hclean|]. by intros u (_ & ? & _). }
    split_and!; [done| |].
    + intros url Hu. apply elem_of_app. right. by apply Hinfo.
    + intros url err Hu Hf. apply elem_of_app. right. by apply (Hlog url).
Qed.

Lemma Run_input_file_witness :
  Run MoreExamples.oneFile Examples.mockServer
    (withURL (MoreExamples.withInputFile Examples.config "methods.txt") "ignored")
  = Run MoreExamples.oneFile Examples.mockServer
      (MoreExamples.withInputFile Examples.config "methods.txt").
Proof.
  apply (Run_input_file MoreExamples.oneFile Examples.mockServer
           (MoreExamples.withInputFile Examples.config "methods.txt")).
  discriminate.
Defined.
